(** * A.FM (Audio File Manager): search, filter, sort, playback sequencing,
      metadata enrichment and batch relocation

    A shallow embedding of the application logic of [App.tsx] and
    [components/FileExplorer.tsx].

    Conventions of the embedding.
    - A JavaScript string is a list of code units; the embedding keeps the
      code units below 256 ([ascii]).  [toLowerCase] maps [A-Z] to [a-z]
      and the capital letters of U+00C0-U+00DE to their small forms,
      and leaves every other unit alone.
    - A JavaScript number is a rational ([Q]); [NaN] and the infinities are
      not values of the model, [Infinity] appears only as the right operand
      of [<=] and is modelled by that comparison being true.  Arithmetic
      is exact, except in [Controls.update] and [Waveform.lerpHue], where
      each operation is rounded as the doubles are ([Double.round]).
    - [x || 0] on an optional number is [orZero]; on a string, [strOrZero].
    - A [Record<string, number>] is a [gmap string Q].
    - React state is an explicit record that each handler transforms; what
      an [await] may deliver is an input of the handler. *)

From Stdlib Require Import List Ascii String ZArith QArith Qround Qabs Bool Lia Permutation.
From stdpp Require Import gmap strings sorting.
Import ListNotations.

Local Open Scope bool_scope.
Set Warnings "-register-all".

(** ** JavaScript strings *)

Module JS.

Definition str := list ascii.

Definition of_string (s : string) : str := list_ascii_of_string s.

(** [WhiteSpace] and [LineTerminator] code units below 256: what both
    [String.prototype.trim] and the regular-expression class [\s] use. *)
Definition isSpace (c : ascii) : bool :=
  let n := nat_of_ascii c in
  (Nat.leb 9 n && Nat.leb n 13) || Nat.eqb n 32 || Nat.eqb n 160.

(** The lower-case form of a code unit below 256: the letters [A-Z] and
    the capital letters of U+00C0-U+00DE (all of that range but the
    multiplication sign U+00D7) move up by 32; no other unit changes. *)
Definition lowerChar (c : ascii) : ascii :=
  let n := nat_of_ascii c in
  if (Nat.leb 65 n && Nat.leb n 90)
     || (Nat.leb 192 n && Nat.leb n 222 && negb (Nat.eqb n 215))
  then ascii_of_nat (n + 32) else c.

Definition toLowerCase (s : str) : str := map lowerChar s.

Fixpoint startsWith (s p : str) : bool :=
  match p, s with
  | [], _ => true
  | _ :: _, [] => false
  | a :: p', b :: s' => Ascii.eqb a b && startsWith s' p'
  end.

(** [s.includes(sub)] *)
Fixpoint includes (s sub : str) : bool :=
  startsWith s sub ||
  match s with
  | [] => false
  | _ :: s' => includes s' sub
  end.

Fixpoint trimStart (s : str) : str :=
  match s with
  | c :: s' => if isSpace c then trimStart s' else s
  | [] => []
  end.

Definition isEmpty (s : str) : bool :=
  match s with [] => true | _ :: _ => false end.

Fixpoint trimEnd (s : str) : str :=
  match s with
  | [] => []
  | c :: s' =>
      let r := trimEnd s' in
      if isSpace c && isEmpty r then [] else c :: r
  end.

Definition trim (s : str) : str := trimStart (trimEnd s).

(** [s.split(/\s+/)]: [cur] is the piece being read (reversed), [inWs]
    tells that the previous unit belonged to a separator. *)
Fixpoint splitWsFrom (cur : str) (inWs : bool) (s : str) : list str :=
  match s with
  | [] => [rev cur]
  | c :: s' =>
      if isSpace c
      then if inWs then splitWsFrom cur true s'
           else rev cur :: splitWsFrom [] true s'
      else splitWsFrom (c :: cur) false s'
  end.

Definition splitWs (s : str) : list str := splitWsFrom [] false s.

(** The words of [s]: its maximal non-empty runs of units that are not
    spaces; [cur] is the run being read (reversed). *)
Fixpoint wordsFrom (cur : str) (s : str) : list str :=
  match s with
  | [] => if isEmpty cur then [] else [rev cur]
  | c :: s' =>
      if isSpace c
      then if isEmpty cur then wordsFrom [] s' else rev cur :: wordsFrom [] s'
      else wordsFrom (c :: cur) s'
  end.

(** [s.lastIndexOf(c)], [-1] when [c] does not occur. *)
Fixpoint lastIndexOfFrom (i : Z) (c : ascii) (s : str) : Z :=
  match s with
  | [] => (-1)%Z
  | d :: s' =>
      let r := lastIndexOfFrom (i + 1) c s' in
      if (0 <=? r)%Z then r else if Ascii.eqb d c then i else (-1)%Z
  end.

Definition lastIndexOf (s : str) (c : ascii) : Z := lastIndexOfFrom 0 c s.

(** [s.substring(a, b)] and [s.substring(a)] for [0 <= a <= b]. *)
Definition substring (a b : Z) (s : str) : str :=
  firstn (Z.to_nat (b - a)) (skipn (Z.to_nat a) s).

Definition substringFrom (a : Z) (s : str) : str := skipn (Z.to_nat a) s.

(** [a % b] of JavaScript on integers: the sign follows the dividend. *)
Definition rem (a b : Z) : Z := Z.rem a b.

End JS.

(** ** Smart search ([matchSmartSearch], App.tsx) *)

Module Search.
Import JS.

Section Engine.

(** The regular-expression engine of the host: [RegExp_test p f t] is
    [None] when [new RegExp(p, f)] throws, and [Some (re.test(t))]
    otherwise. *)
Variable RegExp_test : str -> str -> str -> option bool.

Definition matchTerm (text term : str) : bool :=
  if startsWith term ["-"%char] then
    let exclude := toLowerCase (substringFrom 1 term) in
    if isEmpty exclude then true
    else negb (includes (toLowerCase text) exclude)
  else if startsWith term ["/"%char] && (0 <? lastIndexOf term "/"%char)%Z then
    let lastSlash := lastIndexOf term "/"%char in
    let pattern := substring 1 lastSlash term in
    let flags := substringFrom (lastSlash + 1) term in
    match RegExp_test pattern (if isEmpty flags then ["i"%char] else flags) text with
    | Some b => b
    | None => includes (toLowerCase text) (toLowerCase term)
    end
  else includes (toLowerCase text) (toLowerCase term).

Definition matchSmartSearchL (text query : str) : bool :=
  if isEmpty (trim query) then true
  else forallb (matchTerm text) (splitWs (trim query)).

Definition matchSmartSearch (text query : string) : bool :=
  matchSmartSearchL (of_string text) (of_string query).

End Engine.

(** A host engine restricted to the patterns made of an optional leading
    [^] and literal units, with the flag string [i] or the empty one:
    such a pattern matches when the literal is a prefix (anchored) or a
    factor of the text, letters compared without case under [i].  Every
    other pattern or flag string is reported as rejected. *)
Definition isMeta (c : ascii) : bool :=
  existsb (Ascii.eqb c)
    (of_string "\^$.|?*+()[]{}/").

Definition literalEngine (pattern flags text : str) : option bool :=
  let ci := match flags with
            | [] => Some false
            | [f] => if Ascii.eqb f "i"%char then Some true else None
            | _ => None
            end in
  let (anchored, lit) :=
    match pattern with
    | c :: p' => if Ascii.eqb c "^"%char then (true, p') else (false, pattern)
    | [] => (false, [])
    end in
  match ci with
  | None => None
  | Some ci =>
      if existsb isMeta lit then None
      else
        let t := if ci then toLowerCase text else text in
        let l := if ci then toLowerCase lit else lit in
        Some (if anchored then startsWith t l else includes t l)
  end.

(** The host engine gives the answers of [literalEngine] on the patterns
    that [literalEngine] covers. *)
Definition agreesOnLiterals (engine : str -> str -> str -> option bool) : Prop :=
  forall pattern flags text b,
    literalEngine pattern flags text = Some b -> engine pattern flags text = Some b.

End Search.

(** ** JavaScript numbers *)

Module Num.

Definition ltb (x y : Q) : bool := negb (Qle_bool y x).
Definition geb (x y : Q) : bool := Qle_bool y x.

(** [o || 0] for an optional number *)
Definition orZero (o : option Q) : Q :=
  match o with Some q => q | None => 0 end.

(** [x || 0] for a number that is present: zero is falsy and is replaced
    by zero. *)
Definition selfOrZero (x : Q) : Q := if Qeq_bool x 0 then 0 else x.

(** [v <= (x || Infinity)]: a zero bound is falsy and becomes
    [Infinity]. *)
Definition leOrInfinity (v x : Q) : bool :=
  if Qeq_bool x 0 then true else Qle_bool v x.

Definition max (x y : Q) : Q := if Qle_bool x y then y else x.

(** [Math.ceil] *)
Definition ceil (x : Q) : Q := inject_Z (Qceiling x).

End Num.

(** ** The library tree ([types.ts]) *)

Inductive Kind := file | directory.

(** [children] absent and [children = []] are not told apart by the code
    ([node.children || []], [if (item.children) collect(item.children)]),
    so the field is a list.  [handle] and [parentHandle] are capabilities
    of the host: [viaHandle] records whether ['getFile' in item.handle]
    (false for the items of the legacy file input, which carry [_file]),
    [hasParent] whether [parentHandle] is non-null.  The [duration] and
    [rating] fields of the interface are never read. *)
Inductive FileSystemItem := mkItem {
  id : string;
  name : string;
  kind : Kind;
  viaHandle : bool;
  hasParent : bool;
  children : list FileSystemItem;
  size : option Q;
  lastModified : option Q;
  type : option string;
}.

Inductive SortKey := key_name | key_size | key_type | key_date | key_duration | key_rating.
Inductive SortOrder := asc | desc.

(** [collect] of [refreshFiles]: the files of a tree, depth first. *)
Fixpoint collectItem (item : FileSystemItem) : list FileSystemItem :=
  match item with
  | mkItem _ _ k _ _ cs _ _ _ =>
      match k with
      | file => [item]
      | directory =>
          (fix collect (items : list FileSystemItem) : list FileSystemItem :=
             match items with
             | [] => []
             | c :: items' => collectItem c ++ collect items'
             end) cs
      end
  end.

Definition collect (items : list FileSystemItem) : list FileSystemItem :=
  flat_map collectItem items.

(** ** Sorting ([sortedFiles] of App.tsx, [matches.sort] of FileExplorer.tsx) *)

Module Sort.

(** The value a comparator reads: a number, or a lower-cased string. *)
Inductive SortVal := VNum (q : Q) | VStr (s : JS.str).

Fixpoint strLt (s t : JS.str) : bool :=
  match s, t with
  | _, [] => false
  | [], _ :: _ => true
  | a :: s', b :: t' =>
      if Nat.ltb (nat_of_ascii a) (nat_of_ascii b) then true
      else if Nat.ltb (nat_of_ascii b) (nat_of_ascii a) then false
      else strLt s' t'
  end.

(** [valA < valB]; the two operands of one comparison always have the
    same type, because they are read with the same key. *)
Definition ltVal (x y : SortVal) : bool :=
  match x, y with
  | VNum p, VNum q => Num.ltb p q
  | VStr s, VStr t => strLt s t
  | _, _ => false
  end.

(** [String(s || 0).toLowerCase()] *)
Definition strOrZero (o : option string) : JS.str :=
  match o with
  | Some s => if JS.isEmpty (JS.of_string s) then ["0"%char]
              else JS.toLowerCase (JS.of_string s)
  | None => ["0"%char]
  end.

Section Comparator.
Variable sortKey : SortKey.
Variable sortOrder : SortOrder.
Variables durations ratings : gmap string Q.

Definition sortValue (a : FileSystemItem) : SortVal :=
  match sortKey with
  | key_date => VNum (Num.orZero (lastModified a))
  | key_duration => VNum (Num.orZero (durations !! id a))
  | key_rating => VNum (Num.orZero (ratings !! id a))
  | key_size => VNum (Num.orZero (size a))
  | key_name => VStr (strOrZero (Some (name a)))
  | key_type => VStr (strOrZero (type a))
  end.

(** [valA < valB] for the values read with [sortKey] *)
Definition ltKey (a b : FileSystemItem) : bool := ltVal (sortValue a) (sortValue b).

(** The comparator of [sortedFiles]. *)
Definition compareFlat (a b : FileSystemItem) : Z :=
  let valA := sortValue a in
  let valB := sortValue b in
  if ltVal valA valB then match sortOrder with asc => -1 | desc => 1 end
  else if ltVal valB valA then match sortOrder with asc => 1 | desc => -1 end
  else 0.

(** The comparator of [matches.sort] in [flattenedList]. *)
Definition compareTree (a b : FileSystemItem) : Z :=
  let valA := sortValue a in
  let valB := sortValue b in
  if ltVal valA valB then match sortOrder with asc => -1 | desc => 1 end
  else match sortOrder with asc => 1 | desc => -1 end.

End Comparator.

(** [Array.prototype.sort] is stable; with a comparator that is a
    consistent total preorder its result is the stable sorted
    permutation, which insertion from the right computes. *)
Section StableSort.
Context {A : Type}.
Variable cmp : A -> A -> Z.

Fixpoint insertSorted (x : A) (l : list A) : list A :=
  match l with
  | [] => [x]
  | y :: l' => if (cmp x y <=? 0)%Z then x :: l else y :: insertSorted x l'
  end.

Fixpoint stableSort (l : list A) : list A :=
  match l with
  | [] => []
  | x :: l' => insertSorted x (stableSort l')
  end.

(** [x] may stand before [y]; [y] is tied with [z]. *)
Definition before (x y : A) : Prop := (cmp x y <= 0)%Z.

Definition tied (z y : A) : bool := (cmp z y =? 0)%Z.

End StableSort.

Definition sortedFiles (sortKey : SortKey) (sortOrder : SortOrder)
    (durations ratings : gmap string Q) (allFiles : list FileSystemItem)
    : list FileSystemItem :=
  stableSort (compareFlat sortKey sortOrder durations ratings) allFiles.

End Sort.

(** ** Filtering: the flat list of App.tsx and the tree of FileExplorer.tsx *)

Record FilterCriteria := mkCriteria {
  searchText : string;
  minSize : Q;
  maxSize : Q;
  minDuration : Q;
  maxDuration : Q;
  minDate : Q;
  maxDate : Q;
  minRating : Q;
}.

(** A row of the flattened tree: [{ ...node, depth, isExpanded }]. *)
Record Row := mkRow {
  row_item : FileSystemItem;
  depth : nat;
  isExpanded : option bool;
}.

Module Filter.

Section Views.
Variable RegExp_test : JS.str -> JS.str -> JS.str -> option bool.
(** [Array.prototype.sort] as the host runs it on the rows. *)
Variable arraySort : (Row -> Row -> Z) -> list Row -> list Row.
Variable filterCriteria : FilterCriteria.
Variables durations ratings : gmap string Q.
Variable sortKey : SortKey.
Variable sortOrder : SortOrder.
Variable expandedFolders : gset string.

(** The predicate of [filteredFiles] (App.tsx); the state variables it
    reads are the ones handed to the explorer as [filterCriteria]. *)
Definition flatAccepts (f : FileSystemItem) : bool :=
  let duration := Num.orZero (durations !! id f) in
  let rating := Num.orZero (ratings !! id f) in
  let matchSearch :=
    Search.matchSmartSearch RegExp_test (name f) (searchText filterCriteria) in
  let matchSize :=
    Num.geb (Num.orZero (size f)) (minSize filterCriteria)
    && Qle_bool (Num.orZero (size f)) (maxSize filterCriteria) in
  let matchDuration :=
    Num.geb duration (minDuration filterCriteria)
    && Qle_bool duration (maxDuration filterCriteria) in
  let matchDate :=
    Num.geb (Num.orZero (lastModified f)) (minDate filterCriteria)
    && Qle_bool (Num.orZero (lastModified f)) (maxDate filterCriteria) in
  let matchRating := Num.geb rating (minRating filterCriteria) in
  matchSearch && matchSize && matchDuration && matchDate && matchRating.

Definition filteredFiles (allFiles : list FileSystemItem) : list FileSystemItem :=
  List.filter flatAccepts (Sort.sortedFiles sortKey sortOrder durations ratings allFiles).

(** The predicate of the [kind === 'file'] branch of [processNode]. *)
Definition treeAccepts (node : FileSystemItem) : bool :=
  let duration := Num.orZero (durations !! id node) in
  let rating := Num.orZero (ratings !! id node) in
  let nodeMatchesSearch :=
    Search.matchSmartSearch RegExp_test (name node) (searchText filterCriteria) in
  let matchSize :=
    Num.geb (Num.orZero (size node)) (Num.selfOrZero (minSize filterCriteria))
    && Num.leOrInfinity (Num.orZero (size node)) (maxSize filterCriteria) in
  let matchDuration :=
    Num.geb duration (Num.selfOrZero (minDuration filterCriteria))
    && Num.leOrInfinity duration (maxDuration filterCriteria) in
  let matchDate :=
    Num.geb (Num.orZero (lastModified node)) (Num.selfOrZero (minDate filterCriteria))
    && Num.leOrInfinity (Num.orZero (lastModified node)) (maxDate filterCriteria) in
  let matchRating := Num.geb rating (minRating filterCriteria) in
  nodeMatchesSearch && matchSize && matchDuration && matchDate && matchRating.

Definition searchActive : bool :=
  negb (JS.isEmpty (JS.trim (JS.of_string (searchText filterCriteria))))
  || (negb (Qeq_bool (minRating filterCriteria) 0)
      && Num.ltb 0 (minRating filterCriteria)).

Definition compareRows (a b : Row) : Z :=
  Sort.compareTree sortKey sortOrder durations ratings (row_item a) (row_item b).

(** [processNode]: [result] is the array the closure pushes to and
    splices; the function returns it as it is when the call ends. *)
Fixpoint processNode (node : FileSystemItem) (depth : nat) (result : list Row)
    {struct node} : list Row :=
  match node with
  | mkItem nid nname k _ _ cs _ _ _ =>
      let nodeMatchesSearch :=
        Search.matchSmartSearch RegExp_test nname (searchText filterCriteria) in
      match k with
      | file =>
          if treeAccepts node then result ++ [mkRow node depth None] else result
      | directory =>
          let isExp := bool_decide (nid ∈ expandedFolders) in
          let originalResultLength := length result in
          let result1 :=
            if isExp || searchActive then
              (fix forEach (items : list FileSystemItem) (r : list Row) : list Row :=
                 match items with
                 | [] => r
                 | child :: items' => forEach items' (processNode child (S depth) r)
                 end) cs result
            else result in
          let hasMatches := Nat.ltb originalResultLength (length result1) in
          if hasMatches || (nodeMatchesSearch && negb (String.eqb nid "root")) then
            let matches := skipn originalResultLength result1 in
            let kept := firstn originalResultLength result1 in
            let sorted := arraySort compareRows matches in
            kept ++ [mkRow node depth (Some isExp)]
                 ++ (if isExp then sorted else [])
          else result1
      end
  end.

Definition flattenedList (items : list FileSystemItem) : list Row :=
  fold_left (fun r item => processNode item 0 r) items [].

(** [children.forEach(child => processNode(child, depth + 1))], as a fold *)
Definition forEachChild (depth : nat) (cs : list FileSystemItem) (r : list Row)
    : list Row :=
  fold_left (fun r c => processNode c (S depth) r) cs r.

(** The row pushed for a directory. *)
Definition dirRow (node : FileSystemItem) (depth : nat) : Row :=
  mkRow node depth (Some (bool_decide (id node ∈ expandedFolders))).

(** Every directory of the tree is in [expandedFolders]. *)
Fixpoint allExpanded (node : FileSystemItem) : bool :=
  match node with
  | mkItem nid _ k _ _ cs _ _ _ =>
      match k with
      | file => true
      | directory =>
          bool_decide (nid ∈ expandedFolders)
          && (fix each (items : list FileSystemItem) : bool :=
                match items with
                | [] => true
                | c :: items' => allExpanded c && each items'
                end) cs
      end
  end.

Definition fileRows (rows : list Row) : list FileSystemItem :=
  List.filter (fun f => match kind f with file => true | directory => false end)
    (map row_item rows).

End Views.

End Filter.

(** ** Playback ([playFile], [playNext], [playPrev] of App.tsx) *)

Module Playback.

Record AudioBuffer := mkBuffer {
  channel0 : list Q;          (* getChannelData(0) *)
  buf_duration : Q;
}.

Record WaveformData := mkWaveform {
  points : list Q;
  wf_duration : Q;
  buffer : AudioBuffer;
}.

Definition blockMax (block : list Q) : Q :=
  fold_left (fun max v => let val := Qabs v in if Num.ltb max val then val else max)
    block 0%Q.

(** The 800 peaks of the first channel. *)
Definition peaks (rawData : list Q) : list Q :=
  let samples := 800%nat in
  let blockSize :=
    match (length rawData / samples)%nat with O => 1%nat | n => n end in
  map (fun i => blockMax (firstn blockSize (skipn (i * blockSize) rawData)))
    (seq 0 samples).

Record Settings := mkSettings {
  isRandom : bool;
  isLooping : bool;
  isGradientBackground : bool;
  isGradientWaveform : bool;
  isUpdateGradientOnLoad : bool;
}.

(** The state [playFile] reads and writes: React state, refs, and the
    audio element.  An object URL is the number of its creation. *)
Record Shared := mkShared {
  playRequestCount : Z;
  activeFileId : option string;
  isPlaying : bool;
  waveformData : option WaveformData;
  error : option string;
  lastUrl : option nat;
  urlsCreated : nat;
  revoked : list nat;
  audioPresent : bool;         (* audioRef.current is not null *)
  audioSrc : option nat;       (* None is the empty src *)
  ctxSuspended : bool;
  skipTimers : nat;            (* pending setTimeout(playNext(true), 250) *)
  gradientChanges : nat;
}.

Definition bumpRequest (randomize : bool) (s : Shared) : Shared :=
  mkShared (playRequestCount s + 1) (activeFileId s) (isPlaying s) (waveformData s)
    (error s) (lastUrl s) (urlsCreated s) (revoked s) (audioPresent s) (audioSrc s)
    (ctxSuspended s) (skipTimers s)
    (if randomize then S (gradientChanges s) else gradientChanges s).

Definition ctxRunning (s : Shared) : Shared :=
  mkShared (playRequestCount s) (activeFileId s) (isPlaying s) (waveformData s)
    (error s) (lastUrl s) (urlsCreated s) (revoked s) (audioPresent s) (audioSrc s)
    false (skipTimers s) (gradientChanges s).

(** revoke the previous URL, create the next one, [setActiveFileId] *)
Definition installUrl (fileId : string) (s : Shared) : Shared :=
  mkShared (playRequestCount s) (Some fileId) (isPlaying s) (waveformData s)
    (error s) (Some (urlsCreated s)) (S (urlsCreated s))
    (match lastUrl s with Some u => u :: revoked s | None => revoked s end)
    (audioPresent s) (audioSrc s) (ctxSuspended s) (skipTimers s) (gradientChanges s).

Definition setAudioSrc (src : option nat) (s : Shared) : Shared :=
  mkShared (playRequestCount s) (activeFileId s) (isPlaying s) (waveformData s)
    (error s) (lastUrl s) (urlsCreated s) (revoked s) (audioPresent s) src
    (ctxSuspended s) (skipTimers s) (gradientChanges s).

Definition setIsPlaying (b : bool) (s : Shared) : Shared :=
  mkShared (playRequestCount s) (activeFileId s) b (waveformData s)
    (error s) (lastUrl s) (urlsCreated s) (revoked s) (audioPresent s) (audioSrc s)
    (ctxSuspended s) (skipTimers s) (gradientChanges s).

Definition setWaveformData (w : option WaveformData) (s : Shared) : Shared :=
  mkShared (playRequestCount s) (activeFileId s) (isPlaying s) w
    (error s) (lastUrl s) (urlsCreated s) (revoked s) (audioPresent s) (audioSrc s)
    (ctxSuspended s) (skipTimers s) (gradientChanges s).

Definition loadFailed (fileName : string) (skip : bool) (s : Shared) : Shared :=
  mkShared (playRequestCount s) (activeFileId s) (isPlaying s) None
    (Some ("LOAD FAILED: " ++ fileName)%string) (lastUrl s) (urlsCreated s) (revoked s)
    (audioPresent s) (audioSrc s) (ctxSuspended s)
    (if skip then S (skipTimers s) else skipTimers s) (gradientChanges s).

(** Where a call of [playFile] is suspended. *)
Inductive Pc :=
| AtInitCtx                    (* await initAudioCtx() *)
| AtGetFile                    (* await item.handle.getFile() *)
| AtTimer (url : nat)          (* await new Promise(r => setTimeout(r, 10)) *)
| AtPlay                       (* await playPromise *)
| AtArrayBuffer                (* await file.arrayBuffer() *)
| AtCtxResume                  (* await audioCtxRef.current.resume() *)
| AtDecode                     (* await decodeAudioData(arrayBuffer) *)
| Finished.

Record Task := mkTask {
  t_item : FileSystemItem;
  t_shouldPlay : bool;
  t_requestId : Z;
  t_pc : Pc;
}.

(** How the awaited promise settles.  [Resolved b] carries the decoded
    buffer where one is awaited ([None] is a null buffer); [Rejected a]
    tells whether the error is an [AbortError]. *)
Inductive Settled :=
| Resolved (b : option AudioBuffer)
| Rejected (abortError : bool).

Definition at_ (t : Task) (pc : Pc) : Task :=
  mkTask (t_item t) (t_shouldPlay t) (t_requestId t) pc.

Definition current (t : Task) (s : Shared) : bool :=
  (t_requestId t =? playRequestCount s)%Z.

(** The [catch] block. *)
Definition catchBlock (t : Task) (s : Shared) : Task * Shared :=
  (at_ t Finished,
   if current t s then loadFailed (name (t_item t)) (t_shouldPlay t) s else s).

(** [if (requestId !== playRequestCount.current) return;] followed by
    [await file.arrayBuffer()]. *)
Definition firstCheck (t : Task) (s : Shared) : Task * Shared :=
  if current t s then (at_ t AtArrayBuffer, s) else (at_ t Finished, s).

(** From the file being at hand to the next suspension. *)
Definition withFile (t : Task) (s : Shared) : Task * Shared :=
  let url := urlsCreated s in
  let s1 := installUrl (id (t_item t)) s in
  if audioPresent s1 then (at_ t (AtTimer url), setAudioSrc None s1)
  else firstCheck t s1.

Definition resume (t : Task) (r : Settled) (s : Shared) : Task * Shared :=
  match t_pc t, r with
  | AtInitCtx, Resolved _ =>
      let s := ctxRunning s in
      if viaHandle (t_item t) then (at_ t AtGetFile, s) else withFile t s
  | AtInitCtx, Rejected _ => catchBlock t s
  | AtGetFile, Resolved _ => withFile t s
  | AtGetFile, Rejected _ => catchBlock t s
  | AtTimer url, _ =>                 (* the timer does not reject *)
      let s := setAudioSrc (Some url) s in
      if t_shouldPlay t then (at_ t AtPlay, s)
      else firstCheck t (setIsPlaying false s)
  | AtPlay, Resolved _ => firstCheck t (setIsPlaying true s)
  | AtPlay, Rejected true => firstCheck t s
  | AtPlay, Rejected false => catchBlock t s
  | AtArrayBuffer, Resolved _ =>
      if ctxSuspended s then (at_ t AtCtxResume, s) else (at_ t AtDecode, s)
  | AtArrayBuffer, Rejected _ => catchBlock t s
  | AtCtxResume, Resolved _ => (at_ t AtDecode, ctxRunning s)
  | AtCtxResume, Rejected _ => catchBlock t s
  | AtDecode, Resolved audioBuffer =>
      if current t s then
        (at_ t Finished,
         setWaveformData
           (match audioBuffer with
            | Some b => Some (mkWaveform (peaks (channel0 b)) (buf_duration b) b)
            | None => None
            end) s)
      else (at_ t Finished, s)
  | AtDecode, Rejected _ => catchBlock t s
  | Finished, _ => (t, s)
  end.

(** The application: the shared state, the calls of [playFile] in the
    order they were made, and the toggles. *)
Record World := mkWorld {
  shared : Shared;
  tasks : list Task;
  settings : Settings;
}.

(** The synchronous start of [playFile], up to [await initAudioCtx()]. *)
Definition playFile (item : FileSystemItem) (shouldPlay : bool) (w : World) : World :=
  match kind item with
  | directory => w
  | file =>
      let randomize :=
        (isGradientBackground (settings w) || isGradientWaveform (settings w))
        && isUpdateGradientOnLoad (settings w) in
      let s := bumpRequest randomize (shared w) in
      mkWorld s (tasks w ++ [mkTask item shouldPlay (playRequestCount s) AtInitCtx])
        (settings w)
  end.

(** The promise awaited by the [i]-th call settles. *)
Definition settle (i : nat) (r : Settled) (w : World) : World :=
  match tasks w !! i with
  | Some t =>
      let (t', s') := resume t r (shared w) in
      mkWorld s' (<[i := t']> (tasks w)) (settings w)
  | None => w
  end.

(** [files.findIndex(f => f.id === activeId)], counted from [i] *)
Fixpoint findIndexFrom (i : Z) (files : list FileSystemItem) (activeId : option string)
    : Z :=
  match files with
  | [] => (-1)%Z
  | f :: files' =>
      if bool_decide (Some (id f) = activeId) then i
      else findIndexFrom (i + 1)%Z files' activeId
  end.

Definition findIndex (files : list FileSystemItem) (activeId : option string) : Z :=
  findIndexFrom 0 files activeId.

(** [files[i]] *)
Definition at_index (files : list FileSystemItem) (i : Z) : option FileSystemItem :=
  if (i <? 0)%Z then None else files !! Z.to_nat i.

(** [random] is what [Math.random()] returns if it is called. *)
Definition playNext (forceNext : bool) (filteredFiles : list FileSystemItem)
    (random : Q) (w : World) : World :=
  if (length filteredFiles =? 0)%nat then w
  else
    let activeFile :=
      List.find (fun f => bool_decide (Some (id f) = activeFileId (shared w)))
        filteredFiles in
    match negb forceNext && isLooping (settings w), activeFile with
    | true, Some a => playFile a true w
    | _, _ =>
        let len := Z.of_nat (length filteredFiles) in
        let nextIdx :=
          if isRandom (settings w) then Qfloor (random * inject_Z len)%Q
          else JS.rem (findIndex filteredFiles (activeFileId (shared w)) + 1) len in
        let shouldPlay := if forceNext then isPlaying (shared w) else true in
        match at_index filteredFiles nextIdx with
        | Some nextFile => playFile nextFile shouldPlay w
        | None => w
        end
    end.

Definition playPrev (filteredFiles : list FileSystemItem) (random : Q) (w : World)
    : World :=
  if (length filteredFiles =? 0)%nat then w
  else
    let len := Z.of_nat (length filteredFiles) in
    let prevIdx :=
      if isRandom (settings w) then Qfloor (random * inject_Z len)%Q
      else JS.rem (findIndex filteredFiles (activeFileId (shared w)) - 1 + len) len in
    match at_index filteredFiles prevIdx with
    | Some prevFile => playFile prevFile (isPlaying (shared w)) w
    | None => w
    end.

Inductive Event :=
| Play (item : FileSystemItem) (shouldPlay : bool)
| Settle (i : nat) (r : Settled)
| Next (forceNext : bool) (filteredFiles : list FileSystemItem) (random : Q)
| Prev (filteredFiles : list FileSystemItem) (random : Q).

Definition step (w : World) (e : Event) : World :=
  match e with
  | Play item shouldPlay => playFile item shouldPlay w
  | Settle i r => settle i r w
  | Next forceNext filteredFiles random => playNext forceNext filteredFiles random w
  | Prev filteredFiles random => playPrev filteredFiles random w
  end.

Definition run (events : list Event) (w : World) : World := fold_left step events w.

End Playback.

(** ** Rescan and metadata enrichment ([refreshFiles], [enrichMetadata]) *)

Record Range := mkRange { rmin : Q; rmax : Q }.

Record Bounds := mkBounds {
  b_size : Range;
  b_duration : Range;
  b_date : Range;
}.

Module Library.

(** The slice of the application state that a rescan and the enrichment
    pass read and write.  [db] is the value stored under the key
    ['durations'] ([None]: nothing stored), [dbWrites] counts the calls
    of [saveMetadata('durations', _)]. *)
Record State := mkState {
  allFiles : list FileSystemItem;
  availableFolders : list FileSystemItem;
  durations : gmap string Q;
  bounds : Bounds;
  criteria : FilterCriteria;       (* searchText, minSize .. minRating *)
  metadataQueue : list FileSystemItem;
  isEnriching : bool;
  db : option (gmap string Q);
  dbWrites : nat;
}.

Definition initialBounds (dateNow : Q) : Bounds :=
  mkBounds (mkRange 0 100000000) (mkRange 0 60) (mkRange 0 dateNow).

(** [Math.min(...l)] and [Math.max(...l)] for a non-empty [l] *)
Definition minimum (l : list Q) : Q :=
  match l with
  | [] => 0
  | x :: l' => fold_left (fun m v => if Qle_bool m v then m else v) l' x
  end.

Definition maximum (l : list Q) : Q :=
  match l with
  | [] => 0
  | x :: l' => fold_left Num.max l' x
  end.

(** the folders of a tree, in the order [collect] pushes them *)
Fixpoint foldersOf (item : FileSystemItem) : list FileSystemItem :=
  match item with
  | mkItem _ _ k _ _ cs _ _ _ =>
      match k with
      | file => []
      | directory =>
          item :: (fix each (items : list FileSystemItem) : list FileSystemItem :=
                     match items with
                     | [] => []
                     | c :: items' => foldersOf c ++ each items'
                     end) cs
      end
  end.

(** [!currentDurations[f.id]] *)
Definition notCached (currentDurations : gmap string Q) (f : FileSystemItem) : bool :=
  match currentDurations !! id f with
  | Some d => Qeq_bool d 0
  | None => true
  end.

(** [refreshFiles] once [scanDirectory] has delivered [items];
    [dbReadOk] is false when [getMetadata('durations')] rejects, which
    ends the call before [setAllFiles]. *)
Definition refreshFiles (items : list FileSystemItem) (dbReadOk : bool) (st : State)
    : State :=
  let files := collect items in
  let folders := flat_map foldersOf items in
  if (0 <? length files)%nat then
    let sizes := map (fun f => Num.orZero (size f)) files in
    let dates := map (fun f => Num.orZero (lastModified f)) files in
    let newBounds :=
      mkBounds (mkRange (minimum sizes) (maximum sizes))
               (mkRange 0 60)
               (mkRange (minimum dates) (maximum dates)) in
    let c := criteria st in
    let c' :=
      mkCriteria (searchText c)
        (rmin (b_size newBounds)) (rmax (b_size newBounds))
        (rmin (b_duration newBounds)) (rmax (b_duration newBounds))
        (rmin (b_date newBounds)) (rmax (b_date newBounds))
        (minRating c) in
    if dbReadOk then
      let currentDurations := match db st with Some m => m | None => ∅ end in
      let unMetadataFiles := List.filter (notCached currentDurations) files in
      mkState files folders (durations st) newBounds c' unMetadataFiles
        (isEnriching st) (db st) (dbWrites st)
    else
      mkState (allFiles st) (availableFolders st) (durations st) newBounds c'
        (metadataQueue st) (isEnriching st) (db st) (dbWrites st)
  else
    mkState files folders (durations st) (bounds st) (criteria st)
      (metadataQueue st) (isEnriching st) (db st) (dbWrites st).

(** What the host delivers for one file of the queue: [getFile] throws,
    or [getAudioDuration] resolves (with zero on an error of the audio
    element or after the two seconds of its timeout). *)
Inductive Probe :=
| OpenFailed
| Duration (d : Q).

Record Env := mkEnv {
  probe : string -> Probe;
  now : nat -> Q;               (* the k-th reading of performance.now() *)
}.

(** The local variables of [enrichMetadata]. *)
Record Locals := mkLocals {
  batch : gmap string Q;
  batchSize : nat;
  lastBatchTime : Q;
  lastMaxDuration : Q;
}.

Definition withDurationMax (newMax : Q) (b : Bounds) : Bounds :=
  mkBounds (b_size b)
    (mkRange (rmin (b_duration b)) (Num.max (rmax (b_duration b)) newMax))
    (b_date b).

(** The flush: [setDurations] with the write of the merged map, and
    [setBounds] when the pass has seen a longer file than the maximum it
    captured when it started. *)
Definition flush (capturedMax : Q) (loc : Locals) (st : State) : State :=
  let next := batch loc ∪ durations st in
  mkState (allFiles st) (availableFolders st) next
    (if Num.ltb capturedMax (lastMaxDuration loc)
     then withDurationMax (lastMaxDuration loc) (bounds st) else bounds st)
    (criteria st) (metadataQueue st) (isEnriching st) (Some next) (S (dbWrites st)).

Definition record_ (fileId : string) (duration : Q) (loc : Locals) : Locals :=
  if Num.ltb 0 duration then
    mkLocals (<[fileId := duration]> (batch loc)) (S (batchSize loc)) (lastBatchTime loc)
      (if Num.ltb (lastMaxDuration loc) duration then Num.ceil duration
       else lastMaxDuration loc)
  else loc.

(** One turn of the [while] loop for [fileItem]; [drained] tells that
    the queue is empty after the [shift]. *)
Definition enrichItem (env : Env) (capturedMax : Q) (k : nat)
    (fileItem : FileSystemItem) (drained : bool) (loc : Locals) (st : State)
    : Locals * State :=
  let loc1 :=
    match probe env (id fileItem) with
    | Duration duration => record_ (id fileItem) duration loc
    | OpenFailed => loc
    end in
  let now_ := now env k in
  if (20 <=? batchSize loc1)%nat
     || (Num.ltb 500 (now_ - lastBatchTime loc1) && (0 <? batchSize loc1)%nat)
     || drained
  then (mkLocals ∅ 0 now_ (lastMaxDuration loc1), flush capturedMax loc1 st)
  else (loc1, st).

Definition setQueue (q : list FileSystemItem) (enriching : bool) (st : State) : State :=
  mkState (allFiles st) (availableFolders st) (durations st) (bounds st) (criteria st)
    q enriching (db st) (dbWrites st).

Fixpoint enrichLoop (env : Env) (capturedMax : Q) (k : nat)
    (queue : list FileSystemItem) (loc : Locals) (st : State) : State :=
  match queue with
  | [] => setQueue [] false st
  | fileItem :: rest =>
      let (loc', st') :=
        enrichItem env capturedMax k fileItem (length rest =? 0)%nat loc
          (setQueue rest true st) in
      enrichLoop env capturedMax (S k) rest loc' st'
  end.

(** The effect that runs the pass; the readings of the clock are
    numbered from the one that initialises [lastBatchTime]. *)
Definition enrichMetadata (env : Env) (isStarted : bool) (st : State) : State :=
  if negb isStarted || (length (metadataQueue st) =? 0)%nat || isEnriching st then st
  else
    let capturedMax := rmax (b_duration (bounds st)) in
    enrichLoop env capturedMax 1 (metadataQueue st)
      (mkLocals ∅ 0 (now env 0) capturedMax) st.

(** What the probe of the file [i] adds to the duration map: its
    duration when the probe resolved with a positive one. *)
Definition measured (env : Env) (i : string) : option Q :=
  match probe env i with
  | Duration d => if Num.ltb 0 d then Some d else None
  | OpenFailed => None
  end.



Definition durationMax (st : State) : Q := rmax (b_duration (bounds st)).

End Library.

(** ** Batch relocation ([handleBatchMove]) *)

Module Batch.

(** What the host answers, step by step, when one source is moved. *)
Record MoveIO := mkIO {
  readOk : bool;          (* sourceHandle.getFile() *)
  handleOk : bool;        (* targetHandle.getFileHandle(name, { create: true }) *)
  writableOk : bool;      (* newFileHandle.createWritable() *)
  writeOk : bool;         (* writable.write(file) *)
  closeOk : bool;         (* writable.close() *)
  removeOk : bool;        (* source.parentHandle.removeEntry(name) *)
}.

(** The changes made to the file system, oldest first. *)
Inductive FsOp :=
| Created (fileName : string)     (* an entry of that name exists in the target *)
| Written (fileName : string)     (* the contents are committed to it *)
| Removed (fileName : string).    (* the original is gone *)

(** The notice shown: [MOVED n FILE(S)] or [BATCH MOVE FAILED]. *)
Inductive Notice :=
| MovedFiles (movedCount : nat)
| BatchMoveFailed.

(** [selectedIds] is a [Set]: the ids in the order they were added. *)
Record State := mkState {
  selectedIds : list string;
  allFiles : list FileSystemItem;
  activeFileId : option string;
  isLoading : bool;
  error : option Notice;
  rescans : nat;                  (* calls of refreshFiles *)
  fsLog : list FsOp;
}.

Definition findById (files : list FileSystemItem) (i : string) : option FileSystemItem :=
  List.find (fun f => String.eqb (id f) i) files.

Definition itemsToMove (st : State) : list FileSystemItem :=
  if (0 <? length (selectedIds st))%nat then
    flat_map (fun i => match findById (allFiles st) i with
                       | Some item => [item]
                       | None => []
                       end) (selectedIds st)
  else
    match activeFileId st with
    | Some a =>
        if String.eqb a "" then []
        else match findById (allFiles st) a with
             | Some activeFile => [activeFile]
             | None => []
             end
    | None => []
    end.

(** The body of the [for] loop for one file; [false] when a step throws. *)
Definition moveOne (io : MoveIO) (source : FileSystemItem) (log : list FsOp)
    : bool * list FsOp :=
  if negb (readOk io) then (false, log)
  else if negb (handleOk io) then (false, log)
  else
    let log := log ++ [Created (name source)] in
    if negb (writableOk io) then (false, log)
    else if negb (writeOk io) then (false, log)
    else if negb (closeOk io) then (false, log)
    else
      let log := log ++ [Written (name source)] in
      (true,
       if hasParent source && removeOk io then log ++ [Removed (name source)] else log).

(** No step of the move of one file throws, the removal of the original
    set aside (its failure is swallowed). *)
Definition succeeds (io : MoveIO) : bool :=
  readOk io && handleOk io && writableOk io && writeOk io && closeOk io.

(** The [for] loop: whether it ran to its end, [movedCount], the log. *)
Fixpoint moveLoop (io : string -> MoveIO) (items : list FileSystemItem)
    (movedCount : nat) (log : list FsOp) : bool * nat * list FsOp :=
  match items with
  | [] => (true, movedCount, log)
  | source :: rest =>
      match kind source with
      | directory => moveLoop io rest movedCount log
      | file =>
          let (ok, log') := moveOne (io (id source)) source log in
          if ok then moveLoop io rest (S movedCount) log'
          else (false, movedCount, log')
      end
  end.

(** [refreshThrows]: the rescan started by the handler rejects. *)
Definition handleBatchMove (target : FileSystemItem) (io : string -> MoveIO)
    (refreshThrows : bool) (st : State) : State :=
  let items := itemsToMove st in
  if (length items =? 0)%nat then st
  else match kind target with
  | file => st
  | directory =>
      let '(ok, movedCount, log) := moveLoop io items 0 (fsLog st) in
      if ok then
        mkState [] (allFiles st) (activeFileId st) false
          (Some (if refreshThrows then BatchMoveFailed else MovedFiles movedCount))
          (S (rescans st)) log
      else
        mkState (selectedIds st) (allFiles st) (activeFileId st) false
          (Some BatchMoveFailed) (rescans st) log
  end.

End Batch.

(** ** Sample data *)

Module Sample.
Import Playback.

Definition track (i : string) : FileSystemItem :=
  mkItem i i file true true [] (Some 1000%Q) (Some 0%Q) (Some "audio/wav"%string).

Definition threeTracks : list FileSystemItem :=
  [track "a.wav"; track "b.wav"; track "c.wav"].

(** Nothing loaded yet, the audio element mounted, shuffle off; [loop] is
    the loop toggle, [active] the active entry. *)
Definition worldAt (active : option string) (loop : bool) : World :=
  mkWorld
    (mkShared 0 active false None None None 0 [] true None false 0 0)
    [] (mkSettings false loop false false false).

Definition ok : Settled := Resolved None.

Definition folder (i : string) : FileSystemItem :=
  mkItem i i directory true true [] None None None.

(** The three tracks selected, nothing moved yet. *)
Definition threeSelected : Batch.State :=
  Batch.mkState ["a.wav"; "b.wav"; "c.wav"]%string threeTracks None false None 0 [].


(** A library just scanned: [queue] are its files, none has a cached
    duration, nothing is stored. *)
Definition seeded (queue : list FileSystemItem) : Library.State :=
  Library.mkState queue [] ∅ (Library.initialBounds 0)
    (mkCriteria "" 0 100000000 0 60 0 0 0) queue false None 0.

(** Every probe resolves with [d] seconds; the clock does not move. *)
Definition everyProbe (d : Q) : Library.Env :=
  Library.mkEnv (fun _ => Library.Duration d) (fun _ => 0%Q).



(** A directory [kit] holding one file. *)
Definition kit : FileSystemItem :=
  mkItem "kit" "kit" directory true true [track "kit/snare.wav"] None None None.

(** No search, no rating, ranges that let every sample file through. *)
Definition wideOpen : FilterCriteria := mkCriteria "" 0 100000000 0 60 0 100 0.

(** The same with the upper end of the duration range dragged to zero. *)
Definition zeroMaxDuration : FilterCriteria := mkCriteria "" 0 100000000 0 0 0 100 0.

(** The host sort taken to be the reference stable sort. *)
Definition referenceSort (cmp : Row -> Row -> Z) (rows : list Row) : list Row :=
  Sort.stableSort cmp rows.

(** A name and two terms that differ in the case of a letter beyond
    [A-Z]: the file name is [CAF], the capital E with an acute accent
    (U+00C9) and [.wav]; the terms spell it with the small one (U+00E9). *)
Definition cafeName : string :=
  String "C" (String "A" (String "F" (String "201" ".wav"))).

Definition cafeQuery : string :=
  String "c" (String "a" (String "f" (String "233" EmptyString))).

Definition cafeExpression : string :=
  String "/" (String "c" (String "a" (String "f" (String "233" "/")))).

(** Every step of a move succeeds. *)
Definition allGood : Batch.MoveIO := Batch.mkIO true true true true true true.

(** The same, except that [b.wav] cannot be read. *)
Definition secondUnreadable (i : string) : Batch.MoveIO :=
  if String.eqb i "b.wav" then Batch.mkIO false true true true true true else allGood.

Definition bufferA : AudioBuffer := mkBuffer [1 # 4; -(1 # 8)] 3.
Definition bufferB : AudioBuffer := mkBuffer [1 # 2; -(3 # 4)] 2.

(** [play(A)], then [play(B)] at once; the file of [B] opens, [B] plays
    and is decoded; only then does the file of [A] open, after which the
    call for [A] runs until its first check of the request counter. *)
Definition slowOpenRace : list Event :=
  [ Play (track "a.wav") true; Play (track "b.wav") true;
    Settle 0 ok;                          (* A: initAudioCtx *)
    Settle 1 ok;                          (* B: initAudioCtx *)
    Settle 1 ok;                          (* B: getFile *)
    Settle 1 ok;                          (* B: timer *)
    Settle 1 ok;                          (* B: play *)
    Settle 1 ok;                          (* B: arrayBuffer *)
    Settle 1 (Resolved (Some bufferB));   (* B: decodeAudioData *)
    Settle 0 ok;                          (* A: getFile *)
    Settle 0 ok;                          (* A: timer *)
    Settle 0 ok ].                        (* A: play *)

(** [play(A)] reaches its decoding, then [play(B)] is called and runs to
    its end; the decoding of [A] ends last. *)
Definition slowDecodeRace : list Event :=
  [ Play (track "a.wav") true;
    Settle 0 ok; Settle 0 ok; Settle 0 ok; Settle 0 ok; Settle 0 ok;
    Play (track "b.wav") true;
    Settle 1 ok; Settle 1 ok; Settle 1 ok; Settle 1 ok; Settle 1 ok;
    Settle 1 (Resolved (Some bufferB));
    Settle 0 (Resolved (Some bufferA)) ].

End Sample.

(** * Further components *)

(** ** Paths and names *)

Module Path.

(** [s.split(c)] for a separator of one unit *)
Fixpoint splitOn (c : ascii) (s : string) : list string :=
  match s with
  | EmptyString => [EmptyString]
  | String d s' =>
      if Ascii.eqb d c then EmptyString :: splitOn c s'
      else match splitOn c s' with
           | h :: t => String d h :: t
           | [] => [String d EmptyString]
           end
  end.

(** [l.join(c)] *)
Fixpoint join (c : ascii) (l : list string) : string :=
  match l with
  | [] => EmptyString
  | [x] => x
  | x :: l' => (x ++ String c (join c l'))%string
  end.

Fixpoint hasUnit (c : ascii) (s : string) : bool :=
  match s with
  | EmptyString => false
  | String d s' => Ascii.eqb d c || hasUnit c s'
  end.

(** The number of units [c] in [s]: for the slash, how deep the path
    [s] lies. *)
Fixpoint countUnit (c : ascii) (s : string) : nat :=
  match s with
  | EmptyString => 0
  | String d s' => (if Ascii.eqb d c then 1 else 0) + countUnit c s'
  end.

(** [s.endsWith(suffix)] *)
Definition endsWith (s suffix : JS.str) : bool := JS.startsWith (rev s) (rev suffix).

(** The test of [scanDirectory] and [handleLegacyInput] on a file name. *)
Definition isAudioName (fileName : string) : bool :=
  let name := JS.toLowerCase (JS.of_string fileName) in
  existsb (fun ext => endsWith name (JS.of_string ext))
    [".wav"; ".mp3"; ".aif"; ".aiff"; ".flac"; ".ogg"; ".m4a"; ".aac"]%string.

(** [getMimeType] *)
Definition getMimeType (fileName : string) (fileType : option string) : string :=
  let byExtension :=
    let ext := string_of_list_ascii
                 (JS.toLowerCase (JS.of_string (List.last (splitOn "."%char fileName) ""%string))) in
    if String.eqb ext "wav" then "audio/wav"
    else if String.eqb ext "mp3" then "audio/mpeg"
    else if String.eqb ext "aif" then "audio/aiff"
    else if String.eqb ext "aiff" then "audio/aiff"
    else if String.eqb ext "flac" then "audio/flac"
    else if String.eqb ext "ogg" then "audio/ogg"
    else if String.eqb ext "m4a" then "audio/mp4"
    else if String.eqb ext "aac" then "audio/aac"
    else "audio/wav" in
  match fileType with
  | Some t =>
      if negb (String.eqb t "") && Nat.ltb 5 (String.length t)
         && JS.startsWith (JS.of_string t) (JS.of_string "audio/")
      then t else byExtension
  | None => byExtension
  end%string.

(** [navigateUp]: the new [currentPath] *)
Definition navigateUp (currentPath : string) : string :=
  if String.eqb currentPath "root" then currentPath
  else
    let parts := splitOn "/"%char currentPath in
    if Nat.eqb (length parts) 1 then "root"%string
    else join "/"%char (removelast parts).

End Path.

(** ** Scanning a directory ([scanDirectory]) *)

Module Scanner.

(** What [getFile()] gives for a file of the host. *)
Record FileInfo := mkInfo {
  f_size : Q;
  f_type : string;
  f_lastModified : Q;
}.

(** The host's directory tree.  A file whose [getFile()] throws has no
    info.  [yields] bounds the enumeration of a directory: [Some n] when
    [handle.values()] throws after it has yielded [n] entries. *)
Inductive Entry :=
| EFile (ename : string) (info : option FileInfo)
| EDir (ename : string) (entries : list Entry) (yields : option nat).

Definition fullPath (path name : string) : string :=
  if String.eqb path "" then name else (path ++ "/" ++ name)%string.

(** What one turn of the [for await] loop does with [items]. *)
Inductive Step :=
| Skip
| Push (item : FileSystemItem)
| Throw.

Definition spend (budget : option nat) : option nat :=
  match budget with
  | Some n => Some (Nat.pred n)
  | None => None
  end.

Definition exhausted (budget : option nat) : bool :=
  match budget with
  | Some O => true
  | _ => false
  end.

Fixpoint scanEntry (path : string) (entry : Entry) : Step :=
  match entry with
  | EFile ename info =>
      if Path.isAudioName ename then
        match info with
        | Some i =>
            Push (mkItem (fullPath path ename) ename file true true []
                    (Some (f_size i)) (Some (f_lastModified i)) (Some (f_type i)))
        | None => Throw
        end
      else Skip
  | EDir ename entries yields =>
      let full := fullPath path ename in
      Push (mkItem full ename directory false true
              ((fix scan (budget : option nat) (es : list Entry) : list FileSystemItem :=
                  if exhausted budget then []
                  else match es with
                       | [] => []
                       | e :: es' =>
                           match scanEntry full e with
                           | Skip => scan (spend budget) es'
                           | Push item => item :: scan (spend budget) es'
                           | Throw => []
                           end
                       end) yields entries)
              None None None)
  end.

(** The loop of [scanDirectory] over the entries of one directory; what
    has been pushed when an exception ends the loop is kept. *)
Fixpoint scanLoop (path : string) (budget : option nat) (es : list Entry)
    : list FileSystemItem :=
  if exhausted budget then []
  else match es with
       | [] => []
       | e :: es' =>
           match scanEntry path e with
           | Skip => scanLoop path (spend budget) es'
           | Push item => item :: scanLoop path (spend budget) es'
           | Throw => []
           end
       end.

(** [scanDirectory(handle, path)] for the handle of a directory *)
Definition scanDirectory (entries : list Entry) (yields : option nat) (path : string)
    : list FileSystemItem :=
  scanLoop path yields entries.

(** The names of the host tree are non-empty, hold no slash, and differ
    between the entries of one directory. *)
Fixpoint wellNamed (entry : Entry) : Prop :=
  match entry with
  | EFile ename _ => ename <> ""%string /\ Path.hasUnit "/"%char ename = false
  | EDir ename entries _ =>
      ename <> ""%string /\ Path.hasUnit "/"%char ename = false
      /\ (fix each (es : list Entry) : Prop :=
            match es with
            | [] => True
            | e :: es' => wellNamed e /\ each es'
            end) entries
  end.

Definition entryName (entry : Entry) : string :=
  match entry with
  | EFile ename _ => ename
  | EDir ename _ _ => ename
  end.

(** All the directories below have entries of distinct names. *)
Fixpoint distinctNames (entry : Entry) : Prop :=
  match entry with
  | EFile _ _ => True
  | EDir _ entries _ =>
      NoDup (map entryName entries)
      /\ (fix each (es : list Entry) : Prop :=
            match es with
            | [] => True
            | e :: es' => distinctNames e /\ each es'
            end) entries
  end.

(** The files below [entry] that [getFile()] opens: for each one the path
    of the directory it lies in, its name, and what [getFile()] gives. *)
Fixpoint hostFiles (path : string) (entry : Entry) : list (string * string * FileInfo) :=
  match entry with
  | EFile ename (Some i) => [(path, ename, i)]
  | EFile _ None => []
  | EDir ename entries _ =>
      (fix each (es : list Entry) : list (string * string * FileInfo) :=
         match es with
         | [] => []
         | e :: es' => hostFiles (fullPath path ename) e ++ each es'
         end) entries
  end.

(** Nothing throws below [entry]: every enumeration runs to its end and
    every audio file opens. *)
Fixpoint healthy (entry : Entry) : Prop :=
  match entry with
  | EFile ename info => Path.isAudioName ename = true -> info <> None
  | EDir _ entries yields =>
      yields = None
      /\ (fix each (es : list Entry) : Prop :=
            match es with
            | [] => True
            | e :: es' => healthy e /\ each es'
            end) entries
  end.

(** [i] is [full] or lies below it. *)
Definition under (full i : string) : Prop :=
  i = full \/ exists r, i = (full ++ String "/" r)%string.

End Scanner.

(** Every node of a tree, a node before its descendants: the order in
    which [findInTree] visits them. *)
Fixpoint nodesOf (item : FileSystemItem) : list FileSystemItem :=
  match item with
  | mkItem _ _ _ _ _ cs _ _ _ =>
      item :: (fix each (items : list FileSystemItem) : list FileSystemItem :=
                 match items with
                 | [] => []
                 | c :: items' => nodesOf c ++ each items'
                 end) cs
  end.

(** ** The folder shown ([findInTree], [currentFolderItems]) *)

Module Folder.

Fixpoint findInNode (node : FileSystemItem) (i : string) : option FileSystemItem :=
  match node with
  | mkItem nid _ _ _ _ cs _ _ _ =>
      if String.eqb nid i then Some node
      else (fix findInTree (nodes : list FileSystemItem) : option FileSystemItem :=
              match nodes with
              | [] => None
              | n :: nodes' =>
                  match findInNode n i with
                  | Some found => Some found
                  | None => findInTree nodes'
                  end
              end) cs
  end.

Fixpoint findInTree (nodes : list FileSystemItem) (i : string) : option FileSystemItem :=
  match nodes with
  | [] => None
  | n :: nodes' =>
      match findInNode n i with
      | Some found => Some found
      | None => findInTree nodes' i
      end
  end.

(** The one element of [explorerItems] after a scan. *)
Definition rootItem (rootName : string) (items : list FileSystemItem) : FileSystemItem :=
  mkItem "root" rootName directory false false items None None None.

Definition currentFolderItems (explorerItems : list FileSystemItem) (currentPath : string)
    : list FileSystemItem :=
  match explorerItems with
  | [] => []
  | root :: _ =>
      if String.eqb currentPath "root" then children root
      else match findInTree explorerItems currentPath with
           | Some node => children node
           | None => []
           end
  end.

End Folder.

(** ** The explorer: expansion and the window of rendered rows
       (FileExplorer.tsx) *)

Module Explorer.

(** The parents pushed by the effect on [activeId]: ["folder"],
    ["folder/sub"], ... *)
Definition parentsOf (activeId : string) : list string :=
  let parts := Path.splitOn "/"%char activeId in
  map (fun i => Path.join "/"%char (firstn i parts)) (seq 1 (length parts - 1)).

(** The effect that expands the parents of the active entry. *)
Definition autoExpand (activeId : option string) (prev : gset string) : gset string :=
  match activeId with
  | None => prev
  | Some a =>
      if String.eqb a "" then prev
      else
        let parents := parentsOf a in
        if (0 <? length parents)%nat then prev ∪ list_to_set parents else prev
  end.

Definition toggleFolder (i : string) (prev : gset string) : gset string :=
  if bool_decide (i ∈ prev) then prev ∖ {[i]} else prev ∪ {[i]}.

Definition ROW_HEIGHT : Q := 34.

(** [l.slice(start, end)]: a negative index counts from the end. *)
Definition slice {A : Type} (l : list A) (start end_ : Z) : list A :=
  let len := Z.of_nat (length l) in
  let k := if (start <? 0)%Z then Z.max (len + start) 0 else Z.min start len in
  let e := if (end_ <? 0)%Z then Z.max (len + end_) 0 else Z.min end_ len in
  firstn (Z.to_nat (e - k)) (skipn (Z.to_nat k) l).

Definition startIndex (scrollTop : Q) : Z :=
  Z.max 0 (Qfloor (scrollTop / ROW_HEIGHT) - 10).

Definition endIndex (len : nat) (scrollTop viewportHeight : Q) : Z :=
  Z.min (Z.of_nat len) (Qfloor ((scrollTop + viewportHeight) / ROW_HEIGHT) + 10).

Definition visibleItems {A : Type} (flattenedList : list A) (scrollTop viewportHeight : Q)
    : list A :=
  slice flattenedList (startIndex scrollTop)
    (endIndex (length flattenedList) scrollTop viewportHeight).

(** The [top] of the [idx]-th rendered row *)
Definition rowTop (scrollTop : Q) (idx : nat) : Q :=
  inject_Z (startIndex scrollTop + Z.of_nat idx) * ROW_HEIGHT.

(** [flattenedList.findIndex(item => item.id === activeId)], counted
    from [i] *)
Fixpoint findIndexFrom (i : Z) (rows : list Row) (activeId : string) : Z :=
  match rows with
  | [] => (-1)%Z
  | r :: rows' =>
      if String.eqb (id (row_item r)) activeId then i
      else findIndexFrom (i + 1)%Z rows' activeId
  end.

(** The effect that centres the active row: the [top] it hands to
    [scrollTo], if it calls it ([containerRef.current] taken to be set). *)
Definition centreScroll (activeId : option string) (flattenedList : list Row)
    (viewportHeight : Q) : option Q :=
  match activeId with
  | None => None
  | Some a =>
      if negb (String.eqb a "") && (0 <? length flattenedList)%nat then
        let index := findIndexFrom 0 flattenedList a in
        if negb (index =? -1)%Z then
          let targetScroll :=
            (inject_Z index * ROW_HEIGHT - viewportHeight / 2 + ROW_HEIGHT / 2)%Q in
          Some (Num.max 0 targetScroll)
        else None
      else None
  end.

(** The handlers of the five stars of a row whose rating is
    [currentRating]: the rating each one hands to [onRate]. *)
Definition starRatings (currentRating : Q) : list Q :=
  map (fun star : Z =>
         if Qeq_bool currentRating (inject_Z star) then inject_Z (star - 1)
         else inject_Z star)
    [1; 2; 3; 4; 5]%Z.

End Explorer.

(** ** Numbers as the engine computes them

    A JavaScript number is a double: every arithmetic operation gives
    the double nearest to its exact result, the one with the even
    significand when two are as near.  [Double.round] is this rounding
    on the rationals, with the gradual underflow of the doubles; it leaves
    out the overflow, so that it is the rounding of the engine for the
    results below [2 ^ 1024] in magnitude.  The functions below that are
    read with it write it at each operation whose result is rounded;
    comparisons, [Math.min], [Math.max] and [%] are exact. *)

Module Double.
#[local] Open Scope Q_scope.

(** [floor (log2 q)] for [0 < q] *)
Definition ilog2 (q : Q) : Z :=
  let e := (Z.log2 (Qnum q) - Z.log2 (Zpos (Qden q)))%Z in
  if Qle_bool (2 ^ e) q then e else (e - 1)%Z.

(** The integer nearest to [q], the even one of two that are as near. *)
Definition nearestEven (q : Q) : Z :=
  let f := Qfloor q in
  match (q - inject_Z f ?= 1 # 2)%Q with
  | Lt => f
  | Gt => (f + 1)%Z
  | Eq => if Z.even f then f else (f + 1)%Z
  end.

(** The exponent of the last place of the double nearest to [q]: the
    significand has 53 bits, and no exponent lies below -1074. *)
Definition ulpExp (q : Q) : Z := Z.max (ilog2 (Qabs q) - 52) (-1074).

Definition round (q : Q) : Q :=
  if Qeq_bool q 0 then 0
  else inject_Z (nearestEven (q / 2 ^ ulpExp q)) * 2 ^ ulpExp q.

End Double.

(** ** Sliders, gradient, sort order and move shortcuts (App.tsx) *)

Module Controls.

(** [Math.min] *)
Definition mathMin (x y : Q) : Q := if Qle_bool x y then x else y.

(** [Math.max(0, Math.min(1, num / den))].  A non-zero number over zero
    is an infinity, which the clamp turns into 0 or 1; [0 / 0] is [NaN],
    which the clamp keeps: [None]. *)
Definition unitShare (num den : Q) : option Q :=
  if Qeq_bool den 0 then
    if Qeq_bool num 0 then None
    else Some (if Qle_bool 0 num then 1 else 0)%Q
  else Some (Num.max 0 (mathMin 1 (num / den)))%Q.

(** [Math.max(0, Math.min(1, (clientX - rect.left) / rect.width))] as
    the engine computes it: the difference and the quotient are rounded.
    A non-zero number over zero is an infinity, which the clamp turns
    into 0 or 1; [0 / 0] is [NaN], which the clamp keeps: [None]. *)
Definition pct (left width clientX : Q) : option Q :=
  let num := Double.round (clientX - left) in
  if Qeq_bool width 0 then
    if Qeq_bool num 0 then None
    else Some (if Qle_bool 0 num then 1 else 0)%Q
  else Some (Num.max 0 (mathMin 1 (Double.round (num / width))))%Q.

(** [update] of [DualRangeSlider]: the pair handed to [onChange], [None]
    when the value computed is [NaN].  [left] and [width] are those of
    the bounding rectangle of the track.  [val] is
    [min + pct * (max - min)], each operation rounded. *)
Definition update (min max valMin valMax : Q) (left width clientX : Q) (isMin : bool)
    : option (Q * Q) :=
  match pct left width clientX with
  | None => None
  | Some pct =>
      let val := Double.round (min + Double.round (pct * Double.round (max - min))) in
      Some (if isMin then (mathMin val valMax, valMax)
            else (valMin, Num.max val valMin))
  end.

(** The value that [update] computes at the right end of the track,
    where [pct] is 1. *)
Definition top (min max : Q) : Q :=
  Double.round (min + Double.round (max - min)).

(** [Math.floor(Math.random() * 360)] for the draw [r] *)
Definition hue (r : Q) : Z := Qfloor (r * 360).

(** The [do ... while (true)] of [randomizeGradient] on the draws that
    [Math.random()] delivers; [None] when they are used up before the
    loop breaks. *)
Fixpoint secondHue (h1 : Z) (draws : list Q) : option Z :=
  match draws with
  | [] => None
  | r :: draws' =>
      let h2 := hue r in
      let diff := Z.abs (h1 - h2) in
      let diff := if (180 <? diff)%Z then (360 - diff)%Z else diff in
      if (60 <=? diff)%Z then Some h2 else secondHue h1 draws'
  end.

(** [randomizeGradient]: the pair handed to [setGradientHues] *)
Definition randomizeGradient (draws : list Q) : option (Z * Z) :=
  match draws with
  | [] => None
  | r :: draws' =>
      match secondHue (hue r) draws' with
      | Some h2 => Some (hue r, h2)
      | None => None
      end
  end.

#[local] Instance SortKey_eq_dec : EqDecision SortKey.
Proof. solve_decision. Defined.

(** [handleSortClick] on the pair of [sortKey] and [sortOrder] *)
Definition handleSortClick (key : SortKey) (state : SortKey * SortOrder)
    : SortKey * SortOrder :=
  let (sortKey, sortOrder) := state in
  if bool_decide (sortKey = key)
  then (sortKey, match sortOrder with asc => desc | desc => asc end)
  else (key, asc).

Record MoveShortcut := mkShortcut {
  key : string;
  targetPath : string;
}.

Definition SHORTCUT_KEY_SEQUENCE : list string :=
  ["z"; "x"; "c"; "v"; "b"; "n"; "m"]%string.

Definition addMoveShortcut (availableFolders : list FileSystemItem)
    (moveShortcuts : list MoveShortcut) : list MoveShortcut :=
  let nextIndex := length moveShortcuts in
  match nth_error SHORTCUT_KEY_SEQUENCE nextIndex with
  | None => moveShortcuts
  | Some nextKey =>
      moveShortcuts
        ++ [mkShortcut nextKey
              (match availableFolders with
               | f :: _ => id f
               | [] => ""%string
               end)]
  end.

Definition updateShortcutTarget (k targetPath' : string)
    (moveShortcuts : list MoveShortcut) : list MoveShortcut :=
  map (fun s => if String.eqb (key s) k then mkShortcut (key s) targetPath' else s)
    moveShortcuts.

Definition removeShortcut (k : string) (moveShortcuts : list MoveShortcut)
    : list MoveShortcut :=
  List.filter (fun s => negb (String.eqb (key s) k)) moveShortcuts.

(** What the user does to the shortcuts. *)
Inductive ShortcutOp :=
| Add (availableFolders : list FileSystemItem)
| Retarget (k targetPath' : string)
| Remove (k : string).

Definition applyOp (moveShortcuts : list MoveShortcut) (op : ShortcutOp)
    : list MoveShortcut :=
  match op with
  | Add folders => addMoveShortcut folders moveShortcuts
  | Retarget k t => updateShortcutTarget k t moveShortcuts
  | Remove k => removeShortcut k moveShortcuts
  end.

(** The folder a key press moves the selection to, if any ([e.key] in
    lower case is [pressed]). *)
Definition shortcutFolder (pressed : string) (moveShortcuts : list MoveShortcut)
    (availableFolders : list FileSystemItem) : option FileSystemItem :=
  match List.find (fun s => String.eqb (key s) pressed) moveShortcuts with
  | Some matchedShortcut =>
      List.find (fun f => String.eqb (id f) (targetPath matchedShortcut)) availableFolders
  | None => None
  end.

(** [handleRate]: the new [ratings], which is also what is stored. *)
Definition handleRate (i : string) (rating : Q) (prev : gmap string Q) : gmap string Q :=
  <[i := rating]> prev.

(** What a key press sets off. *)
Inductive Action :=
| Rate (i : string) (rating : Q)
| TogglePanel
| TogglePlayback
| PlayNext
| PlayPrev
| BatchMove (folder : FileSystemItem).

(** [parseInt(e.key)] for the keys of [['0', '1', '2', '3', '4', '5']] *)
Definition ratingKey (k : string) : option Q :=
  if String.eqb k "0" then Some 0%Q
  else if String.eqb k "1" then Some 1%Q
  else if String.eqb k "2" then Some 2%Q
  else if String.eqb k "3" then Some 3%Q
  else if String.eqb k "4" then Some 4%Q
  else if String.eqb k "5" then Some 5%Q
  else None.

(** [handleKeyDown] for the key [k] ([e.key]): the actions it sets off,
    in order.  [inField] tells that the focus is in an input or a select,
    [audioPresent] that [audioRef.current] is set. *)
Definition handleKeyDown (inField isStarted isLoading audioPresent : bool)
    (activeFileId : option string) (moveShortcuts : list MoveShortcut)
    (availableFolders : list FileSystemItem) (k : string) : list Action :=
  if inField then []
  else if negb isStarted || isLoading then []
  else
    let rated :=
      match ratingKey k, activeFileId with
      | Some rating, Some a => if String.eqb a "" then None else Some (Rate a rating)
      | _, _ => None
      end in
    match rated with
    | Some action => [action]
    | None =>
        (if String.eqb k "s" || String.eqb k "Enter" then [TogglePanel] else [])
        ++ (if String.eqb k " " && audioPresent then [TogglePlayback] else [])
        ++ (if String.eqb k "ArrowRight" then [PlayNext] else [])
        ++ (if String.eqb k "ArrowLeft" then [PlayPrev] else [])
        ++ match shortcutFolder
                   (string_of_list_ascii (JS.toLowerCase (JS.of_string k)))
                   moveShortcuts availableFolders with
           | Some folder => [BatchMove folder]
           | None => []
           end
    end.

(** What the user does to the ratings: a click on the [n]-th star of the
    row of [i], or a key pressed while [i] is the active file. *)
Inductive RatingEvent :=
| StarClick (i : string) (n : nat)
| KeyPress (i : string) (k : string).

Definition rate (ratings : gmap string Q) (ev : RatingEvent) : gmap string Q :=
  match ev with
  | StarClick i n =>
      match nth_error (Explorer.starRatings (Num.orZero (ratings !! i))) n with
      | Some rating => handleRate i rating ratings
      | None => ratings
      end
  | KeyPress i k =>
      match ratingKey k with
      | Some rating => handleRate i rating ratings
      | None => ratings
      end
  end.

(** [exportFiles('txt')]: the notice when there is nothing to export,
    the content of the blob otherwise. *)
Definition exportFilesTxt (filteredFiles : list FileSystemItem) : string + string :=
  if (length filteredFiles =? 0)%nat then inl "NO FILES TO EXPORT"%string
  else inr (Path.join "010"%char (map name filteredFiles)).

End Controls.

(** ** The waveform view (WaveformVisualizer.tsx) *)

Module Waveform.

(** [(data[j] >= 0 && data[j - 1] < 0) || (data[j] < 0 && data[j - 1] >= 0)] *)
Definition crossing (prev cur : Q) : bool :=
  (Qle_bool 0 cur && Num.ltb prev 0) || (Num.ltb cur 0 && Qle_bool 0 prev).

(** The crossings counted inside one block. *)
Fixpoint crossings (block : list Q) : nat :=
  match block with
  | prev :: rest =>
      match rest with
      | cur :: _ => (if crossing prev cur then 1 else 0) + crossings rest
      | [] => 0
      end
  | [] => 0
  end.

(** [calculateColors]: the hue of each segment; [None] is [NaN], the
    value of [0 / 0]. *)
Definition calculateColors (data points : list Q) : list (option Q) :=
  let numPoints := length points in
  let samplesPerPoint := (length data / numPoints)%nat in
  map (fun i =>
         let start := (i * samplesPerPoint)%nat in
         let end_ := Nat.min (start + samplesPerPoint) (length data) in
         let block := firstn (end_ - start) (skipn start data) in
         if (end_ - start =? 0)%nat then None
         else
           let zcr := (inject_Z (Z.of_nat (crossings block))
                       / inject_Z (Z.of_nat (end_ - start)))%Q in
           Some (Controls.mathMin 280 (zcr * 800)))
    (seq 0 numPoints).

(** [handleCanvasClick]: the value assigned to [audio.currentTime];
    [None] when nothing is assigned: the duration is not positive, or the
    value is [NaN], which the assignment rejects. *)
Definition handleCanvasClick (duration : Q) (left width clientX : Q) : option Q :=
  if Qle_bool duration 0 then None
  else
    match Controls.unitShare (clientX - left) width with
    | Some percentage => Some (percentage * duration)%Q
    | None => None
    end.

(** [x % m] on numbers: the quotient is cut towards zero. *)
Definition truncate (q : Q) : Z := if Qle_bool 0 q then Qfloor q else Qceiling q.

Definition jsRem (x m : Q) : Q := (x - m * inject_Z (truncate (x / m)))%Q.

(** [while (diff > 180) diff -= 360], at most [fuel] turns *)
Fixpoint wrapDown (fuel : nat) (diff : Q) : Q :=
  match fuel with
  | O => diff
  | S fuel' =>
      if Num.ltb 180 diff then wrapDown fuel' (Double.round (diff - 360)) else diff
  end.

(** [while (diff < -180) diff += 360], at most [fuel] turns *)
Fixpoint wrapUp (fuel : nat) (diff : Q) : Q :=
  match fuel with
  | O => diff
  | S fuel' =>
      if Num.ltb diff (-180) then wrapUp fuel' (Double.round (diff + 360)) else diff
  end.

(** [lerpHue], each of its loops run for at most [fuel] turns, each
    operation rounded *)
Definition lerpHue (fuel : nat) (current target speed : Q) : Q :=
  let diff := wrapUp fuel (wrapDown fuel (Double.round (target - current))) in
  jsRem (Double.round (Double.round (current + Double.round (diff * speed)) + 360)) 360.

End Waveform.

(** ** The folder picked through the file input ([handleLegacyInput]) *)

Module Legacy.

(** A [File] of the input's list. *)
Record LegacyFile := mkLegacy {
  l_name : string;
  webkitRelativePath : string;
  l_size : Q;
  l_type : string;
}.

(** The item pushed for a file: it has no handle and no parent handle,
    carries [_file], and gets no [lastModified]. *)
Definition fileItem (f : LegacyFile) : FileSystemItem :=
  mkItem (if String.eqb (webkitRelativePath f) "" then l_name f else webkitRelativePath f)
    (l_name f) file false false [] (Some (l_size f)) None (Some (l_type f)).

(** [item.name === folderName && item.kind === 'directory'] *)
Definition isFolderNamed (folderName : string) (item : FileSystemItem) : bool :=
  String.eqb (name item) folderName
  && match kind item with directory => true | file => false end.

(** What a push to [folder.children] makes of [folder]. *)
Definition withChildren (folder : FileSystemItem) (cs : list FileSystemItem)
    : FileSystemItem :=
  mkItem (id folder) (name folder) (kind folder) (viaHandle folder) (hasParent folder)
    cs (size folder) (lastModified folder) (type folder).

(** The first entry that [p] accepts, replaced by its image under [f]:
    the array after the object that [find] returned has been mutated. *)
Fixpoint updateFirst (p : FileSystemItem -> bool) (f : FileSystemItem -> FileSystemItem)
    (l : list FileSystemItem) : list FileSystemItem :=
  match l with
  | [] => []
  | x :: l' => if p x then f x :: l' else x :: updateFirst p f l'
  end.

(** The inner loop on [j] and the push of the file that follows it:
    [seen] is [pathParts.slice(0, j)], [folders] the parts from [j] to
    the last but one, [currentLevel] the array the loop has reached. *)
Fixpoint place (seen folders : list string) (item : FileSystemItem)
    (currentLevel : list FileSystemItem) : list FileSystemItem :=
  match folders with
  | [] => currentLevel ++ [item]
  | folderName :: rest =>
      let seen' := seen ++ [folderName] in
      if existsb (isFolderNamed folderName) currentLevel then
        updateFirst (isFolderNamed folderName)
          (fun folder => withChildren folder (place seen' rest item (children folder)))
          currentLevel
      else
        currentLevel
          ++ [mkItem (Path.join "/" seen') folderName directory false false
                (place seen' rest item []) None None None]
  end.

(** One turn of the loop over the files: the children of the root and
    [fileList] afterwards. *)
Definition addFile (acc : list FileSystemItem * list FileSystemItem) (f : LegacyFile)
    : list FileSystemItem * list FileSystemItem :=
  if Path.isAudioName (l_name f) then
    let pathParts := Path.splitOn "/" (webkitRelativePath f) in
    let folders := removelast (tl pathParts) in
    (place (firstn 1 pathParts) folders (fileItem f) (fst acc), snd acc ++ [fileItem f])
  else acc.

(** [handleLegacyInput]: the root handed to [setExplorerItems] and the
    list handed to [setAllFiles]; [None] when the input holds no file
    and nothing is set. *)
Definition handleLegacyInput (files : list LegacyFile)
    : option (FileSystemItem * list FileSystemItem) :=
  if (length files =? 0)%nat then None
  else
    let (rootChildren, fileList) := fold_left addFile files ([], []) in
    Some (mkItem "root" "UPLOADED FOLDER" directory false false rootChildren
            None None None,
          fileList).

(** [node] lies in the folder of path [seen]: a file there has an id
    whose parts are [seen] and one more, a directory has the id of its
    path and holds entries that lie in it. *)
Fixpoint rooted (seen : list string) (node : FileSystemItem) : Prop :=
  match node with
  | mkItem nid nname k _ _ cs _ _ _ =>
      match k with
      | file => cs = [] /\ exists last, Path.splitOn "/" nid = seen ++ [last]
      | directory =>
          nid = Path.join "/" (seen ++ [nname])
          /\ (fix each (items : list FileSystemItem) : Prop :=
                match items with
                | [] => True
                | c :: items' => rooted (seen ++ [nname]) c /\ each items'
                end) cs
      end
  end.

End Legacy.

Module SampleHost.

Definition info (bytes : Q) : option Scanner.FileInfo :=
  Some (Scanner.mkInfo bytes "" 50).

(** A library with a nested folder, a text file and an upper-case
    extension. *)
Definition library : list Scanner.Entry :=
  [Scanner.EDir "drums"
     [Scanner.EFile "kick.wav" (info 1000);
      Scanner.EFile "notes.txt" (info 10);
      Scanner.EDir "808" [Scanner.EFile "snare.MP3" (info 2000)] None]
     None;
   Scanner.EFile "intro.flac" (info 3000)].

(** What the file input delivers for a folder [Kit]. *)
Definition upload : list Legacy.LegacyFile :=
  [Legacy.mkLegacy "kick.wav" "Kit/drums/kick.wav" 1000 "audio/wav";
   Legacy.mkLegacy "readme.txt" "Kit/readme.txt" 10 "text/plain";
   Legacy.mkLegacy "snare.wav" "Kit/drums/snare.wav" 2000 "audio/wav";
   Legacy.mkLegacy "pad.flac" "Kit/pad.flac" 3000 ""].

End SampleHost.

(** * Properties *)

(** ** Smart search *)

Section SearchFacts.
Import JS Search.
Variable engine : str -> str -> str -> option bool.

Lemma includes_nil (s : str) : includes s [] = true.
Proof. destruct s; reflexivity. Qed.

Lemma matchTerm_nil (text : str) : matchTerm engine text [] = true.
Proof. unfold matchTerm. simpl. apply includes_nil. Qed.

(** Splitting and reading words agree on what [every] sees. *)
Lemma forallb_split_words (text : str) (s cur : str) (inWs : bool) :
  (inWs = true -> cur = []) ->
  forallb (matchTerm engine text) (splitWsFrom cur inWs s)
  = forallb (matchTerm engine text) (wordsFrom cur s).
Proof.
  revert cur inWs. induction s as [|c s IH]; intros cur inWs Hinv; simpl.
  - destruct cur; simpl; [now rewrite matchTerm_nil|reflexivity].
  - destruct (isSpace c).
    + destruct inWs.
      * rewrite (Hinv eq_refl). simpl. now apply IH.
      * destruct cur as [|d cur']; simpl.
        -- rewrite matchTerm_nil. simpl. now apply IH.
        -- f_equal. now apply IH.
    + apply IH. discriminate.
Qed.

Lemma words_trimStart (s : str) : wordsFrom [] (trimStart s) = wordsFrom [] s.
Proof.
  induction s as [|c s IH]; simpl; [reflexivity|].
  destruct (isSpace c) eqn:E; simpl; [exact IH|]. now rewrite E.
Qed.

Lemma words_trimEnd (s cur : str) : wordsFrom cur (trimEnd s) = wordsFrom cur s.
Proof.
  revert cur. induction s as [|c s IH]; intros cur; simpl; [reflexivity|].
  destruct (isSpace c) eqn:E; simpl.
  - destruct (isEmpty (trimEnd s)) eqn:E2; simpl.
    + destruct (trimEnd s) eqn:E3; [|discriminate].
      specialize (IH []). simpl in IH. rewrite <- IH.
      destruct cur; reflexivity.
    + rewrite E. destruct (isEmpty cur); now rewrite IH.
  - rewrite E. apply IH.
Qed.

Lemma words_trim (s : str) : wordsFrom [] (trim s) = wordsFrom [] s.
Proof. unfold trim. now rewrite words_trimStart, words_trimEnd. Qed.

Lemma matchSmartSearchL_words (text query : str) :
  matchSmartSearchL engine text query
  = forallb (matchTerm engine text) (wordsFrom [] query).
Proof.
  unfold matchSmartSearchL. rewrite <- (words_trim query).
  destruct (trim query) as [|c t] eqn:E; [reflexivity|].
  simpl isEmpty. cbv iota. unfold splitWs. apply forallb_split_words. discriminate.
Qed.

Lemma words_app_space (a b cur : str) :
  wordsFrom cur (a ++ " "%char :: b) = wordsFrom cur a ++ wordsFrom [] b.
Proof.
  revert cur. induction a as [|c a IH]; intros cur; simpl.
  - destruct cur; reflexivity.
  - destruct (isSpace c); [destruct (isEmpty cur)|]; simpl; now rewrite IH.
Qed.

Lemma of_string_app (s t : string) :
  of_string (s ++ t) = of_string s ++ of_string t.
Proof.
  induction s as [|c s IH]; simpl; [reflexivity|].
  unfold of_string in *. simpl. now rewrite IH.
Qed.

Lemma words_blank (s : str) :
  forallb isSpace s = true -> wordsFrom [] s = [].
Proof.
  induction s as [|c s IH]; simpl; [reflexivity|].
  intros H. apply andb_true_iff in H as [H1 H2]. rewrite H1. simpl. auto.
Qed.

Lemma search_join (text q1 q2 : string) :
  matchSmartSearch engine text (q1 ++ " " ++ q2)
  = matchSmartSearch engine text q1 && matchSmartSearch engine text q2.
Proof.
  unfold matchSmartSearch. rewrite !matchSmartSearchL_words.
  rewrite !of_string_app. change (of_string " ") with [" "%char]. simpl app.
  rewrite words_app_space. apply forallb_app.
Qed.


Lemma search_blank (text q : string) :
  forallb isSpace (of_string q) = true -> matchSmartSearch engine text q = true.
Proof.
  intros H. unfold matchSmartSearch. rewrite matchSmartSearchL_words.
  now rewrite words_blank.
Qed.

Lemma lastIndexOfFrom_absent (c : ascii) (s : str) (i : Z) :
  ~ In c s -> lastIndexOfFrom i c s = (-1)%Z.
Proof.
  revert i. induction s as [|d s IH]; intros i Hn; simpl; [reflexivity|].
  rewrite IH by (intros H; apply Hn; now right). simpl.
  destruct (Ascii.eqb_spec d c) as [->|]; [|reflexivity].
  exfalso. apply Hn. now left.
Qed.

Lemma lastIndexOfFrom_last (c : ascii) (a f : str) (i : Z) :
  (0 <= i)%Z -> ~ In c f ->
  lastIndexOfFrom i c (a ++ c :: f) = (i + Z.of_nat (length a))%Z.
Proof.
  revert i. induction a as [|d a IH]; intros i Hi Hn; simpl.
  - rewrite lastIndexOfFrom_absent by assumption. simpl.
    rewrite Ascii.eqb_refl. lia.
  - rewrite IH by (assumption || lia).
    destruct (Z.leb_spec 0 (i + 1 + Z.of_nat (length a))); lia.
Qed.

Lemma lastIndexOfFrom_spec (c : ascii) (s : str) (i : Z) :
  (0 <= i)%Z ->
  (~ In c s /\ lastIndexOfFrom i c s = (-1)%Z)
  \/ exists a f, s = a ++ c :: f /\ ~ In c f
                 /\ lastIndexOfFrom i c s = (i + Z.of_nat (length a))%Z.
Proof.
  revert i. induction s as [|d s IH]; intros i Hi.
  - left. split; [intros []|reflexivity].
  - destruct (IH (i + 1)%Z ltac:(lia)) as [[Hn E]|(a & f & -> & Hf & E)].
    + destruct (Ascii.eqb_spec d c) as [->|Hd].
      * right. exists [], s. repeat split; [assumption|].
        simpl. rewrite E, Ascii.eqb_refl. simpl. lia.
      * left. split; [intros [H|H]; [now apply Hd|now apply Hn]|].
        simpl. rewrite E. simpl. now destruct (Ascii.eqb_spec d c).
    + right. exists (d :: a), f. repeat split; [assumption|].
      simpl lastIndexOfFrom. rewrite E.
      destruct (Z.leb_spec 0 (i + 1 + Z.of_nat (length a))); simpl length; lia.
Qed.

Lemma startsWith_char (c : ascii) (s : str) :
  startsWith s [c] = match s with d :: _ => Ascii.eqb c d | [] => false end.
Proof. destruct s as [|d [|e s]]; simpl; rewrite ?andb_true_r; reflexivity. Qed.

Lemma toLowerCase_isEmpty (s : str) : isEmpty (toLowerCase s) = isEmpty s.
Proof. now destruct s. Qed.

(** An exclusion term. *)
Lemma matchTerm_exclusion (text rest : str) :
  matchTerm engine text ("-"%char :: rest)
  = isEmpty rest || negb (includes (toLowerCase text) (toLowerCase rest)).
Proof.
  unfold matchTerm. rewrite startsWith_char, Ascii.eqb_refl.
  change (substringFrom 1 ("-"%char :: rest)) with rest.
  rewrite toLowerCase_isEmpty. now destruct (isEmpty rest).
Qed.

(** A term [/pattern/flags], the flags holding no slash. *)
Lemma matchTerm_regex (text pattern flags : str) :
  ~ In "/"%char flags ->
  matchTerm engine text ("/"%char :: pattern ++ "/"%char :: flags)
  = match engine pattern (if isEmpty flags then ["i"%char] else flags) text with
    | Some b => b
    | None => includes (toLowerCase text)
                (toLowerCase ("/"%char :: pattern ++ "/"%char :: flags))
    end.
Proof.
  intros Hf. unfold matchTerm.
  assert (E : lastIndexOf ("/"%char :: pattern ++ "/"%char :: flags) "/"%char
              = Z.of_nat (S (length pattern))).
  { unfold lastIndexOf.
    change ("/"%char :: pattern ++ "/"%char :: flags)
      with (("/"%char :: pattern) ++ "/"%char :: flags).
    rewrite lastIndexOfFrom_last by (assumption || lia). simpl length. lia. }
  rewrite E, !startsWith_char. change (Ascii.eqb "-" "/") with false.
  rewrite Ascii.eqb_refl. cbv iota. simpl andb.
  replace (0 <? Z.of_nat (S (length pattern)))%Z with true by (symmetry; apply Z.ltb_lt; lia).
  cbv iota.
  assert (Ep : substring 1 (Z.of_nat (S (length pattern)))
                 ("/"%char :: pattern ++ "/"%char :: flags) = pattern).
  { unfold substring.
    replace (Z.to_nat (Z.of_nat (S (length pattern)) - 1)) with (length pattern) by lia.
    change (Z.to_nat 1) with 1%nat.
    change (skipn 1 ("/"%char :: pattern ++ "/"%char :: flags))
      with (pattern ++ "/"%char :: flags).
    apply take_app_length. }
  assert (Efl : substringFrom (Z.of_nat (S (length pattern)) + 1)
                 ("/"%char :: pattern ++ "/"%char :: flags) = flags).
  { unfold substringFrom.
    replace (Z.to_nat (Z.of_nat (S (length pattern)) + 1))
      with (S (length pattern + 1)) by lia.
    change (skipn (S (length pattern + 1)) ("/"%char :: pattern ++ "/"%char :: flags))
      with (skipn (length pattern + 1) (pattern ++ "/"%char :: flags)).
    rewrite <- drop_drop, drop_app_length. reflexivity. }
  rewrite Ep, Efl. reflexivity.
Qed.

(** Every other term. *)
Lemma matchTerm_plain (text term : str) :
  (forall rest, term <> "-"%char :: rest) ->
  (forall pattern flags, term <> "/"%char :: pattern ++ "/"%char :: flags) ->
  matchTerm engine text term = includes (toLowerCase text) (toLowerCase term).
Proof.
  intros Hd Hr. unfold matchTerm. rewrite !startsWith_char.
  destruct term as [|c term]; [reflexivity|].
  destruct (Ascii.eqb_spec "-"%char c) as [<-|_]; [now destruct (Hd term)|].
  destruct (Ascii.eqb_spec "/"%char c) as [<-|_]; [|reflexivity].
  simpl andb.
  destruct (Z.ltb_spec 0 (lastIndexOf ("/"%char :: term) "/"%char)) as [Hpos|]; [|reflexivity].
  exfalso. unfold lastIndexOf in Hpos.
  destruct (lastIndexOfFrom_spec "/"%char ("/"%char :: term) 0 ltac:(lia))
    as [[_ E]|(a & f & Ea & _ & E)]; [lia|].
  rewrite E in Hpos. destruct a as [|d a]; [simpl in Hpos; lia|].
  injection Ea as <- ->. now apply (Hr a f).
Qed.

(** C7.  A query made of two queries joined by a space matches a text
    exactly when both queries match it, whatever the queries are; a
    query that is empty or made of spaces only matches every text. *)
Theorem search_and_semantics (text : string) :
  (forall q1 q2 : string,
      Search.matchSmartSearch engine text (q1 ++ " " ++ q2)
      = Search.matchSmartSearch engine text q1
        && Search.matchSmartSearch engine text q2)
  /\ (forall q : string,
         forallb isSpace (of_string q) = true ->
         Search.matchSmartSearch engine text q = true).
Proof.
  split; [intros q1 q2; apply search_join | intros q; apply search_blank].
Qed.

(** What [startsWith] and [includes] decide. *)
Lemma startsWith_prefix (s p : str) :
  startsWith s p = true <-> exists post, s = p ++ post.
Proof.
  revert s. induction p as [|a p IH]; intros s.
  - split; [intros _; now exists s|intros _; now destruct s].
  - destruct s as [|b s]; simpl.
    + split; [discriminate|intros [post E]; discriminate].
    + rewrite andb_true_iff, IH. split.
      * intros [E [post ->]]. apply Ascii.eqb_eq in E as ->. now exists post.
      * intros [post E]. injection E as -> ->.
        split; [apply Ascii.eqb_refl|now exists post].
Qed.

Lemma includes_factor (s sub : str) :
  includes s sub = true <-> exists pre post, s = pre ++ sub ++ post.
Proof.
  induction s as [|c s IH].
  - cbn [includes]. rewrite orb_false_r, startsWith_prefix. split.
    + intros [post E]. now exists [], post.
    + intros (pre & post & E). destruct pre; [now exists post|discriminate].
  - cbn [includes]. rewrite orb_true_iff, startsWith_prefix, IH. split.
    + intros [[post E]|(pre & post & ->)];
        [now exists [], post|now exists (c :: pre), post].
    + intros (pre & post & E). destruct pre as [|d pre]; [left; now exists post|].
      right. injection E as -> ->. now exists pre, post.
Qed.

(** A term [/lit/flags] or [/^lit/flags] whose pattern holds no
    character that the expression syntax reads, with no flag or [i]. *)
Lemma matchTerm_literal (text lit flags : str) (anchored : bool) :
  agreesOnLiterals engine ->
  existsb isMeta lit = false ->
  flags = [] \/ flags = ["i"%char] ->
  matchTerm engine text
    ("/"%char :: ((if anchored then ["^"%char] else []) ++ lit) ++ "/"%char :: flags)
  = if anchored then startsWith (toLowerCase text) (toLowerCase lit)
    else includes (toLowerCase text) (toLowerCase lit).
Proof.
  intros Hengine Hlit Hflags.
  assert (E : engine ((if anchored then ["^"%char] else []) ++ lit) ["i"%char] text
              = Some (if anchored then startsWith (toLowerCase text) (toLowerCase lit)
                      else includes (toLowerCase text) (toLowerCase lit))).
  2: { destruct Hflags as [->| ->].
       - rewrite matchTerm_regex by (intros []). cbn [isEmpty]. now rewrite E.
       - rewrite matchTerm_regex by (now intros [|[]]). cbn [isEmpty]. now rewrite E. }
  apply Hengine.
  unfold literalEngine. destruct anchored; simpl app.
  - cbn. rewrite Hlit. reflexivity.
  - destruct lit as [|c lit]; [reflexivity|].
    destruct (Ascii.eqb_spec c "^"%char) as [->|_]; [discriminate Hlit|].
    change (if ("i" =? "i")%char then Some true else None) with (Some true).
    cbv iota beta. rewrite Hlit. reflexivity.
Qed.

(** C8.  One term of a query; [toLowerCase] folds the case of both
    sides.  A term [-rest] fails exactly when [rest] is not empty and
    occurs somewhere in the text.  A term [/pattern/flags] (the flags
    being what follows the last slash) is the answer of the regular
    expression [pattern] with these flags, [i] when there are none; when
    the engine rejects it, the term matches exactly when the whole term
    occurs in the text.  With an engine that reads a pattern of literal
    characters as [literalEngine] does, [/lit/] and [/lit/i] match
    exactly when [lit] occurs in the text, [/^lit/] and [/^lit/i] exactly
    when the text starts with [lit].  Any other term matches exactly
    when it occurs in the text.  The four examples of the specification
    follow, and with them an occurrence that is not a prefix, for an
    exclusion, for an expression and for a plain term, and a name whose
    capital letter lies beyond [A-Z]. *)
Theorem search_term_semantics :
  agreesOnLiterals engine ->
  (forall text rest : str,
      matchTerm engine text ("-"%char :: rest) = false
      <-> rest <> []
          /\ exists pre post, toLowerCase text = pre ++ toLowerCase rest ++ post)
  /\ (forall text pattern flags : str,
         ~ In "/"%char flags ->
         match engine pattern (if isEmpty flags then ["i"%char] else flags) text with
         | Some b => matchTerm engine text ("/"%char :: pattern ++ "/"%char :: flags) = b
         | None =>
             matchTerm engine text ("/"%char :: pattern ++ "/"%char :: flags) = true
             <-> exists pre post,
                   toLowerCase text
                   = pre ++ toLowerCase ("/"%char :: pattern ++ "/"%char :: flags) ++ post
         end)
  /\ (forall text lit flags : str,
         existsb isMeta lit = false ->
         flags = [] \/ flags = ["i"%char] ->
         (matchTerm engine text ("/"%char :: lit ++ "/"%char :: flags) = true
          <-> exists pre post, toLowerCase text = pre ++ toLowerCase lit ++ post)
         /\ (matchTerm engine text ("/"%char :: "^"%char :: lit ++ "/"%char :: flags) = true
             <-> exists post, toLowerCase text = toLowerCase lit ++ post))
  /\ (forall text term : str,
         (forall rest, term <> "-"%char :: rest) ->
         (forall pattern flags, term <> "/"%char :: pattern ++ "/"%char :: flags) ->
         matchTerm engine text term = true
         <-> exists pre post, toLowerCase text = pre ++ toLowerCase term ++ post)
  /\ Search.matchSmartSearch engine "drum_loop.wav" "-kick" = true
  /\ Search.matchSmartSearch engine "kick_drum.wav" "-kick" = false
  /\ Search.matchSmartSearch engine "Snare_Top.wav" "/^snare/i" = true
  /\ Search.matchSmartSearch engine "Top_Snare.wav" "/^snare/i" = false
  /\ Search.matchSmartSearch engine "drum_kick.wav" "-kick" = false
  /\ Search.matchSmartSearch engine "Top_Snare.wav" "/snare/" = true
  /\ Search.matchSmartSearch engine "Top_Snare.wav" "snare" = true
  /\ Search.matchSmartSearch engine "Top_Snare.wav" "SNARE.W" = true
  /\ Search.matchSmartSearch engine Sample.cafeName Sample.cafeQuery = true
  /\ Search.matchSmartSearch engine Sample.cafeName Sample.cafeExpression = true.
Proof.
  intros Hengine.
  split; [|split; [|split; [|split]]].
  - intros text rest. rewrite matchTerm_exclusion, orb_false_iff, negb_false_iff.
    rewrite includes_factor. destruct rest; simpl isEmpty; split.
    + intros [H _]. discriminate H.
    + intros [H _]. now destruct H.
    + intros [_ H]. split; [discriminate|exact H].
    + intros [_ H]. split; [reflexivity|exact H].
  - intros text pattern flags Hf. rewrite (matchTerm_regex text pattern flags Hf).
    destruct (engine pattern (if isEmpty flags then ["i"%char] else flags) text);
      [reflexivity|apply includes_factor].
  - intros text lit flags Hlit Hflags. split.
    + pose proof (matchTerm_literal text lit flags false Hengine Hlit Hflags) as E.
      simpl app in E. rewrite E. apply includes_factor.
    + pose proof (matchTerm_literal text lit flags true Hengine Hlit Hflags) as E.
      simpl app in E. rewrite E. apply startsWith_prefix.
  - intros text term Hd Hr. rewrite (matchTerm_plain text term Hd Hr).
    apply includes_factor.
  - assert (Hi : forall (pattern text : string) (b : bool),
               literalEngine (of_string pattern) ["i"%char] (of_string text) = Some b ->
               engine (of_string pattern) ["i"%char] (of_string text) = Some b)
      by (intros pattern text b; apply Hengine).
    split; [reflexivity|]. split; [reflexivity|].
    split; [pose proof (Hi "^snare" "Snare_Top.wav" true eq_refl) as H;
            cbv in H; cbv; now rewrite H|].
    split; [pose proof (Hi "^snare" "Top_Snare.wav" false eq_refl) as H;
            cbv in H; cbv; now rewrite H|].
    split; [reflexivity|].
    split; [pose proof (Hi "snare" "Top_Snare.wav" true eq_refl) as H;
            cbv in H; cbv; now rewrite H|].
    split; [reflexivity|]. split; [reflexivity|]. split; [reflexivity|].
    pose proof (Hi Sample.cafeQuery Sample.cafeName true eq_refl) as H.
    cbv in H. cbv. now rewrite H.
Qed.

End SearchFacts.

Lemma search_and_semantics_witness :
  Search.matchSmartSearch Search.literalEngine "kick_drum.wav" "   " = true.
Proof.
  apply (proj2 (search_and_semantics Search.literalEngine "kick_drum.wav")).
  reflexivity.
Defined.

Lemma search_term_semantics_witness :
  Search.agreesOnLiterals Search.literalEngine
  /\ Search.matchSmartSearch Search.literalEngine "Snare_Top.wav" "/^snare/i" = true
  /\ Search.matchSmartSearch Search.literalEngine "Top_Snare.wav" "/^snare/i" = false
  /\ Search.matchSmartSearch Search.literalEngine "Top_Snare.wav" "/snare/" = true
  /\ Search.matchSmartSearch Search.literalEngine Sample.cafeName Sample.cafeQuery = true.
Proof.
  assert (H : Search.agreesOnLiterals Search.literalEngine)
    by (intros p f t b E; exact E).
  split; [exact H|].
  split; [apply (search_term_semantics Search.literalEngine H)|].
  split; [apply (search_term_semantics Search.literalEngine H)|].
  split; apply (search_term_semantics Search.literalEngine H).
Defined.

(** ** Playback *)

Section PlaybackFacts.
Import Playback Sample.

Lemma findIndexFrom_range (files : list FileSystemItem) (a : option string) (i : Z) :
  findIndexFrom i files a = (-1)%Z
  \/ (i <= findIndexFrom i files a < i + Z.of_nat (length files))%Z.
Proof.
  revert i. induction files as [|f files IH]; intros i; simpl; [now left|].
  case_bool_decide; [right; lia|].
  destruct (IH (i + 1)%Z) as [E|E]; [now left|right; lia].
Qed.

Lemma findIndex_range (files : list FileSystemItem) (a : option string) :
  (-1 <= findIndex files a < Z.of_nat (length files))%Z.
Proof.
  unfold findIndex. destruct (findIndexFrom_range files a 0) as [E|E].
  - rewrite E. destruct files; simpl length; lia.
  - lia.
Qed.

Lemma find_none_findIndex (files : list FileSystemItem) (a : option string) (i : Z) :
  (0 <= i)%Z ->
  findIndexFrom i files a = (-1)%Z ->
  List.find (fun f => bool_decide (Some (id f) = a)) files = None.
Proof.
  revert i. induction files as [|f files IH]; intros i Hi; simpl; [reflexivity|].
  case_bool_decide; [lia|]. apply IH. lia.
Qed.

Lemma find_some_findIndex (files : list FileSystemItem) (a : option string) (i : Z) :
  findIndexFrom i files a <> (-1)%Z ->
  exists f, files !! Z.to_nat (findIndexFrom i files a - i) = Some f
            /\ List.find (fun f => bool_decide (Some (id f) = a)) files = Some f.
Proof.
  revert i. induction files as [|f files IH]; intros i; simpl; [easy|].
  case_bool_decide.
  - intros _. exists f. now rewrite Z.sub_diag.
  - intros Hr. destruct (IH (i + 1)%Z Hr) as (g & Hg & Hfind).
    exists g. split; [|exact Hfind].
    destruct (findIndexFrom_range files a (i + 1)) as [E|E]; [contradiction|].
    replace (Z.to_nat (findIndexFrom (i + 1) files a - i))
      with (S (Z.to_nat (findIndexFrom (i + 1) files a - (i + 1)))) by lia.
    exact Hg.
Qed.

Lemma at_index_lookup (files : list FileSystemItem) (i : Z) :
  (0 <= i < Z.of_nat (length files))%Z ->
  exists f, files !! Z.to_nat i = Some f /\ at_index files i = Some f.
Proof.
  intros Hi. unfold at_index.
  destruct (Z.ltb_spec i 0); [lia|].
  destruct (lookup_lt_is_Some_2 files (Z.to_nat i)) as [f Hf]; [lia|].
  exists f. now rewrite Hf.
Qed.

Lemma rem_next (cur len : Z) :
  (0 < len)%Z -> (-1 <= cur < len)%Z -> JS.rem (cur + 1) len = ((cur + 1) mod len)%Z.
Proof. intros H0 H. unfold JS.rem. apply Z.rem_mod_nonneg; lia. Qed.

Lemma rem_prev (cur len : Z) :
  (0 < len)%Z -> (-1 <= cur < len)%Z ->
  JS.rem (cur - 1 + len) len = ((cur - 1 + len) mod len)%Z.
Proof.
  intros H0 H. unfold JS.rem.
  destruct (Z.eq_dec (cur - 1 + len)%Z (-1)%Z) as [E|E].
  - assert (len = 1%Z) by lia. subst len. rewrite E. reflexivity.
  - apply Z.rem_mod_nonneg; lia.
Qed.

(** C9 (as amended).  Shuffle off, a non-empty filtered list of length
    [len], [cur] the position of the active entry ([-1] when it is not in
    the list).  Unless the call is the unforced advance of a looping
    player whose active entry is in the list, advance starts the entry at
    position [(cur + 1) mod len]; in that case it starts the active entry
    again.  Retreat always starts the entry at position
    [(cur - 1 + len) mod len].  All these positions exist. *)
Theorem advance_retreat_index (forceNext : bool) (files : list FileSystemItem)
    (random : Q) (w : World) :
  files <> [] ->
  isRandom (settings w) = false ->
  let len := Z.of_nat (length files) in
  let cur := findIndex files (activeFileId (shared w)) in
  (forceNext = true \/ isLooping (settings w) = false \/ cur = (-1)%Z ->
   exists f, files !! Z.to_nat ((cur + 1) mod len) = Some f
             /\ playNext forceNext files random w
                = playFile f (if forceNext then isPlaying (shared w) else true) w)
  /\ (forceNext = false -> isLooping (settings w) = true -> cur <> (-1)%Z ->
      exists f, files !! Z.to_nat cur = Some f
                /\ playNext forceNext files random w = playFile f true w)
  /\ (exists f, files !! Z.to_nat ((cur - 1 + len) mod len) = Some f
                /\ playPrev files random w = playFile f (isPlaying (shared w)) w).
Proof.
  intros Hne Hrand len cur.
  assert (Hlen : (0 < len)%Z) by (subst len; destruct files; [contradiction|simpl length; lia]).
  assert (Hcur : (-1 <= cur < len)%Z) by apply findIndex_range.
  assert (Hl0 : (length files =? 0)%nat = false)
    by (destruct files; [contradiction|reflexivity]).
  split; [|split].
  - intros Hbranch.
    destruct (at_index_lookup files ((cur + 1) mod len)) as (f & Hf & Hat).
    { apply Z.mod_pos_bound. lia. }
    exists f. split; [exact Hf|].
    unfold playNext. rewrite Hl0, Hrand.
    fold len. fold cur. rewrite rem_next by assumption. rewrite Hat.
    destruct Hbranch as [-> | [-> | Hm1]].
    + reflexivity.
    + now rewrite andb_false_r.
    + rewrite (find_none_findIndex files _ 0 ltac:(lia) Hm1).
      now destruct (negb forceNext && isLooping (settings w)).
  - intros -> Hloop Hfound.
    destruct (find_some_findIndex files (activeFileId (shared w)) 0 Hfound)
      as (f & Hf & Hfind).
    exists f. split; [now rewrite Z.sub_0_r in Hf|].
    unfold playNext. now rewrite Hl0, Hloop, Hfind.
  - destruct (at_index_lookup files ((cur - 1 + len) mod len)) as (f & Hf & Hat).
    { apply Z.mod_pos_bound. lia. }
    exists f. split; [exact Hf|].
    unfold playPrev. rewrite Hl0, Hrand.
    fold len. fold cur. rewrite rem_prev by assumption. now rewrite Hat.
Qed.


(** C10.  On an empty filtered list, advance and retreat leave the whole
    state as it is, whatever the toggles and whatever the random draw
    would be: no call of [playFile] is made, the request counter, the
    active entry, the playing flag and the waveform are unchanged. *)
Theorem empty_list_no_navigation (forceNext : bool) (random : Q) (w : World) :
  playNext forceNext [] random w = w /\ playPrev [] random w = w.
Proof. split; reflexivity. Qed.


(** A call of [playFile] that is no longer the latest never writes the
    waveform, at whichever of its suspensions it resumes. *)
Lemma stale_never_commits_waveform (t : Task) (r : Settled) (s : Shared) :
  current t s = false ->
  waveformData (snd (resume t r s)) = waveformData s.
Proof.
  intros Hst. unfold resume, catchBlock, firstCheck, withFile, firstCheck.
  destruct (t_pc t), r as [b|[|]]; simpl;
    repeat match goal with
      | |- context [current ?t ?s] =>
          change (current t s) with (t_requestId t =? playRequestCount s)%Z;
          simpl playRequestCount
      | |- context [if ?c then _ else _] => destruct c eqn:?
      end; simpl; try reflexivity; try (unfold current in Hst; simpl in *; congruence).
Qed.

(** The same for the application: whatever settles for a call that is no
    longer the latest, the waveform stays. *)
Lemma settle_stale_keeps_waveform (i : nat) (r : Settled) (w : World) (t : Task) :
  tasks w !! i = Some t ->
  t_requestId t <> playRequestCount (shared w) ->
  waveformData (shared (settle i r w)) = waveformData (shared w).
Proof.
  intros Ht Hst. unfold settle. rewrite Ht.
  pose proof (stale_never_commits_waveform t r (shared w)) as E.
  destruct (resume t r (shared w)) as [t' s']. simpl in *. apply E.
  unfold current. now apply Z.eqb_neq.
Qed.

(** A superseded call that has passed its first check writes nothing of
    what the interface shows. *)
Lemma stale_after_check_is_inert (t : Task) (r : Settled) (s : Shared) :
  current t s = false ->
  t_pc t = AtArrayBuffer \/ t_pc t = AtCtxResume \/ t_pc t = AtDecode ->
  let s' := snd (resume t r s) in
  activeFileId s' = activeFileId s /\ isPlaying s' = isPlaying s
  /\ waveformData s' = waveformData s /\ error s' = error s
  /\ audioSrc s' = audioSrc s /\ playRequestCount s' = playRequestCount s.
Proof.
  intros Hst Hpc. unfold resume, catchBlock.
  destruct Hpc as [-> | [-> | ->]]; destruct r as [b|a]; rewrite ?Hst;
    try destruct (ctxSuspended s); simpl; repeat split; reflexivity.
Qed.

(** C1 (the defect).  [play(A)], then [play(B)], the file of [A] opening
    after [B] has been loaded: both calls have ended, the latest request
    is the one for [B], and yet the active entry is [A], the audio element
    holds the URL made for [A], the URL of [B] is revoked, while the
    waveform shown is the one of [B].  The call for [A] wrote the active
    entry and the playing flag without looking at the request counter. *)
Theorem stale_load_overwrites_active_entry :
  let w := run slowOpenRace (worldAt None false) in
  map t_pc (tasks w) = [Finished; Finished]
  /\ map t_requestId (tasks w) = [1%Z; 2%Z]
  /\ playRequestCount (shared w) = 2%Z
  /\ activeFileId (shared w) = Some "a.wav"%string
  /\ isPlaying (shared w) = true
  /\ audioSrc (shared w) = Some 1%nat
  /\ revoked (shared w) = [0%nat]
  /\ option_map buffer (waveformData (shared w)) = Some bufferB.
Proof. vm_compute. repeat split; reflexivity. Qed.

(** When only the decoding of [A] is slow, the outcome is the one the
    specification describes. *)
Lemma slow_decode_race_ends_on_latest :
  let w := run slowDecodeRace (worldAt None false) in
  map t_pc (tasks w) = [Finished; Finished]
  /\ activeFileId (shared w) = Some "b.wav"%string
  /\ option_map buffer (waveformData (shared w)) = Some bufferB.
Proof. vm_compute. repeat split; reflexivity. Qed.

End PlaybackFacts.

Lemma advance_retreat_index_witness :
  Playback.playNext true Sample.threeTracks 0 (Sample.worldAt (Some "b.wav"%string) false)
  = Playback.playFile (Sample.track "c.wav") false
      (Sample.worldAt (Some "b.wav"%string) false)
  /\ Playback.playNext true Sample.threeTracks 0 (Sample.worldAt (Some "c.wav"%string) false)
     = Playback.playFile (Sample.track "a.wav") false
         (Sample.worldAt (Some "c.wav"%string) false)
  /\ Playback.playPrev Sample.threeTracks 0 (Sample.worldAt (Some "a.wav"%string) false)
     = Playback.playFile (Sample.track "c.wav") false
         (Sample.worldAt (Some "a.wav"%string) false).
Proof.
  assert (Hne : Sample.threeTracks <> []) by discriminate.
  split; [|split].
  - destruct (advance_retreat_index true Sample.threeTracks 0
                (Sample.worldAt (Some "b.wav"%string) false) Hne eq_refl) as [Hn _].
    destruct (Hn (or_introl eq_refl)) as (f & Hf & E).
    vm_compute in Hf. injection Hf as <-. exact E.
  - destruct (advance_retreat_index true Sample.threeTracks 0
                (Sample.worldAt (Some "c.wav"%string) false) Hne eq_refl) as [Hn _].
    destruct (Hn (or_introl eq_refl)) as (f & Hf & E).
    vm_compute in Hf. injection Hf as <-. exact E.
  - destruct (advance_retreat_index true Sample.threeTracks 0
                (Sample.worldAt (Some "a.wav"%string) false) Hne eq_refl) as (_ & _ & Hp).
    destruct Hp as (f & Hf & E).
    vm_compute in Hf. injection Hf as <-. exact E.
Defined.

(** C9 (as stated) fails: with the loop toggle on, the unforced advance
    from position 1 of 3 replays position 1 instead of starting
    position 2. *)
Lemma advance_loop_counterexample :
  let w := Sample.worldAt (Some "b.wav"%string) true in
  Playback.isRandom (Playback.settings w) = false
  /\ Playback.findIndex Sample.threeTracks (Playback.activeFileId (Playback.shared w)) = 1%Z
  /\ Sample.threeTracks !! Z.to_nat ((1 + 1) mod 3) = Some (Sample.track "c.wav")
  /\ Playback.playNext false Sample.threeTracks 0 w
     = Playback.playFile (Sample.track "b.wav") true w
  /\ Playback.playNext false Sample.threeTracks 0 w
     <> Playback.playFile (Sample.track "c.wav") true w.
Proof.
  vm_compute. repeat split; try reflexivity. intros H. discriminate H.
Qed.

(** ** Batch relocation *)

Section BatchFacts.
Import Batch Sample.

Lemma moveOne_fst (io : MoveIO) (source : FileSystemItem) (log : list FsOp) :
  fst (moveOne io source log) = succeeds io.
Proof.
  unfold moveOne, succeeds.
  destruct (readOk io), (handleOk io), (writableOk io), (writeOk io), (closeOk io);
    reflexivity.
Qed.

(** What the move of one file adds to the log when no step throws: the
    file is in the target with its contents, and the original is gone
    unless the item has no parent handle or the removal failed. *)
Lemma moveOne_moved (io : MoveIO) (source : FileSystemItem) (log : list FsOp) :
  succeeds io = true ->
  moveOne io source log
  = (true, log ++ Created (name source) :: Written (name source)
                  :: (if hasParent source && removeOk io
                      then [Removed (name source)] else [])).
Proof.
  unfold moveOne, succeeds.
  destruct (readOk io), (handleOk io), (writableOk io), (writeOk io), (closeOk io);
    try discriminate.
  intros _. simpl. destruct (hasParent source && removeOk io);
    now rewrite <- ?app_assoc.
Qed.

(** What it adds when a step throws: at most the entry created in the
    target, nothing written to it, the original in place. *)
Lemma moveOne_thrown (io : MoveIO) (source : FileSystemItem) (log : list FsOp) :
  succeeds io = false ->
  moveOne io source log
  = (false, log ++ (if readOk io && handleOk io then [Created (name source)] else [])).
Proof.
  unfold moveOne, succeeds.
  destruct (readOk io), (handleOk io), (writableOk io), (writeOk io), (closeOk io);
    try discriminate; intros _; simpl; now rewrite ?app_nil_r.
Qed.

Lemma moveLoop_app (io : string -> MoveIO) (pre rest : list FileSystemItem)
    (n : nat) (log : list FsOp) :
  moveLoop io (pre ++ rest) n log
  = let '(ok, n', log') := moveLoop io pre n log in
    if ok then moveLoop io rest n' log' else (false, n', log').
Proof.
  revert n log. induction pre as [|x pre IH]; intros n log; simpl.
  - now destruct (moveLoop io rest n log) as [[[] ?] ?].
  - destruct (kind x); [|apply IH].
    destruct (moveOne (io (id x)) x log) as [[] log']; [apply IH|reflexivity].
Qed.

Lemma moveLoop_all_succeed (io : string -> MoveIO) (items : list FileSystemItem)
    (n : nat) (log : list FsOp) :
  Forall (fun f => kind f = file) items ->
  forallb (fun f => succeeds (io (id f))) items = true ->
  moveLoop io items n log
  = (true, (n + length items)%nat,
     log ++ flat_map (fun f => Created (name f) :: Written (name f)
                               :: (if hasParent f && removeOk (io (id f))
                                   then [Removed (name f)] else [])) items).
Proof.
  intros Hk. revert n log. induction Hk as [|x items Hx _ IH]; intros n log Hok.
  - simpl. rewrite app_nil_r. do 2 f_equal. lia.
  - simpl in Hok. apply andb_true_iff in Hok as [H1 H2].
    cbn [moveLoop flat_map]. rewrite Hx, (moveOne_moved _ x log H1).
    rewrite IH by assumption. rewrite <- app_assoc. do 2 f_equal. simpl length. lia.
Qed.

Lemma moveLoop_stops (io : string -> MoveIO) (pre post : list FileSystemItem)
    (x : FileSystemItem) (n : nat) (log : list FsOp) :
  Forall (fun f => kind f = file) pre -> kind x = file ->
  forallb (fun f => succeeds (io (id f))) pre = true ->
  succeeds (io (id x)) = false ->
  moveLoop io (pre ++ x :: post) n log
  = (false, (n + length pre)%nat,
     log ++ flat_map (fun f => Created (name f) :: Written (name f)
                               :: (if hasParent f && removeOk (io (id f))
                                   then [Removed (name f)] else [])) pre
         ++ (if readOk (io (id x)) && handleOk (io (id x))
             then [Created (name x)] else [])).
Proof.
  intros Hk Hx Hok Hfail.
  rewrite moveLoop_app, (moveLoop_all_succeed io pre n log Hk Hok).
  cbn [moveLoop]. rewrite Hx, (moveOne_thrown _ x _ Hfail).
  now rewrite <- app_assoc.
Qed.

(** C2 (as amended).  A batch of files moved to a directory.  When no
    read and no write fails, every file is moved, in the order of the
    batch: it is created in the target, its contents are written, and
    its original is removed, unless it has no parent handle or the
    removal fails, which is swallowed.  The selection is then cleared,
    one rescan is started, and the notice gives the number of files (or
    tells a failure when the rescan itself throws).  When a file fails,
    the batch stops there: the files before it have been moved as above,
    the failing file has at most an entry created in the target, with
    nothing written and its original in place, the files after it are
    not touched, the selection is kept, no rescan is started and the
    notice is [BATCH MOVE FAILED]. *)
Theorem batch_move_outcome (target : FileSystemItem) (io : string -> MoveIO)
    (refreshThrows : bool) (st : State) :
  kind target = directory ->
  itemsToMove st <> [] ->
  Forall (fun f => kind f = file) (itemsToMove st) ->
  let items := itemsToMove st in
  let st' := handleBatchMove target io refreshThrows st in
  let moved := fun f : FileSystemItem =>
                 Created (name f) :: Written (name f)
                 :: (if hasParent f && removeOk (io (id f))
                     then [Removed (name f)] else []) in
  isLoading st' = false
  /\ (forallb (fun f => succeeds (io (id f))) items = true ->
      fsLog st' = fsLog st ++ flat_map moved items
      /\ selectedIds st' = [] /\ rescans st' = S (rescans st)
      /\ error st' = Some (if refreshThrows then BatchMoveFailed
                           else MovedFiles (length items)))
  /\ (forall pre x post,
         items = pre ++ x :: post ->
         forallb (fun f => succeeds (io (id f))) pre = true ->
         succeeds (io (id x)) = false ->
         fsLog st' = fsLog st ++ flat_map moved pre
                     ++ (if readOk (io (id x)) && handleOk (io (id x))
                         then [Created (name x)] else [])
         /\ selectedIds st' = selectedIds st /\ rescans st' = rescans st
         /\ error st' = Some BatchMoveFailed
         /\ fst (moveLoop io items 0 (fsLog st)) = (false, length pre)).
Proof.
  intros Ht Hne Hk items st' moved.
  assert (Hl : (length items =? 0)%nat = false)
    by (subst items; destruct (itemsToMove st); [contradiction|reflexivity]).
  subst st'. unfold handleBatchMove. fold items. rewrite Hl, Ht.
  split; [|split].
  - now destruct (moveLoop io items 0 (fsLog st)) as [[[] ?] ?].
  - intros Hok. rewrite (moveLoop_all_succeed io items 0 (fsLog st) Hk Hok).
    repeat split.
  - intros pre x post Hitems Hok Hfail.
    assert (Hk' : Forall (fun f => kind f = file) (pre ++ x :: post))
      by (rewrite <- Hitems; exact Hk).
    apply Forall_app in Hk' as [Hpre Hx]. apply Forall_cons_iff in Hx as [Hx _].
    rewrite Hitems, (moveLoop_stops io pre post x 0 (fsLog st) Hpre Hx Hok Hfail).
    repeat split.
Qed.
End BatchFacts.

Lemma batch_move_outcome_witness :
  let st' := Batch.handleBatchMove (Sample.folder "dest") (fun _ => Sample.allGood)
               false Sample.threeSelected in
  Batch.error st' = Some (Batch.MovedFiles 3)
  /\ Batch.selectedIds st' = []
  /\ Batch.rescans st' = 1%nat
  /\ Batch.fsLog st'
     = [Batch.Created "a.wav"; Batch.Written "a.wav"; Batch.Removed "a.wav";
        Batch.Created "b.wav"; Batch.Written "b.wav"; Batch.Removed "b.wav";
        Batch.Created "c.wav"; Batch.Written "c.wav"; Batch.Removed "c.wav"]%string.
Proof.
  assert (Hne : Batch.itemsToMove Sample.threeSelected <> []) by discriminate.
  assert (Hk : Forall (fun f => kind f = file) (Batch.itemsToMove Sample.threeSelected))
    by (repeat constructor).
  destruct (batch_move_outcome (Sample.folder "dest") (fun _ => Sample.allGood) false
              Sample.threeSelected eq_refl Hne Hk) as (_ & Hok & _).
  destruct (Hok eq_refl) as (Hlog & Hsel & Hres & Herr).
  split; [exact Herr|split; [exact Hsel|split; [exact Hres|exact Hlog]]].
Defined.

(** C2 (as stated) fails: of three selected files the second cannot be
    read.  The notice is [BATCH MOVE FAILED], not a count of two; the
    third file is never attempted; no rescan is started and the selection
    is kept. *)
Lemma batch_move_counterexample :
  let st' := Batch.handleBatchMove (Sample.folder "dest") Sample.secondUnreadable false
               Sample.threeSelected in
  Batch.error st' = Some Batch.BatchMoveFailed
  /\ Batch.error st' <> Some (Batch.MovedFiles 2)
  /\ Batch.rescans st' = 0%nat
  /\ Batch.selectedIds st' = ["a.wav"; "b.wav"; "c.wav"]%string
  /\ Batch.fsLog st'
     = [Batch.Created "a.wav"; Batch.Written "a.wav"; Batch.Removed "a.wav"]%string.
Proof.
  vm_compute. repeat split; try reflexivity. intros H. discriminate H.
Qed.

(** ** Enrichment and rescan *)

Section LibraryFacts.
Import Library.






Lemma ltb_lt (x y : Q) : Num.ltb x y = true <-> (x < y)%Q.
Proof.
  unfold Num.ltb. rewrite negb_true_iff. split.
  - intros H. apply Qnot_le_lt. intros Hle. apply Qle_bool_iff in Hle. congruence.
  - intros H. destruct (Qle_bool y x) eqn:E; [|reflexivity].
    apply Qle_bool_iff in E. exfalso. exact (Qlt_not_le _ _ H E).
Qed.

Lemma ltb_ge (x y : Q) : Num.ltb x y = false <-> (y <= x)%Q.
Proof.
  unfold Num.ltb. rewrite negb_false_iff. apply Qle_bool_iff.
Qed.

Lemma max_l (x y : Q) : (x <= Num.max x y)%Q.
Proof.
  unfold Num.max. destruct (Qle_bool x y) eqn:E; [now apply Qle_bool_iff|apply Qle_refl].
Qed.

Lemma max_r (x y : Q) : (y <= Num.max x y)%Q.
Proof.
  unfold Num.max. destruct (Qle_bool x y) eqn:E; [apply Qle_refl|].
  apply Qlt_le_weak, Qnot_le_lt. intros H. apply Qle_bool_iff in H. congruence.
Qed.

Lemma ceil_ge (x : Q) : (x <= Num.ceil x)%Q.
Proof. apply Qle_ceiling. Qed.

(** One turn of the loop, seen from the duration bound. *)
Lemma enrichItem_bound (env : Env) (cap : Q) (k : nat) (f : FileSystemItem)
    (drained : bool) (loc : Locals) (st : State) :
  (cap <= lastMaxDuration loc)%Q ->
  (cap <= durationMax st)%Q ->
  let '(loc', st') := enrichItem env cap k f drained loc st in
  (durationMax st <= durationMax st')%Q
  /\ (lastMaxDuration loc <= lastMaxDuration loc')%Q
  /\ (forall d, measured env (id f) = Some d -> (d <= lastMaxDuration loc')%Q)
  /\ (drained = true -> (lastMaxDuration loc' <= durationMax st')%Q).
Proof.
  intros HcL HcM. unfold enrichItem.
  set (loc1 := match probe env (id f) with
               | Duration duration => record_ (id f) duration loc
               | OpenFailed => loc
               end).
  assert (H1 : (lastMaxDuration loc <= lastMaxDuration loc1)%Q
               /\ forall d, measured env (id f) = Some d -> (d <= lastMaxDuration loc1)%Q).
  { subst loc1. unfold measured, record_.
    destruct (probe env (id f)) as [|d]; [split; [apply Qle_refl|discriminate]|].
    destruct (Num.ltb 0 d) eqn:Hpos; [|split; [apply Qle_refl|discriminate]].
    simpl. destruct (Num.ltb (lastMaxDuration loc) d) eqn:Hlt.
    - apply ltb_lt in Hlt. split.
      + apply Qle_trans with d; [now apply Qlt_le_weak|apply ceil_ge].
      + intros d' [= <-]. apply ceil_ge.
    - apply ltb_ge in Hlt. split; [apply Qle_refl|]. now intros d' [= <-]. }
  destruct H1 as [HL Hd].
  destruct ((20 <=? batchSize loc1)%nat
            || Num.ltb 500 (now env k - lastBatchTime loc1) && (0 <? batchSize loc1)%nat
            || drained) eqn:Hc.
  - unfold flush, durationMax. simpl.
    destruct (Num.ltb cap (lastMaxDuration loc1)) eqn:Hlt; simpl.
    + repeat split; try assumption; [apply max_l|intros _; apply max_r].
    + apply ltb_ge in Hlt. repeat split; try assumption; [apply Qle_refl|].
      intros _. now apply Qle_trans with cap.
  - repeat split; try assumption; [apply Qle_refl|].
    intros ->. rewrite orb_true_r in Hc. discriminate.
Qed.

Lemma enrichLoop_bound (env : Env) (cap : Q) (queue : list FileSystemItem) :
  forall (k : nat) (loc : Locals) (st : State),
    (cap <= lastMaxDuration loc)%Q ->
    (cap <= durationMax st)%Q ->
    (queue = [] -> (lastMaxDuration loc <= durationMax st)%Q) ->
    let st' := enrichLoop env cap k queue loc st in
    (durationMax st <= durationMax st')%Q
    /\ (lastMaxDuration loc <= durationMax st')%Q
    /\ (forall f d, In f queue -> measured env (id f) = Some d ->
                    (d <= durationMax st')%Q).
Proof.
  induction queue as [|f rest IH]; intros k loc st HcL HcM Hend; simpl.
  - repeat split; [apply Qle_refl|now apply Hend|intros ? ? []].
  - pose proof (enrichItem_bound env cap k f (length rest =? 0)%nat loc
                  (setQueue rest true st) HcL HcM) as E.
    destruct (enrichItem env cap k f (length rest =? 0)%nat loc (setQueue rest true st))
      as [loc' st'].
    destruct E as (EM & EL & Ed & Eend).
    change (durationMax (setQueue rest true st)) with (durationMax st) in EM.
    destruct (IH (S k) loc' st') as (IM & IL & Id).
    + now apply Qle_trans with (lastMaxDuration loc).
    + now apply Qle_trans with (durationMax st).
    + intros ->. now apply Eend.
    + repeat split.
      * now apply Qle_trans with (durationMax st').
      * now apply Qle_trans with (lastMaxDuration loc').
      * intros g d [<-|Hin] Hm.
        -- apply Qle_trans with (lastMaxDuration loc'); [now apply Ed|exact IL].
        -- now apply (Id g d).
Qed.




Lemma enrichItem_nothing_measured (env : Env) (cap : Q) (k : nat) (f : FileSystemItem)
    (drained : bool) (loc : Locals) (st : State) :
  measured env (id f) = None ->
  batchSize loc = 0%nat ->
  let '(loc', st') := enrichItem env cap k f drained loc st in
  batchSize loc' = 0%nat
  /\ dbWrites st' = if drained then S (dbWrites st) else dbWrites st.
Proof.
  intros Hm Hb. unfold enrichItem.
  assert (E : match probe env (id f) with
              | Duration duration => record_ (id f) duration loc
              | OpenFailed => loc
              end = loc).
  { unfold measured in Hm. unfold record_.
    destruct (probe env (id f)) as [|d]; [reflexivity|].
    now destruct (Num.ltb 0 d). }
  rewrite E, Hb. simpl. rewrite andb_false_r. simpl.
  destruct drained; simpl; split; (reflexivity || assumption).
Qed.

(** A pass that measures nothing writes the store once, at the end,
    however the clock runs. *)
Lemma enrichLoop_nothing_measured (env : Env) (cap : Q) (queue : list FileSystemItem) :
  forall (k : nat) (loc : Locals) (st : State),
    Forall (fun f => measured env (id f) = None) queue ->
    batchSize loc = 0%nat ->
    queue <> [] ->
    dbWrites (enrichLoop env cap k queue loc st) = S (dbWrites st).
Proof.
  induction queue as [|f rest IH]; intros k loc st Hall Hb Hne; [contradiction|].
  apply Forall_cons_iff in Hall as [Hf Hall]. simpl.
  pose proof (enrichItem_nothing_measured env cap k f (length rest =? 0)%nat loc
                (setQueue rest true st) Hf Hb) as E.
  destruct (enrichItem env cap k f (length rest =? 0)%nat loc (setQueue rest true st))
    as [loc' st'].
  destruct E as [Hb' Hw]. destruct rest as [|g rest].
  - simpl in *. exact Hw.
  - simpl in Hw. rewrite IH; [|assumption|assumption|discriminate].
    now rewrite Hw.
Qed.
Lemma enrichItem_frame (env : Env) (cap : Q) (k : nat) (f : FileSystemItem)
    (drained : bool) (loc : Locals) (st : State) :
  let '(_, st') := enrichItem env cap k f drained loc st in
  b_size (bounds st') = b_size (bounds st)
  /\ b_date (bounds st') = b_date (bounds st)
  /\ rmin (b_duration (bounds st')) = rmin (b_duration (bounds st)).
Proof.
  unfold enrichItem. destruct (_ || _ || _); [|repeat split].
  unfold flush. simpl. destruct (Num.ltb cap _); repeat split.
Qed.

Lemma enrichLoop_frame (env : Env) (cap : Q) (queue : list FileSystemItem) :
  forall (k : nat) (loc : Locals) (st : State),
    let st' := enrichLoop env cap k queue loc st in
    b_size (bounds st') = b_size (bounds st)
    /\ b_date (bounds st') = b_date (bounds st)
    /\ rmin (b_duration (bounds st')) = rmin (b_duration (bounds st)).
Proof.
  induction queue as [|f rest IH]; intros k loc st; simpl; [repeat split|].
  pose proof (enrichItem_frame env cap k f (length rest =? 0)%nat loc
                (setQueue rest true st)) as E.
  destruct (enrichItem env cap k f (length rest =? 0)%nat loc (setQueue rest true st))
    as [loc' st'].
  destruct (IH (S k) loc' st') as (I1 & I2 & I3). destruct E as (E1 & E2 & E3).
  rewrite I1, I2, I3. repeat split; assumption.
Qed.

Lemma refreshFiles_bounds (items : list FileSystemItem) (dbReadOk : bool) (st : State) :
  let st' := refreshFiles items dbReadOk st in
  (collect items <> [] -> b_duration (bounds st') = mkRange 0 60)
  /\ (collect items = [] -> bounds st' = bounds st).
Proof.
  unfold refreshFiles. destruct (collect items) as [|f files]; simpl.
  - split; [intros H; now destruct H|reflexivity].
  - split; [|discriminate]. intros _. now destruct dbReadOk.
Qed.





(** C3 (as amended).  The enrichment pass never lowers the maximum of
    the duration bound, leaves the other bounds alone, and ends with a
    maximum that is at least every duration it has measured.  A rescan
    that finds at least one file sets the duration bound to [0, 60]
    whatever it was; a rescan that finds none leaves the bounds alone. *)
Theorem duration_bound_evolution (env : Env) (st : State) :
  (forall isStarted : bool,
      let st' := enrichMetadata env isStarted st in
      (durationMax st <= durationMax st')%Q
      /\ b_size (bounds st') = b_size (bounds st)
      /\ b_date (bounds st') = b_date (bounds st)
      /\ rmin (b_duration (bounds st')) = rmin (b_duration (bounds st)))
  /\ (isEnriching st = false ->
      forall f d, In f (metadataQueue st) -> measured env (id f) = Some d ->
                  (d <= durationMax (enrichMetadata env true st))%Q)
  /\ (forall items dbReadOk,
         let st' := refreshFiles items dbReadOk st in
         (collect items <> [] -> b_duration (bounds st') = mkRange 0 60)
         /\ (collect items = [] -> bounds st' = bounds st)).
Proof.
  split; [|split].
  - intros isStarted. unfold enrichMetadata.
    destruct (negb isStarted || (length (metadataQueue st) =? 0)%nat || isEnriching st).
    + repeat split. apply Qle_refl.
    + split; [|apply enrichLoop_frame].
      apply (enrichLoop_bound env (rmax (b_duration (bounds st))) (metadataQueue st) 1
               (mkLocals ∅ 0 (now env 0) (rmax (b_duration (bounds st)))) st);
        [apply Qle_refl|apply Qle_refl|intros _; apply Qle_refl].
  - intros Hidle f d Hin Hm. unfold enrichMetadata. rewrite Hidle.
    destruct (metadataQueue st) as [|g rest] eqn:Eq; [now destruct Hin|].
    simpl orb. cbv iota.
    pose proof (enrichLoop_bound env (rmax (b_duration (bounds st))) (g :: rest) 1
                  (mkLocals ∅ 0 (now env 0) (rmax (b_duration (bounds st)))) st
                  (Qle_refl _) (Qle_refl _) (fun _ => Qle_refl _)) as Hb.
    cbv zeta in Hb. destruct Hb as (_ & _ & Hd). now apply (Hd f d).
  - intros items dbReadOk. apply refreshFiles_bounds.
Qed.

End LibraryFacts.



Lemma duration_bound_evolution_witness :
  (120 <= Library.durationMax
            (Library.enrichMetadata (Sample.everyProbe 120) true
               (Sample.seeded [Sample.track "long.wav"])))%Q.
Proof.
  destruct (duration_bound_evolution (Sample.everyProbe 120)
              (Sample.seeded [Sample.track "long.wav"])) as (_ & Hd & _).
  apply (Hd eq_refl (Sample.track "long.wav") 120%Q); [now left|reflexivity].
Defined.

(** C3 (as stated) fails: a file of 120 seconds is enriched, which raises
    the maximum to 120; a rescan that finds one short file then puts the
    maximum back to 60. *)
Lemma rescan_shrinks_duration_bound :
  let st1 := Library.enrichMetadata (Sample.everyProbe 120) true
               (Sample.seeded [Sample.track "long.wav"]) in
  let st2 := Library.refreshFiles [Sample.track "short.wav"] true st1 in
  Library.durationMax st1 = 120%Q
  /\ Library.durationMax st2 = 60%Q
  /\ ~ (120 <= Library.durationMax st2)%Q.
Proof.
  split; [vm_compute; reflexivity|split; [vm_compute; reflexivity|]].
  intros H. apply Qle_bool_iff in H. vm_compute in H. discriminate H.
Qed.

(** ** Sorting, and the two filtered views *)

Lemma FileSystemItem_tree_ind (P : FileSystemItem -> Prop) :
  (forall i n k v h cs s l t, Forall P cs -> P (mkItem i n k v h cs s l t)) ->
  forall x, P x.
Proof.
  intros H. fix IH 1. intros [i n k v h cs s l t]. apply H.
  induction cs as [|c cs IHcs]; constructor; [apply IH|exact IHcs].
Qed.

Section SortFacts.
Context {A : Type}.
Variable cmp : A -> A -> Z.

Lemma insertSorted_perm (x : A) (l : list A) :
  Permutation (Sort.insertSorted cmp x l) (x :: l).
Proof.
  induction l as [|y l IH]; simpl; [reflexivity|].
  destruct (cmp x y <=? 0)%Z; [reflexivity|].
  rewrite IH. apply perm_swap.
Qed.

Lemma stableSort_perm (l : list A) : Permutation (Sort.stableSort cmp l) l.
Proof.
  induction l as [|x l IH]; simpl; [reflexivity|].
  rewrite insertSorted_perm. now constructor.
Qed.
End SortFacts.

Section StableSortFacts.
Import Sort.
Context {A : Type}.
Variable cmp : A -> A -> Z.
Hypothesis cmp_anti : forall x y, cmp y x = (- cmp x y)%Z.
Hypothesis cmp_trans :
  forall x y z, (cmp x y <= 0)%Z -> (cmp y z <= 0)%Z -> (cmp x z <= 0)%Z.

Lemma insertSorted_sorted (x : A) (l : list A) :
  StronglySorted (before cmp) l -> StronglySorted (before cmp) (Sort.insertSorted cmp x l).
Proof.
  induction 1 as [|y l Hl IH Hy]; simpl.
  - repeat constructor.
  - destruct (Z.leb_spec (cmp x y) 0) as [Hxy|Hxy].
    + constructor; [now constructor|].
      constructor; [exact Hxy|].
      eapply List.Forall_impl; [|exact Hy]. intros z Hz. now apply (cmp_trans x y z).
    + constructor; [exact IH|].
      apply List.Forall_forall. intros z Hz.
      eapply Permutation_in in Hz; [|apply insertSorted_perm].
      destruct Hz as [<-|Hz].
      * unfold before. rewrite cmp_anti. lia.
      * rewrite List.Forall_forall in Hy. now apply Hy.
Qed.

Lemma stableSort_sorted (l : list A) :
  StronglySorted (before cmp) (Sort.stableSort cmp l).
Proof.
  induction l as [|x l IH]; simpl; [constructor|now apply insertSorted_sorted].
Qed.

(** A sorted list is left as it is. *)
Lemma stableSort_fixed (l : list A) :
  StronglySorted (before cmp) l -> Sort.stableSort cmp l = l.
Proof.
  induction 1 as [|x l Hl IH Hx]; simpl; [reflexivity|].
  rewrite IH. destruct l as [|y l]; [reflexivity|]. simpl.
  apply Forall_cons_iff in Hx as [Hxy _].
  now destruct (Z.leb_spec (cmp x y) 0); [|unfold before in Hxy; lia].
Qed.

Lemma stableSort_idempotent (l : list A) :
  Sort.stableSort cmp (Sort.stableSort cmp l) = Sort.stableSort cmp l.
Proof. apply stableSort_fixed, stableSort_sorted. Qed.

Lemma tied_both (z x y : A) :
  tied cmp z x = true -> tied cmp z y = true -> cmp x y = 0%Z.
Proof.
  unfold tied. rewrite !Z.eqb_eq. intros Hx Hy.
  assert (H1 : (cmp x y <= 0)%Z).
  { apply (cmp_trans x z y); [rewrite cmp_anti|]; lia. }
  assert (H2 : (cmp y x <= 0)%Z).
  { apply (cmp_trans y z x); [rewrite cmp_anti|]; lia. }
  rewrite cmp_anti in H2. lia.
Qed.

Lemma insertSorted_ties (z x : A) (l : list A) :
  List.filter (tied cmp z) (Sort.insertSorted cmp x l) = List.filter (tied cmp z) (x :: l).
Proof.
  induction l as [|y l IH]; [reflexivity|].
  simpl Sort.insertSorted.
  destruct (Z.leb_spec (cmp x y) 0) as [Hxy|Hxy]; [reflexivity|].
  change (List.filter (tied cmp z) (y :: Sort.insertSorted cmp x l))
    with (if tied cmp z y then y :: List.filter (tied cmp z) (Sort.insertSorted cmp x l)
          else List.filter (tied cmp z) (Sort.insertSorted cmp x l)).
  rewrite IH. simpl.
  destruct (tied cmp z x) eqn:Hx, (tied cmp z y) eqn:Hy; try reflexivity.
  pose proof (tied_both z x y Hx Hy). lia.
Qed.

(** The entries tied with [z] come out in the order they came in. *)
Lemma stableSort_stable (z : A) (l : list A) :
  List.filter (tied cmp z) (Sort.stableSort cmp l) = List.filter (tied cmp z) l.
Proof.
  induction l as [|x l IH]; [reflexivity|].
  simpl Sort.stableSort. rewrite insertSorted_ties. simpl. now rewrite IH.
Qed.
End StableSortFacts.

Section ReverseFacts.
Import Sort.
Context {A : Type}.
Variables up down : A -> A -> Z.
Hypothesis up_anti : forall x y, up y x = (- up x y)%Z.
Hypothesis up_trans :
  forall x y z, (up x y <= 0)%Z -> (up y z <= 0)%Z -> (up x z <= 0)%Z.
Hypothesis down_up : forall x y, down x y = (- up x y)%Z.

Lemma down_anti (x y : A) : down y x = (- down x y)%Z.
Proof. rewrite !down_up, up_anti. lia. Qed.

Lemma down_trans (x y z : A) :
  (down x y <= 0)%Z -> (down y z <= 0)%Z -> (down x z <= 0)%Z.
Proof.
  rewrite !down_up. intros H1 H2.
  assert (H : (up z x <= 0)%Z).
  { apply (up_trans z y x); rewrite up_anti; lia. }
  rewrite up_anti in H. lia.
Qed.

Lemma sorted_rev (l : list A) :
  StronglySorted (before up) l -> StronglySorted (before down) (rev l).
Proof.
  induction 1 as [|x l Hl IH Hx]; simpl; [constructor|].
  apply StronglySorted_app_2; [|exact IH|repeat constructor].
  intros y x' Hy Hx'. apply list_elem_of_In in Hy, Hx'.
  destruct Hx' as [<-|[]]. apply in_rev in Hy.
  rewrite List.Forall_forall in Hx. specialize (Hx y Hy).
  unfold before in *. rewrite down_up, <- up_anti. exact Hx.
Qed.

(** With keys that tell the entries apart, sorting the other way round
    gives the reversed list. *)
Lemma stableSort_reverse (l : list A) :
  (forall x y, In x l -> In y l -> up x y = 0%Z -> x = y) ->
  Sort.stableSort down l = rev (Sort.stableSort up l).
Proof.
  intros Hdistinct.
  apply (StronglySorted_unique_strong (before down)).
  - intros x y Hx Hy Hxy Hyx. apply list_elem_of_In in Hx, Hy.
    apply Hdistinct.
    + eapply Permutation_in; [apply stableSort_perm|exact Hx].
    + apply in_rev in Hy. eapply Permutation_in; [apply stableSort_perm|exact Hy].
    + unfold before in *. rewrite down_anti in Hyx. rewrite down_up in *. lia.
  - apply stableSort_sorted; [apply down_anti|apply down_trans].
  - apply sorted_rev, stableSort_sorted; assumption.
  - rewrite stableSort_perm, <- Permutation_rev. symmetry. apply stableSort_perm.
Qed.
End ReverseFacts.

Section ComparatorFacts.
Import Sort.

Lemma strLt_asym (s t : JS.str) : strLt s t = true -> strLt t s = false.
Proof.
  revert t. induction s as [|a s IH]; intros [|b t]; simpl; try easy.
  destruct (Nat.ltb_spec (nat_of_ascii a) (nat_of_ascii b)),
           (Nat.ltb_spec (nat_of_ascii b) (nat_of_ascii a));
    try easy; try lia; apply IH.
Qed.

Lemma strLt_negtrans (s t u : JS.str) :
  strLt s u = true -> strLt s t = true \/ strLt t u = true.
Proof.
  revert t u. induction s as [|a s IH]; intros [|b t] [|c u]; simpl; try easy; auto.
  destruct (Nat.ltb_spec (nat_of_ascii a) (nat_of_ascii c)),
           (Nat.ltb_spec (nat_of_ascii c) (nat_of_ascii a)),
           (Nat.ltb_spec (nat_of_ascii a) (nat_of_ascii b)),
           (Nat.ltb_spec (nat_of_ascii b) (nat_of_ascii a)),
           (Nat.ltb_spec (nat_of_ascii b) (nat_of_ascii c)),
           (Nat.ltb_spec (nat_of_ascii c) (nat_of_ascii b));
    try easy; auto; try lia; apply IH.
Qed.

Lemma numLt_asym (p q : Q) : Num.ltb p q = true -> Num.ltb q p = false.
Proof. rewrite ltb_lt, ltb_ge. apply Qlt_le_weak. Qed.

Lemma numLt_negtrans (p q r : Q) :
  Num.ltb p r = true -> Num.ltb p q = true \/ Num.ltb q r = true.
Proof.
  rewrite !ltb_lt. intros H. destruct (Qlt_le_dec p q) as [Hpq|Hqp]; [now left|right].
  now apply Qle_lt_trans with p.
Qed.

Variable sortKey : SortKey.
Variables durations ratings : gmap string Q.

Local Notation "'keyLt'" := (ltKey sortKey durations ratings).

Lemma ltKey_asym (a b : FileSystemItem) :
  keyLt a b = true ->
  keyLt b a = false.
Proof.
  unfold ltKey, sortValue.
  destruct sortKey; simpl; (apply strLt_asym || apply numLt_asym).
Qed.

Lemma ltKey_negtrans (a b c : FileSystemItem) :
  keyLt a c = true -> keyLt a b = true \/ keyLt b c = true.
Proof.
  unfold ltKey, sortValue.
  destruct sortKey; simpl; (apply strLt_negtrans || apply numLt_negtrans).
Qed.

Lemma compareFlat_cases (order : SortOrder) (a b : FileSystemItem) :
  compareFlat sortKey order durations ratings a b
  = if keyLt a b then match order with asc => (-1)%Z | desc => 1%Z end
    else if keyLt b a then match order with asc => 1%Z | desc => (-1)%Z end
    else 0%Z.
Proof. reflexivity. Qed.

Lemma compareFlat_anti (order : SortOrder) (a b : FileSystemItem) :
  compareFlat sortKey order durations ratings b a
  = (- compareFlat sortKey order durations ratings a b)%Z.
Proof.
  rewrite !compareFlat_cases.
  destruct (keyLt a b) eqn:Hab, (keyLt b a) eqn:Hba, order;
    try reflexivity;
    apply ltKey_asym in Hab; congruence.
Qed.

Lemma compareFlat_desc (a b : FileSystemItem) :
  compareFlat sortKey desc durations ratings a b
  = (- compareFlat sortKey asc durations ratings a b)%Z.
Proof.
  rewrite !compareFlat_cases. now destruct (keyLt a b), (keyLt b a).
Qed.

Lemma compareFlat_asc_le (a b : FileSystemItem) :
  (compareFlat sortKey asc durations ratings a b <= 0)%Z <-> keyLt b a = false.
Proof.
  rewrite compareFlat_cases.
  destruct (keyLt a b) eqn:Hab, (keyLt b a) eqn:Hba; split;
    try easy; try lia.
  apply ltKey_asym in Hab. congruence.
Qed.

Lemma compareFlat_trans (order : SortOrder) (a b c : FileSystemItem) :
  (compareFlat sortKey order durations ratings a b <= 0)%Z ->
  (compareFlat sortKey order durations ratings b c <= 0)%Z ->
  (compareFlat sortKey order durations ratings a c <= 0)%Z.
Proof.
  assert (Hasc : forall x y z,
             (compareFlat sortKey asc durations ratings x y <= 0)%Z ->
             (compareFlat sortKey asc durations ratings y z <= 0)%Z ->
             (compareFlat sortKey asc durations ratings x z <= 0)%Z).
  { intros x y z. rewrite !compareFlat_asc_le. intros Hyx Hzy.
    destruct (keyLt z x) eqn:Hzx; [|reflexivity].
    destruct (ltKey_negtrans z y x Hzx); congruence. }
  destruct order; [apply Hasc|].
  rewrite !compareFlat_desc. intros H1 H2.
  assert (H : (compareFlat sortKey asc durations ratings c a <= 0)%Z).
  { apply (Hasc c b a); rewrite compareFlat_anti; lia. }
  rewrite compareFlat_anti in H. lia.
Qed.

(** The comparator of the tree is the comparator of the flat list where
    that one tells two entries apart, and is never zero. *)
Lemma compareTree_off_ties (order : SortOrder) (a b : FileSystemItem) :
  compareFlat sortKey order durations ratings a b <> 0%Z ->
  compareTree sortKey order durations ratings a b
  = compareFlat sortKey order durations ratings a b.
Proof.
  rewrite compareFlat_cases. unfold compareTree. fold (keyLt a b).
  destruct (keyLt a b), (keyLt b a), order; easy.
Qed.

Lemma compareTree_on_ties (order : SortOrder) (a b : FileSystemItem) :
  compareFlat sortKey order durations ratings a b = 0%Z ->
  compareTree sortKey order durations ratings a b
  = match order with asc => 1%Z | desc => (-1)%Z end
  /\ compareTree sortKey order durations ratings b a
     = match order with asc => 1%Z | desc => (-1)%Z end.
Proof.
  rewrite compareFlat_cases. unfold compareTree. fold (keyLt a b). fold (keyLt b a).
  destruct (keyLt a b), (keyLt b a), order; easy.
Qed.

Lemma compareTree_never_zero (order : SortOrder) (a b : FileSystemItem) :
  compareTree sortKey order durations ratings a b <> 0%Z.
Proof. unfold compareTree. now destruct (ltVal _ _), order. Qed.

(** The flat list is stable: the entries tied with [z] keep their order. *)
Lemma sortedFiles_stable (order : SortOrder) (z : FileSystemItem)
    (allFiles : list FileSystemItem) :
  List.filter (tied (compareFlat sortKey order durations ratings) z)
    (sortedFiles sortKey order durations ratings allFiles)
  = List.filter (tied (compareFlat sortKey order durations ratings) z) allFiles.
Proof.
  apply stableSort_stable; [apply compareFlat_anti|apply compareFlat_trans].
Qed.

(** Sorting the sorted flat list again changes nothing. *)
Lemma sortedFiles_idempotent (order : SortOrder) (allFiles : list FileSystemItem) :
  sortedFiles sortKey order durations ratings
    (sortedFiles sortKey order durations ratings allFiles)
  = sortedFiles sortKey order durations ratings allFiles.
Proof.
  apply stableSort_idempotent; [apply compareFlat_anti|apply compareFlat_trans].
Qed.

(** With keys that tell the entries apart, the other order gives the
    reversed flat list. *)
Lemma sortedFiles_reverse (allFiles : list FileSystemItem) :
  (forall x y, In x allFiles -> In y allFiles ->
               compareFlat sortKey asc durations ratings x y = 0%Z -> x = y) ->
  sortedFiles sortKey desc durations ratings allFiles
  = rev (sortedFiles sortKey asc durations ratings allFiles).
Proof.
  apply stableSort_reverse;
    [apply compareFlat_anti|apply compareFlat_trans|apply compareFlat_desc].
Qed.
End ComparatorFacts.

(** C6 (the defect).  Two files of the same size, sorted by size.  The
    comparator of the flat list reports a tie; the comparator of the tree
    reports that the first argument comes after the second, whichever way
    round the two files are given (before it, in descending order), so
    it is not the comparator of the flat list and gives the sort no
    consistent answer on ties. *)
Theorem tree_comparator_reports_no_tie :
  let a := Sample.track "a.wav" in
  let b := Sample.track "b.wav" in
  Sort.compareFlat key_size asc ∅ ∅ a b = 0%Z
  /\ Sort.compareTree key_size asc ∅ ∅ a b = 1%Z
  /\ Sort.compareTree key_size asc ∅ ∅ b a = 1%Z
  /\ Sort.compareTree key_size desc ∅ ∅ a b = (-1)%Z
  /\ Sort.compareTree key_size desc ∅ ∅ b a = (-1)%Z.
Proof. vm_compute. repeat split; reflexivity. Qed.

Section FilterFacts.
Import Filter.
Variable engine : JS.str -> JS.str -> JS.str -> option bool.
Variable arraySort : (Row -> Row -> Z) -> list Row -> list Row.
Variable fc : FilterCriteria.
Variables durations ratings : gmap string Q.
Variable sortKey : SortKey.
Variable sortOrder : SortOrder.
Variable expanded : gset string.
Hypothesis arraySort_perm : forall cmp l, Permutation (arraySort cmp l) l.

Local Notation "'pn'" :=
  (processNode engine arraySort fc durations ratings sortKey sortOrder expanded).
Local Notation "'accepts'" := (treeAccepts engine fc durations ratings).
Local Notation "'visit'" :=
  (forEachChild engine arraySort fc durations ratings sortKey sortOrder expanded).

Lemma Qle_bool_zero (m v : Q) : Qeq_bool m 0 = true -> Qle_bool 0 v = Qle_bool m v.
Proof.
  intros E. apply Qeq_bool_iff in E. apply eq_true_iff_eq.
  rewrite !Qle_bool_iff. now rewrite E.
Qed.

Lemma geb_selfOrZero (v m : Q) : Num.geb v (Num.selfOrZero m) = Num.geb v m.
Proof.
  unfold Num.geb, Num.selfOrZero. destruct (Qeq_bool m 0) eqn:E; [|reflexivity].
  now apply Qle_bool_zero.
Qed.

Lemma leOrInfinity_nonzero (v m : Q) :
  Qeq_bool m 0 = false -> Num.leOrInfinity v m = Qle_bool v m.
Proof. intros E. unfold Num.leOrInfinity. now rewrite E. Qed.

Lemma accepts_agree (f : FileSystemItem) :
  Qeq_bool (maxSize fc) 0 = false ->
  Qeq_bool (maxDuration fc) 0 = false ->
  Qeq_bool (maxDate fc) 0 = false ->
  accepts f = flatAccepts engine fc durations ratings f.
Proof.
  intros H1 H2 H3. unfold treeAccepts, flatAccepts.
  now rewrite !geb_selfOrZero, !leOrInfinity_nonzero.
Qed.

Lemma processNode_file i n v h cs s l t depth r :
  pn (mkItem i n file v h cs s l t) depth r
  = if accepts (mkItem i n file v h cs s l t)
    then r ++ [mkRow (mkItem i n file v h cs s l t) depth None] else r.
Proof. reflexivity. Qed.

Lemma processNode_directory i n v h cs s l t depth r :
  pn (mkItem i n directory v h cs s l t) depth r
  = let node := mkItem i n directory v h cs s l t in
    let isExp := bool_decide (i ∈ expanded) in
    let result1 := if isExp || searchActive fc then visit depth cs r else r in
    if Nat.ltb (length r) (length result1)
       || (Search.matchSmartSearch engine n (searchText fc) && negb (String.eqb i "root"))
    then firstn (length r) result1 ++ [dirRow expanded node depth]
           ++ (if isExp
               then arraySort (compareRows durations ratings sortKey sortOrder)
                      (skipn (length r) result1)
               else [])
    else result1.
Proof.
  assert (E : forall cs r,
             (fix forEach (items : list FileSystemItem) (r : list Row) : list Row :=
                match items with
                | [] => r
                | child :: items' => forEach items' (pn child (S depth) r)
                end) cs r = visit depth cs r).
  { clear. induction cs as [|c cs IH]; intros r; [reflexivity|]. simpl. apply IH. }
  simpl. rewrite E. reflexivity.
Qed.

Lemma forEachChild_app (depth : nat) (cs : list FileSystemItem) :
  Forall (fun c => forall d r, pn c d r = r ++ pn c d []) cs ->
  forall r, visit depth cs r = r ++ visit depth cs [].
Proof.
  unfold forEachChild. induction 1 as [|c cs Hc _ IH]; intros r; simpl.
  - now rewrite app_nil_r.
  - rewrite IH, (IH (pn c (S depth) [])), Hc. now rewrite app_assoc.
Qed.

(** What a node adds does not depend on the rows already there. *)
Lemma processNode_app (node : FileSystemItem) :
  forall depth r, pn node depth r = r ++ pn node depth [].
Proof.
  induction node as [i n k v h cs s l t IH] using FileSystemItem_tree_ind.
  intros depth r. destruct k.
  - rewrite !processNode_file.
    destruct (accepts _); [reflexivity|now rewrite app_nil_r].
  - rewrite !processNode_directory. cbv zeta.
    destruct (bool_decide (i ∈ expanded) || searchActive fc).
    + rewrite (forEachChild_app depth cs IH r).
      rewrite length_app, firstn_app, skipn_app, firstn_all, skipn_all, Nat.sub_diag.
      simpl length. simpl firstn. simpl skipn.
      replace (length r <? length r + length (visit depth cs []))%nat
        with (0 <? length (visit depth cs []))%nat
        by (destruct (length (visit depth cs []));
            [symmetry; apply Nat.ltb_ge; lia|symmetry; apply Nat.ltb_lt; lia]).
      destruct (_ || _); [|reflexivity].
      now rewrite app_nil_r.
    + rewrite Nat.ltb_irrefl, firstn_all, skipn_all. simpl.
      destruct (_ && _); [|now rewrite app_nil_r].
      reflexivity.
Qed.


Lemma forEachChild_flat_map (depth : nat) (cs : list FileSystemItem) :
  visit depth cs [] = flat_map (fun c => pn c (S depth) []) cs.
Proof.
  induction cs as [|c cs IH]; [reflexivity|].
  change (visit depth (c :: cs) [])
    with (visit depth cs (pn c (S depth) [])).
  rewrite forEachChild_app by (apply Forall_forall; intros; apply processNode_app).
  now rewrite IH.
Qed.

Lemma collectItem_directory i n v h cs s l t :
  collectItem (mkItem i n directory v h cs s l t) = flat_map collectItem cs.
Proof.
  simpl. induction cs as [|c cs IH]; [reflexivity|]. simpl. now rewrite IH.
Qed.

Lemma allExpanded_directory i n v h cs s l t :
  allExpanded expanded (mkItem i n directory v h cs s l t)
  = bool_decide (i ∈ expanded) && forallb (allExpanded expanded) cs.
Proof.
  reflexivity.
Qed.

Lemma collectItem_kind (node f : FileSystemItem) :
  In f (collectItem node) -> kind f = file.
Proof.
  induction node as [i n k v h cs s l t IH] using FileSystemItem_tree_ind.
  destruct k.
  - simpl. intros [<-|[]]. reflexivity.
  - rewrite collectItem_directory. intros Hin.
    apply in_flat_map in Hin as (c & Hc & Hf).
    rewrite List.Forall_forall in IH. now apply (IH c).
Qed.

(** What the rows of a directory are, in terms of the rows of its
    children. *)
Lemma processNode_directory_rows i n v h cs s l t depth :
  let node := mkItem i n directory v h cs s l t in
  let isExp := bool_decide (i ∈ expanded) in
  let found := if isExp || searchActive fc
               then flat_map (fun c => pn c (S depth) []) cs else [] in
  pn node depth []
  = if Nat.ltb 0 (length found)
       || (Search.matchSmartSearch engine n (searchText fc) && negb (String.eqb i "root"))
    then dirRow expanded node depth
           :: (if isExp
               then arraySort (compareRows durations ratings sortKey sortOrder) found
               else [])
    else found.
Proof.
  intros node isExp found. subst node isExp found.
  rewrite processNode_directory. cbv zeta. rewrite forEachChild_flat_map.
  destruct (bool_decide (i ∈ expanded) || searchActive fc); reflexivity.
Qed.

(** Every file row of a node is a file of that node that the tree
    predicate accepts. *)
Lemma rows_sound (node : FileSystemItem) :
  forall depth row,
    In row (pn node depth []) -> kind (row_item row) = file ->
    In (row_item row) (collectItem node) /\ accepts (row_item row) = true.
Proof.
  induction node as [i n k v h cs s l t IH] using FileSystemItem_tree_ind.
  intros depth row Hin Hk. destruct k.
  - rewrite processNode_file in Hin.
    destruct (accepts _) eqn:Ha; [|now destruct Hin].
    destruct Hin as [<-|[]]. simpl. split; [now left|exact Ha].
  - rewrite processNode_directory_rows in Hin. cbv zeta in Hin.
    rewrite collectItem_directory.
    assert (Hfound : forall row',
               In row' (if bool_decide (i ∈ expanded) || searchActive fc
                        then flat_map (fun c => pn c (S depth) []) cs else []) ->
               kind (row_item row') = file ->
               In (row_item row') (flat_map collectItem cs)
               /\ accepts (row_item row') = true).
    { intros row' Hin' Hk'.
      destruct (bool_decide (i ∈ expanded) || searchActive fc); [|now destruct Hin'].
      apply in_flat_map in Hin' as (c & Hc & Hrow).
      rewrite List.Forall_forall in IH.
      destruct (IH c Hc (S depth) row' Hrow Hk') as [H1 H2].
      split; [|exact H2]. apply in_flat_map. now exists c. }
    destruct (_ || _) in Hin; [|now apply Hfound].
    destruct Hin as [<-|Hin]; [discriminate Hk|].
    destruct (bool_decide (i ∈ expanded)); [|now destruct Hin].
    apply Hfound; [|exact Hk].
    eapply Permutation_in; [apply arraySort_perm|exact Hin].
Qed.

(** With every directory expanded, every accepted file of a node has a
    row. *)
Lemma rows_complete (node : FileSystemItem) :
  forall depth f,
    allExpanded expanded node = true ->
    In f (collectItem node) -> accepts f = true ->
    In f (map row_item (pn node depth [])).
Proof.
  induction node as [i n k v h cs s l t IH] using FileSystemItem_tree_ind.
  intros depth f Hall Hin Ha. destruct k.
  - destruct Hin as [<-|[]]. rewrite processNode_file, Ha. now left.
  - rewrite allExpanded_directory in Hall. apply andb_true_iff in Hall as [He Hcs].
    rewrite collectItem_directory in Hin.
    apply in_flat_map in Hin as (c & Hc & Hf).
    rewrite List.Forall_forall in IH. rewrite forallb_forall in Hcs.
    pose proof (IH c Hc (S depth) f (Hcs c Hc) Hf Ha) as Hrow.
    apply in_map_iff in Hrow as (row & Erow & Hrow).
    rewrite processNode_directory_rows. cbv zeta. rewrite He. simpl orb.
    assert (Hfound : In row (flat_map (fun c => pn c (S depth) []) cs))
      by (apply in_flat_map; now exists c).
    destruct (flat_map (fun c => pn c (S depth) []) cs) as [|r0 found] eqn:Ef;
      [now destruct Hfound|].
    simpl Nat.ltb. simpl orb. cbv iota.
    right. apply in_map_iff. exists row. split; [exact Erow|].
    eapply Permutation_in; [symmetry; apply arraySort_perm|exact Hfound].
Qed.

Lemma flattenedList_flat_map (items : list FileSystemItem) :
  flattenedList engine arraySort fc durations ratings sortKey sortOrder expanded items
  = flat_map (fun c => pn c 0 []) items.
Proof.
  unfold flattenedList.
  assert (E : forall r, fold_left (fun r item => pn item 0 r) items r
                        = r ++ flat_map (fun c => pn c 0 []) items).
  { induction items as [|c items IH]; intros r; simpl; [now rewrite app_nil_r|].
    rewrite IH, processNode_app. now rewrite app_assoc. }
  apply E.
Qed.

Lemma in_fileRows (rows : list Row) (f : FileSystemItem) :
  In f (fileRows rows) <-> kind f = file /\ exists row, In row rows /\ row_item row = f.
Proof.
  unfold fileRows. rewrite filter_In, in_map_iff. split.
  - intros [(row & E & Hin) Hk]. split; [now destruct (kind f)|]. now exists row.
  - intros [Hk (row & Hin & E)]. split; [now exists row|now rewrite Hk].
Qed.

Lemma in_filteredFiles (allFiles : list FileSystemItem) (f : FileSystemItem) :
  In f (filteredFiles engine fc durations ratings sortKey sortOrder allFiles)
  <-> In f allFiles /\ flatAccepts engine fc durations ratings f = true.
Proof.
  unfold filteredFiles, Sort.sortedFiles. rewrite filter_In. split.
  - intros [Hin Ha]. split; [|exact Ha].
    eapply Permutation_in; [apply stableSort_perm|exact Hin].
  - intros [Hin Ha]. split; [|exact Ha].
    eapply Permutation_in; [symmetry; apply stableSort_perm|exact Hin].
Qed.

(** C4 (as amended).  When none of the three upper bounds of the
    criteria is zero, the tree and the flat list test a file with the same
    predicate, and every file row of the flattened tree is a file of the
    flat filtered list.  When moreover every directory of the tree is
    expanded, the two hold the same files.  (The host sort is any
    function that returns a permutation of its input.) *)
Theorem tree_and_flat_views (items : list FileSystemItem) :
  Qeq_bool (maxSize fc) 0 = false ->
  Qeq_bool (maxDuration fc) 0 = false ->
  Qeq_bool (maxDate fc) 0 = false ->
  (forall f, accepts f = flatAccepts engine fc durations ratings f)
  /\ (forall f,
        In f (fileRows (flattenedList engine arraySort fc durations ratings
                          sortKey sortOrder expanded items)) ->
        In f (filteredFiles engine fc durations ratings sortKey sortOrder (collect items)))
  /\ (forallb (allExpanded expanded) items = true ->
      forall f,
        In f (filteredFiles engine fc durations ratings sortKey sortOrder (collect items)) ->
        In f (fileRows (flattenedList engine arraySort fc durations ratings
                          sortKey sortOrder expanded items))).
Proof.
  intros H1 H2 H3.
  assert (Hagree : forall f, accepts f = flatAccepts engine fc durations ratings f)
    by (intros f; now apply accepts_agree).
  split; [exact Hagree|]. split.
  - intros f Hin. apply in_fileRows in Hin as [Hk (row & Hin & <-)].
    rewrite flattenedList_flat_map in Hin.
    apply in_flat_map in Hin as (c & Hc & Hrow).
    destruct (rows_sound c 0 row Hrow Hk) as [Hcol Ha].
    apply in_filteredFiles. split; [|now rewrite <- Hagree].
    unfold collect. apply in_flat_map. now exists c.
  - intros Hall f Hin. apply in_filteredFiles in Hin as [Hcol Ha].
    unfold collect in Hcol. apply in_flat_map in Hcol as (c & Hc & Hf).
    rewrite forallb_forall in Hall.
    rewrite <- Hagree in Ha.
    pose proof (rows_complete c 0 f (Hall c Hc) Hf Ha) as Hrow.
    apply in_map_iff in Hrow as (row & E & Hrow).
    apply in_fileRows. split; [now apply (collectItem_kind c)|].
    exists row. split; [|exact E].
    rewrite flattenedList_flat_map. apply in_flat_map. now exists c.
Qed.
End FilterFacts.

Lemma tree_and_flat_views_witness :
  In (Sample.track "kit/snare.wav")
    (Filter.fileRows
       (Filter.flattenedList Search.literalEngine Sample.referenceSort Sample.wideOpen
          ∅ ∅ key_name asc {["kit"%string]} [Sample.kit])).
Proof.
  destruct (tree_and_flat_views Search.literalEngine Sample.referenceSort Sample.wideOpen
              ∅ ∅ key_name asc {["kit"%string]}
              (fun cmp l => stableSort_perm cmp l) [Sample.kit]
              eq_refl eq_refl eq_refl) as (_ & _ & Hall).
  apply Hall; [reflexivity|].
  apply in_filteredFiles. split; [now left|reflexivity].
Defined.

(** C4 (as stated) fails, twice.  With the upper end of the duration
    range at zero, a file of five seconds is rejected by the flat filter
    and accepted by the tree, which reads the zero as no bound.  And with
    criteria that accept everything, a file inside a collapsed directory
    is in the flat list while the flattened tree has the row of the
    directory only. *)
Lemma tree_and_flat_views_counterexample :
  (Filter.flatAccepts Search.literalEngine Sample.zeroMaxDuration
     {["a.wav"%string := 5%Q]} ∅ (Sample.track "a.wav") = false
   /\ Filter.treeAccepts Search.literalEngine Sample.zeroMaxDuration
        {["a.wav"%string := 5%Q]} ∅ (Sample.track "a.wav") = true)
  /\ (Filter.filteredFiles Search.literalEngine Sample.wideOpen ∅ ∅ key_name asc
        (collect [Sample.kit]) = [Sample.track "kit/snare.wav"]
      /\ Filter.fileRows
           (Filter.flattenedList Search.literalEngine Sample.referenceSort Sample.wideOpen
              ∅ ∅ key_name asc {["root"%string]} [Sample.kit]) = []
      /\ map row_item
           (Filter.flattenedList Search.literalEngine Sample.referenceSort Sample.wideOpen
              ∅ ∅ key_name asc {["root"%string]} [Sample.kit]) = [Sample.kit]).
Proof. vm_compute. repeat split; reflexivity. Qed.

(** * Properties of the further components *)

From Stdlib Require Import Lqa Qpower.

(** ** The rounding of the doubles *)

Section DoubleFacts.
Import Double.
#[local] Open Scope Q_scope.

Lemma pow2_pos (e : Z) : 0 < 2 ^ e.
Proof. now apply Qpower_0_lt. Qed.

Lemma pow2_le (a b : Z) : (a <= b)%Z -> 2 ^ a <= 2 ^ b.
Proof. intros H. now apply Qpower_le_compat_l. Qed.

Lemma pow2_succ (e : Z) : 2 ^ (e + 1) == 2 * 2 ^ e.
Proof. rewrite Qpower_plus by discriminate. change ((2:Q) ^ 1) with (2:Q). ring. Qed.

Lemma pow2_inject (a : Z) : (0 <= a)%Z -> inject_Z (2 ^ a) == 2 ^ a.
Proof. intros H. now rewrite Zpower_Qpower. Qed.

Lemma ilog2_spec (q : Q) : 0 < q -> 2 ^ ilog2 q <= q /\ q < 2 ^ (ilog2 q + 1).
Proof.
  intros Hq. destruct q as [n d]. unfold ilog2. cbn [Qnum Qden].
  assert (Hn : (0 < n)%Z) by (unfold Qlt in Hq; simpl in Hq; lia).
  destruct (Z.log2_spec n Hn) as [Na Nb].
  destruct (Z.log2_spec (Z.pos d) ltac:(lia)) as [Da Db].
  pose proof (Z.log2_nonneg n) as Ha. pose proof (Z.log2_nonneg (Z.pos d)) as Hb.
  set (a := Z.log2 n) in *. set (b := Z.log2 (Z.pos d)) in *.
  assert (En : inject_Z n == (n # d) * inject_Z (Z.pos d)).
  { unfold Qeq, Qmult, inject_Z. simpl. lia. }
  assert (Na' : 2 ^ a <= inject_Z n)
    by (rewrite <- pow2_inject by lia; now rewrite <- Zle_Qle).
  assert (Nb' : inject_Z n < 2 * 2 ^ a).
  { rewrite <- pow2_succ, <- pow2_inject by lia. now rewrite <- Zlt_Qlt. }
  assert (Da' : 2 ^ b <= inject_Z (Z.pos d))
    by (rewrite <- pow2_inject by lia; now rewrite <- Zle_Qle).
  assert (Db' : inject_Z (Z.pos d) < 2 * 2 ^ b).
  { rewrite <- pow2_succ, <- pow2_inject by lia. now rewrite <- Zlt_Qlt. }
  assert (Eab : (2:Q) ^ a == 2 ^ (a - b) * 2 ^ b).
  { rewrite <- Qpower_plus by discriminate. now replace (a - b + b)%Z with a by lia. }
  pose proof (pow2_pos (a - b)) as Pab. pose proof (pow2_pos b) as Pb.
  set (A := (2:Q) ^ a) in *. set (B := (2:Q) ^ b) in *.
  set (D := inject_Z (Z.pos d)) in *. set (N := inject_Z n) in *.
  set (q := n # d) in *.
  destruct (Qle_bool (2 ^ (a - b)) q) eqn:E.
  - apply Qle_bool_iff in E. split; [exact E|].
    rewrite pow2_succ. set (C := (2:Q) ^ (a - b)) in *. nra.
  - assert (E' : q < 2 ^ (a - b)).
    { apply Qnot_le_lt. intros H. apply Qle_bool_iff in H. congruence. }
    replace (a - b - 1 + 1)%Z with (a - b)%Z by lia. split; [|exact E'].
    assert (Ec : (2:Q) ^ (a - b) == 2 * 2 ^ (a - b - 1)).
    { rewrite <- pow2_succ. now replace (a - b - 1 + 1)%Z with (a - b)%Z by lia. }
    pose proof (pow2_pos (a - b - 1)) as Pc.
    set (C := (2:Q) ^ (a - b)) in *. set (C1 := (2:Q) ^ (a - b - 1)) in *. nra.
Qed.

Lemma ilog2_mono (x y : Q) : 0 < x -> x <= y -> (ilog2 x <= ilog2 y)%Z.
Proof.
  intros Hx Hxy. destruct (ilog2_spec x Hx) as [X1 _].
  destruct (ilog2_spec y ltac:(lra)) as [_ Y2].
  assert (H : 2 ^ ilog2 x < 2 ^ (ilog2 y + 1)) by lra.
  apply Qpower_lt_compat_l_inv in H; [lia|reflexivity].
Qed.

Lemma nearestEven_bounds (q : Q) :
  (Qfloor q <= nearestEven q <= Qfloor q + 1)%Z.
Proof.
  unfold nearestEven. destruct (_ ?= _); [destruct (Z.even _)| |]; lia.
Qed.

Lemma nearestEven_mono (x y : Q) : x <= y -> (nearestEven x <= nearestEven y)%Z.
Proof.
  intros Hxy. pose proof (Qfloor_resp_le x y Hxy) as Hf.
  pose proof (nearestEven_bounds x) as Bx. pose proof (nearestEven_bounds y) as By.
  destruct (Z.eq_dec (Qfloor x) (Qfloor y)) as [E|D]; [|lia].
  unfold nearestEven. rewrite <- E.
  destruct (Qcompare_spec (x - inject_Z (Qfloor x)) (1 # 2)) as [Ex|Ex|Ex];
    destruct (Qcompare_spec (y - inject_Z (Qfloor x)) (1 # 2)) as [Ey|Ey|Ey];
    try destruct (Z.even (Qfloor x)); try lia; exfalso; lra.
Qed.

Lemma nearestEven_Z (z : Z) : nearestEven (inject_Z z) = z.
Proof.
  unfold nearestEven. rewrite Qfloor_Z.
  destruct (Qcompare_spec (inject_Z z - inject_Z z) (1 # 2)) as [E|E|E];
    [exfalso; lra|reflexivity|exfalso; lra].
Qed.

Lemma nearestEven_ge (q : Q) (k : Z) : inject_Z k <= q -> (k <= nearestEven q)%Z.
Proof. intros H. rewrite <- (nearestEven_Z k). now apply nearestEven_mono. Qed.

Lemma nearestEven_le (q : Q) (k : Z) : q <= inject_Z k -> (nearestEven q <= k)%Z.
Proof. intros H. rewrite <- (nearestEven_Z k). now apply nearestEven_mono. Qed.


Lemma ulpExp_upper (q : Q) : ~ q == 0 -> Qabs q < inject_Z (2 ^ 53) * 2 ^ ulpExp q.
Proof.
  intros Hq. assert (Ha : 0 < Qabs q).
  { pose proof (Qabs_nonneg q) as H. destruct (Qle_lt_or_eq _ _ H) as [|E]; [assumption|].
    exfalso. apply Hq. revert E. apply Qabs_case; intros; lra. }
  destruct (ilog2_spec _ Ha) as [_ H].
  eapply Qlt_le_trans; [exact H|].
  rewrite pow2_inject by lia. rewrite <- Qpower_plus by discriminate.
  apply pow2_le. unfold ulpExp. lia.
Qed.

Lemma ulpExp_lower (q : Q) :
  ~ q == 0 -> (-1074 < ulpExp q)%Z -> inject_Z (2 ^ 52) * 2 ^ ulpExp q <= Qabs q.
Proof.
  intros Hq He. assert (Ha : 0 < Qabs q).
  { pose proof (Qabs_nonneg q) as H. destruct (Qle_lt_or_eq _ _ H) as [|E]; [assumption|].
    exfalso. apply Hq. revert E. apply Qabs_case; intros; lra. }
  destruct (ilog2_spec _ Ha) as [H _].
  eapply Qle_trans; [|exact H].
  rewrite pow2_inject by lia. rewrite <- Qpower_plus by discriminate.
  apply pow2_le. unfold ulpExp in *. lia.
Qed.

Lemma ulpExp_mono (x y : Q) : ~ x == 0 -> Qabs x <= Qabs y -> (ulpExp x <= ulpExp y)%Z.
Proof.
  intros Hx Hxy. assert (Ha : 0 < Qabs x).
  { pose proof (Qabs_nonneg x) as H. destruct (Qle_lt_or_eq _ _ H) as [|E]; [assumption|].
    exfalso. apply Hx. revert E. apply Qabs_case; intros; lra. }
  pose proof (ilog2_mono _ _ Ha Hxy). unfold ulpExp. lia.
Qed.

Lemma round_nonzero (q : Q) :
  ~ q == 0 -> round q = inject_Z (nearestEven (q / 2 ^ ulpExp q)) * 2 ^ ulpExp q.
Proof.
  intros Hq. unfold round. destruct (Qeq_bool q 0) eqn:E; [|reflexivity].
  now apply Qeq_bool_iff in E.
Qed.

Lemma round_zero (q : Q) : q == 0 -> round q = 0.
Proof. intros Hq. unfold round. now rewrite (proj2 (Qeq_bool_iff q 0) Hq). Qed.

Lemma scaled_ge (q : Q) (e k : Z) :
  inject_Z k * 2 ^ e <= q -> inject_Z k * 2 ^ e <= inject_Z (nearestEven (q / 2 ^ e)) * 2 ^ e.
Proof.
  intros H. pose proof (pow2_pos e) as P.
  apply Qmult_le_compat_r; [|lra]. rewrite <- Zle_Qle. apply nearestEven_ge.
  now apply Qle_shift_div_l.
Qed.

Lemma scaled_le (q : Q) (e k : Z) :
  q <= inject_Z k * 2 ^ e -> inject_Z (nearestEven (q / 2 ^ e)) * 2 ^ e <= inject_Z k * 2 ^ e.
Proof.
  intros H. pose proof (pow2_pos e) as P.
  apply Qmult_le_compat_r; [|lra]. rewrite <- Zle_Qle. apply nearestEven_le.
  now apply Qle_shift_div_r.
Qed.

Lemma scaled_mono (x y : Q) (e : Z) :
  x <= y ->
  inject_Z (nearestEven (x / 2 ^ e)) * 2 ^ e <= inject_Z (nearestEven (y / 2 ^ e)) * 2 ^ e.
Proof.
  intros H. pose proof (pow2_pos e) as P.
  apply Qmult_le_compat_r; [|lra]. rewrite <- Zle_Qle. apply nearestEven_mono.
  unfold Qdiv. apply Qmult_le_compat_r; [exact H|].
  apply Qlt_le_weak, Qinv_lt_0_compat, P.
Qed.

Lemma round_nonneg (q : Q) : 0 <= q -> 0 <= round q.
Proof.
  intros H. destruct (Qeq_dec q 0) as [E|D]; [rewrite (round_zero q E); lra|].
  rewrite (round_nonzero q D).
  pose proof (scaled_ge q (ulpExp q) 0) as S. change (inject_Z 0) with 0 in S.
  rewrite Qmult_0_l in S. now apply S.
Qed.

Lemma round_nonpos (q : Q) : q <= 0 -> round q <= 0.
Proof.
  intros H. destruct (Qeq_dec q 0) as [E|D]; [rewrite (round_zero q E); lra|].
  rewrite (round_nonzero q D).
  pose proof (scaled_le q (ulpExp q) 0) as S. change (inject_Z 0) with 0 in S.
  rewrite Qmult_0_l in S. now apply S.
Qed.

(** Rounding keeps the order. *)
Lemma round_mono (x y : Q) : x <= y -> round x <= round y.
Proof.
  intros Hxy.
  destruct (Qeq_dec x 0) as [Ex|Dx].
  { rewrite (round_zero x Ex). apply round_nonneg. lra. }
  destruct (Qeq_dec y 0) as [Ey|Dy].
  { rewrite (round_zero y Ey). apply round_nonpos. lra. }
  destruct (Qlt_le_dec x 0) as [Nx|Px]; destruct (Qlt_le_dec 0 y) as [Py|Ny].
  - apply Qle_trans with 0; [apply round_nonpos|apply round_nonneg]; lra.
  - (* both negative *)
    rewrite (round_nonzero x Dx), (round_nonzero y Dy).
    assert (Ax : Qabs x == - x) by (apply Qabs_neg; lra).
    assert (Ay : Qabs y == - y) by (apply Qabs_neg; lra).
    pose proof (ulpExp_mono y x Dy ltac:(lra)) as He.
    destruct (Z.eq_dec (ulpExp y) (ulpExp x)) as [E|D].
    + rewrite E. now apply scaled_mono.
    + pose proof (ulpExp_lower x Dx ltac:(unfold ulpExp in *; lia)) as Lx.
      pose proof (ulpExp_upper y Dy) as Uy.
      pose proof (pow2_pos (ulpExp x)) as Pxe. pose proof (pow2_pos (ulpExp y)) as Pye.
      assert (Hp : 2 * 2 ^ ulpExp y <= 2 ^ ulpExp x)
        by (rewrite <- pow2_succ; apply pow2_le; lia).
      apply Qle_trans with (inject_Z (- 2 ^ 52) * 2 ^ ulpExp x).
      * apply scaled_le. rewrite inject_Z_opp. 
        change (inject_Z (2 ^ 52)) with (4503599627370496 # 1) in *. lra.
      * apply Qle_trans with (inject_Z (- 2 ^ 53) * 2 ^ ulpExp y).
        -- rewrite !inject_Z_opp.
           change (inject_Z (2 ^ 52)) with (4503599627370496 # 1) in *.
           change (inject_Z (2 ^ 53)) with (9007199254740992 # 1) in *. lra.
        -- apply scaled_ge. rewrite inject_Z_opp.
           change (inject_Z (2 ^ 53)) with (9007199254740992 # 1) in *. lra.
  - (* both positive *)
    rewrite (round_nonzero x Dx), (round_nonzero y Dy).
    assert (Ax : Qabs x == x) by (apply Qabs_pos; lra).
    assert (Ay : Qabs y == y) by (apply Qabs_pos; lra).
    pose proof (ulpExp_mono x y Dx ltac:(lra)) as He.
    destruct (Z.eq_dec (ulpExp x) (ulpExp y)) as [E|D].
    + rewrite E. now apply scaled_mono.
    + pose proof (ulpExp_lower y Dy ltac:(unfold ulpExp in *; lia)) as Ly.
      pose proof (ulpExp_upper x Dx) as Ux.
      pose proof (pow2_pos (ulpExp x)) as Pxe. pose proof (pow2_pos (ulpExp y)) as Pye.
      assert (Hp : 2 * 2 ^ ulpExp x <= 2 ^ ulpExp y)
        by (rewrite <- pow2_succ; apply pow2_le; lia).
      apply Qle_trans with (inject_Z (2 ^ 53) * 2 ^ ulpExp x).
      * apply scaled_le.
        change (inject_Z (2 ^ 53)) with (9007199254740992 # 1) in *. lra.
      * apply Qle_trans with (inject_Z (2 ^ 52) * 2 ^ ulpExp y).
        -- change (inject_Z (2 ^ 52)) with (4503599627370496 # 1) in *.
           change (inject_Z (2 ^ 53)) with (9007199254740992 # 1) in *. lra.
        -- apply scaled_ge.
           change (inject_Z (2 ^ 52)) with (4503599627370496 # 1) in *. lra.
  - exfalso. lra.
Qed.

Lemma round_comp (x y : Q) : x == y -> round x == round y.
Proof.
  intros E. apply Qle_antisym; apply round_mono; lra.
Qed.

(** A whole number below [2 ^ 53] is a double. *)
Lemma round_Z (z : Z) : (Z.abs z < 2 ^ 53)%Z -> round (inject_Z z) == inject_Z z.
Proof.
  intros Hz. destruct (Z.eq_dec z 0%Z) as [->|Dz]; [reflexivity|].
  assert (D : ~ inject_Z z == 0).
  { intros E. apply Dz. apply (inject_Z_injective z 0). exact E. }
  rewrite (round_nonzero _ D).
  set (e := ulpExp (inject_Z z)).
  assert (He : (e <= 0)%Z).
  { assert (Ha : 0 < Qabs (inject_Z z)).
    { pose proof (Qabs_nonneg (inject_Z z)) as H.
      destruct (Qle_lt_or_eq _ _ H) as [|E]; [assumption|].
      exfalso. apply D. revert E. apply Qabs_case; intros; lra. }
    destruct (ilog2_spec _ Ha) as [H _].
    assert (Hb : Qabs (inject_Z z) < 2 ^ 53).
    { rewrite <- pow2_inject by lia.
      assert (E : Qabs (inject_Z z) == inject_Z (Z.abs z)).
      { unfold inject_Z. now rewrite <- Zabs_Qabs. }
      rewrite E. now rewrite <- Zlt_Qlt. }
    assert (Hl : 2 ^ ilog2 (Qabs (inject_Z z)) < 2 ^ 53) by lra.
    apply Qpower_lt_compat_l_inv in Hl; [|reflexivity].
    subst e. unfold ulpExp. lia. }
  assert (Es : inject_Z (z * 2 ^ (- e)) * 2 ^ e == inject_Z z).
  { rewrite inject_Z_mult, pow2_inject by lia. rewrite <- Qmult_assoc.
    rewrite <- Qpower_plus by discriminate. replace (- e + e)%Z with 0%Z by lia.
    change ((2:Q) ^ 0) with 1. ring. }
  apply Qle_antisym.
  - rewrite <- Es at 2. apply scaled_le. rewrite Es. apply Qle_refl.
  - rewrite <- Es at 1. apply scaled_ge. rewrite Es. apply Qle_refl.
Qed.

Lemma round_le_Z (q : Q) (z : Z) :
  (Z.abs z < 2 ^ 53)%Z -> q <= inject_Z z -> round q <= inject_Z z.
Proof. intros Hz H. rewrite <- (round_Z z Hz). now apply round_mono. Qed.

Lemma round_ge_Z (q : Q) (z : Z) :
  (Z.abs z < 2 ^ 53)%Z -> inject_Z z <= q -> inject_Z z <= round q.
Proof. intros Hz H. rewrite <- (round_Z z Hz). now apply round_mono. Qed.


Lemma abs_pos (q : Q) : ~ q == 0 -> 0 < Qabs q.
Proof.
  intros Hq. pose proof (Qabs_nonneg q) as H.
  destruct (Qle_lt_or_eq _ _ H) as [|E]; [assumption|].
  exfalso. apply Hq. revert E. apply Qabs_case; intros; lra.
Qed.

(** A number on the grid of its own last place is a double. *)
Lemma round_grid (v : Q) (k : Z) :
  ~ v == 0 -> v == inject_Z k * 2 ^ ulpExp v -> round v == v.
Proof.
  intros D E. rewrite (round_nonzero v D).
  assert (Hle : v <= inject_Z k * 2 ^ ulpExp v) by (apply Qle_lteq; right; exact E).
  assert (Hge : inject_Z k * 2 ^ ulpExp v <= v)
    by (apply Qle_lteq; right; symmetry; exact E).
  apply Qle_antisym.
  - apply Qle_trans with (inject_Z k * 2 ^ ulpExp v); [now apply scaled_le|exact Hge].
  - apply Qle_trans with (inject_Z k * 2 ^ ulpExp v); [exact Hle|now apply scaled_ge].
Qed.

(** The doubles: a significand of at most 53 bits at an exponent that is
    not below -1074. *)
Lemma round_fixed (m e : Z) :
  (Z.abs m <= 2 ^ 53)%Z -> (-1074 <= e)%Z ->
  round (inject_Z m * 2 ^ e) == inject_Z m * 2 ^ e.
Proof.
  intros Hm He. destruct (Z.eq_dec m 0%Z) as [->|Dm].
  { rewrite round_zero; [|change (inject_Z 0) with 0; ring].
    change (inject_Z 0) with 0. ring. }
  pose proof (pow2_pos e) as Pe.
  set (v := inject_Z m * 2 ^ e).
  assert (Ea : Qabs v == inject_Z (Z.abs m) * 2 ^ e).
  { subst v. rewrite Qabs_Qmult, (Qabs_pos (2 ^ e)) by lra.
    unfold inject_Z. now rewrite <- Zabs_Qabs. }
  assert (D : ~ v == 0).
  { intros E. rewrite E in Ea. change (Qabs 0) with 0 in Ea.
    assert (H1 : (1 <= Z.abs m)%Z) by lia. rewrite Zle_Qle in H1.
    change (inject_Z 1) with 1 in H1. nra. }
  destruct (ilog2_spec _ (abs_pos v D)) as [L _].
  assert (Hcase : (ulpExp v <= e)%Z
                  \/ (ulpExp v = e + 1 /\ Z.abs m = 2 ^ 53)%Z).
  { destruct (Z.eq_dec (Z.abs m) (2 ^ 53)%Z) as [E53|N53].
    - assert (Hl : 2 ^ ilog2 (Qabs v) <= 2 ^ (53 + e)).
      { rewrite Qpower_plus by discriminate. rewrite <- (pow2_inject 53) by lia.
        rewrite <- E53, <- Ea. exact L. }
      apply Qpower_le_compat_l_inv in Hl; [|reflexivity].
      unfold ulpExp. destruct (Z.eq_dec (ilog2 (Qabs v)) (53 + e)%Z); [right|left]; lia.
    - left. assert (H52 : (Z.abs m < 2 ^ 53)%Z) by lia. rewrite Zlt_Qlt in H52.
      assert (Hl : 2 ^ ilog2 (Qabs v) < 2 ^ (53 + e)).
      { rewrite Qpower_plus by discriminate. rewrite <- (pow2_inject 53) by lia.
        eapply Qle_lt_trans; [exact L|]. rewrite Ea.
        apply Qmult_lt_compat_r; assumption. }
      apply Qpower_lt_compat_l_inv in Hl; [|reflexivity].
      unfold ulpExp. lia. }
  destruct Hcase as [Hle|[He1 E53]].
  - apply (round_grid v (m * 2 ^ (e - ulpExp v))); [exact D|].
    rewrite inject_Z_mult, pow2_inject by lia. rewrite <- Qmult_assoc.
    rewrite <- Qpower_plus by discriminate.
    replace (e - ulpExp v + ulpExp v)%Z with e by lia. reflexivity.
  - apply (round_grid v (m / 2)); [exact D|].
    rewrite He1, pow2_succ.
    assert (Em : m = (2 * (m / 2))%Z).
    { assert (H : (m = 2 ^ 53 \/ m = - 2 ^ 53)%Z) by lia.
      destruct H as [-> | ->]; reflexivity. }
    subst v. rewrite Em at 1. rewrite inject_Z_mult.
    change (inject_Z 2) with 2. ring.
Qed.

(** The result of a rounding is a double. *)
Lemma round_idem (q : Q) : round (round q) == round q.
Proof.
  destruct (Qeq_dec q 0) as [E|D]; [now rewrite (round_zero q E)|].
  rewrite (round_nonzero q D).
  pose proof (ulpExp_upper q D) as U. pose proof (pow2_pos (ulpExp q)) as P.
  apply round_fixed; [|unfold ulpExp; lia].
  assert (Hq : - (inject_Z (2 ^ 53) * 2 ^ ulpExp q) <= q
               /\ q <= inject_Z (2 ^ 53) * 2 ^ ulpExp q).
  { apply Qabs_Qle_condition. now apply Qlt_le_weak. }
  destruct Hq as [Hlo Hhi].
  assert (H1 : (nearestEven (q / 2 ^ ulpExp q) <= 2 ^ 53)%Z).
  { apply nearestEven_le. now apply Qle_shift_div_r. }
  assert (H2 : (- 2 ^ 53 <= nearestEven (q / 2 ^ ulpExp q))%Z).
  { apply nearestEven_ge. apply Qle_shift_div_l; [exact P|].
    rewrite inject_Z_opp. lra. }
  lia.
Qed.

End DoubleFacts.

(** ** Paths *)

Section PathFacts.
Import Path.

Lemma append_cons (a : ascii) (s t : string) :
  (String a s ++ t)%string = String a (s ++ t)%string.
Proof. reflexivity. Qed.

Lemma append_assoc (s t u : string) : ((s ++ t) ++ u)%string = (s ++ (t ++ u))%string.
Proof.
  induction s as [|a s IH]; [reflexivity|]. rewrite !append_cons. now rewrite IH.
Qed.

Lemma append_nil_r (s : string) : (s ++ "")%string = s.
Proof. induction s as [|a s IH]; [reflexivity|]. rewrite append_cons. now rewrite IH. Qed.

Lemma splitOn_nonempty (c : ascii) (s : string) : splitOn c s <> [].
Proof.
  destruct s as [|d s]; simpl; [discriminate|].
  destruct (Ascii.eqb d c); [discriminate|]. now destruct (splitOn c s).
Qed.

Lemma join_cons (c : ascii) (x : string) (l : list string) :
  l <> [] -> join c (x :: l) = (x ++ String c (join c l))%string.
Proof. destruct l; [contradiction|reflexivity]. Qed.

(** Joining the pieces of a split gives the string back. *)
Lemma join_splitOn (c : ascii) (s : string) : join c (splitOn c s) = s.
Proof.
  induction s as [|d s IH]; [reflexivity|]. simpl splitOn.
  destruct (Ascii.eqb_spec d c) as [->|Hd].
  - rewrite join_cons by apply splitOn_nonempty. now rewrite IH.
  - pose proof (splitOn_nonempty c s) as Hne.
    destruct (splitOn c s) as [|h t]; [contradiction|].
    destruct t as [|h' t].
    + simpl in *. now rewrite IH.
    + change (join c (String d h :: h' :: t))
        with (String d h ++ String c (join c (h' :: t)))%string.
      change (join c (h :: h' :: t)) with (h ++ String c (join c (h' :: t)))%string in IH.
      rewrite append_cons. now rewrite IH.
Qed.

Lemma splitOn_plain (c : ascii) (s : string) : hasUnit c s = false -> splitOn c s = [s].
Proof.
  induction s as [|d s IH]; [reflexivity|]. simpl.
  intros H. apply orb_false_iff in H as [Hd Hs]. rewrite Hd, (IH Hs). reflexivity.
Qed.

Lemma splitOn_app (c : ascii) (a b : string) :
  splitOn c (a ++ String c b) = splitOn c a ++ splitOn c b.
Proof.
  induction a as [|d a IH].
  - change (splitOn c (String c b) = [EmptyString] ++ splitOn c b).
    simpl. now rewrite Ascii.eqb_refl.
  - rewrite append_cons. simpl splitOn. rewrite IH.
    destruct (Ascii.eqb d c); [reflexivity|].
    pose proof (splitOn_nonempty c a) as Hne.
    now destruct (splitOn c a).
Qed.

Lemma last_app_nonempty {A : Type} (l l' : list A) (d : A) :
  l' <> [] -> List.last (l ++ l') d = List.last l' d.
Proof.
  intros Hne. induction l as [|x l IH]; [reflexivity|].
  change (List.last (x :: (l ++ l')) d = List.last l' d).
  destruct (l ++ l') eqn:E; [|exact IH].
  apply app_eq_nil in E as [_ ->]. contradiction.
Qed.

Lemma hasUnit_app (c : ascii) (a b : string) :
  hasUnit c (a ++ b) = hasUnit c a || hasUnit c b.
Proof.
  induction a as [|d a IH]; [reflexivity|].
  rewrite append_cons. simpl. rewrite IH. now rewrite orb_assoc.
Qed.

Lemma string_of_app (a b : list ascii) :
  string_of_list_ascii (a ++ b)
  = (string_of_list_ascii a ++ string_of_list_ascii b)%string.
Proof.
  induction a as [|x a IH]; [reflexivity|].
  change (String x (string_of_list_ascii (a ++ b))
          = String x (string_of_list_ascii a ++ string_of_list_ascii b)).
  now rewrite IH.
Qed.

Lemma hasUnit_string_of (c : ascii) (l : list ascii) :
  hasUnit c (string_of_list_ascii l) = existsb (fun d => Ascii.eqb d c) l.
Proof. induction l as [|x l IH]; [reflexivity|]. simpl. now rewrite IH. Qed.

Lemma startsWith_inv (s p : JS.str) :
  JS.startsWith s p = true -> exists r, s = p ++ r.
Proof.
  revert s. induction p as [|a p IH]; intros s H; [now exists s|].
  destruct s as [|b s]; [discriminate|]. simpl in H.
  apply andb_true_iff in H as [E H]. apply Ascii.eqb_eq in E as ->.
  destruct (IH s H) as [r ->]. now exists r.
Qed.

Lemma startsWith_app (p r : JS.str) : JS.startsWith (p ++ r) p = true.
Proof.
  induction p as [|a p IH]; [now destruct r|]. simpl. now rewrite Ascii.eqb_refl.
Qed.

Lemma endsWith_inv (s suffix : JS.str) :
  endsWith s suffix = true -> exists pre, s = pre ++ suffix.
Proof.
  unfold endsWith. intros H. apply startsWith_inv in H as [r E].
  exists (rev r). apply (f_equal (@rev ascii)) in E.
  rewrite rev_involutive, rev_app_distr, rev_involutive in E. exact E.
Qed.

Lemma endsWith_app (pre suffix : JS.str) : endsWith (pre ++ suffix) suffix = true.
Proof. unfold endsWith. rewrite rev_app_distr. apply startsWith_app. Qed.

Lemma lowerChar_dot (d : ascii) : JS.lowerChar d = "."%char -> d = "."%char.
Proof.
  destruct d as [[] [] [] [] [] [] [] []]; vm_compute; intros E;
    first [reflexivity | discriminate E].
Qed.

(** The piece after the last dot of a name whose lower-case form ends
    with a dot and [ext]. *)
Lemma last_piece_lower (fileName : string) (ext : JS.str) :
  existsb (fun d => Ascii.eqb d ".") ext = false ->
  endsWith (JS.toLowerCase (JS.of_string fileName)) ("."%char :: ext) = true ->
  JS.toLowerCase (JS.of_string (List.last (splitOn "." fileName) ""%string)) = ext.
Proof.
  intros Hext H. apply endsWith_inv in H as [pre E].
  unfold JS.toLowerCase in E. apply map_eq_app in E as (a & b & En & _ & Eb).
  destruct b as [|d b]; [discriminate|]. simpl in Eb.
  injection Eb as Ed Eb. apply lowerChar_dot in Ed as ->.
  assert (Hb : hasUnit "." (string_of_list_ascii b) = false).
  { rewrite hasUnit_string_of. subst ext. clear -Hext.
    induction b as [|x b IH]; [reflexivity|]. simpl in *.
    apply orb_false_iff in Hext as [Hx Hb]. rewrite (IH Hb), orb_false_r.
    destruct (Ascii.eqb_spec x ".") as [->|]; [discriminate Hx|reflexivity]. }
  assert (Es : fileName
               = (string_of_list_ascii a ++ String "." (string_of_list_ascii b))%string).
  { rewrite <- (string_of_list_ascii_of_string fileName).
    unfold JS.of_string in En. rewrite En. apply string_of_app. }
  rewrite Es, splitOn_app, last_app_nonempty by apply splitOn_nonempty.
  rewrite (splitOn_plain _ _ Hb). simpl List.last.
  unfold JS.of_string. rewrite list_ascii_of_string_of_list_ascii. exact Eb.
Qed.

(** X1.  A name whose lower-case form ends in one of the eight
    extensions the scanner accepts gets the MIME type of that extension,
    whatever the letter case of the name, when the type the host declares
    is not an audio type: the fallback [audio/wav] is not what decides. *)
Theorem getMimeType_by_extension (fileName : string) (fileType : option string)
    (ext mime : string) :
  (forall t, fileType = Some t ->
             JS.startsWith (JS.of_string t) (JS.of_string "audio/") = false) ->
  In (ext, mime)
     [("wav", "audio/wav"); ("mp3", "audio/mpeg"); ("aif", "audio/aiff");
      ("aiff", "audio/aiff"); ("flac", "audio/flac"); ("ogg", "audio/ogg");
      ("m4a", "audio/mp4"); ("aac", "audio/aac")]%string ->
  endsWith (JS.toLowerCase (JS.of_string fileName)) (JS.of_string ("." ++ ext)) = true ->
  getMimeType fileName fileType = mime.
Proof.
  intros Ht Hin Hends.
  assert (E : JS.toLowerCase (JS.of_string (List.last (splitOn "." fileName) ""%string))
              = JS.of_string ext).
  { apply last_piece_lower; [|exact Hends].
    simpl in Hin.
    repeat (destruct Hin as [Hin|Hin]; [injection Hin as <- <-; reflexivity|]).
    destruct Hin. }
  unfold getMimeType. rewrite E.
  replace (string_of_list_ascii (JS.of_string ext)) with ext
    by (symmetry; apply string_of_list_ascii_of_string).
  assert (Eby : (if String.eqb ext "wav" then "audio/wav"
                 else if String.eqb ext "mp3" then "audio/mpeg"
                 else if String.eqb ext "aif" then "audio/aiff"
                 else if String.eqb ext "aiff" then "audio/aiff"
                 else if String.eqb ext "flac" then "audio/flac"
                 else if String.eqb ext "ogg" then "audio/ogg"
                 else if String.eqb ext "m4a" then "audio/mp4"
                 else if String.eqb ext "aac" then "audio/aac"
                 else "audio/wav")%string = mime).
  { simpl in Hin.
    repeat (destruct Hin as [Hin|Hin]; [injection Hin as <- <-; reflexivity|]).
    destruct Hin. }
  destruct fileType as [t|]; [|exact Eby].
  rewrite (Ht t eq_refl), andb_false_r. exact Eby.
Qed.

Lemma getMimeType_by_extension_witness :
  getMimeType "Loops/Kick 01.WAV" (Some "") = "audio/wav"%string
  /\ getMimeType "take.Aiff" None = "audio/aiff"%string.
Proof.
  split.
  - apply (getMimeType_by_extension "Loops/Kick 01.WAV" (Some ""%string) "wav" "audio/wav").
    + intros t E. injection E as <-. reflexivity.
    + simpl. tauto.
    + reflexivity.
  - apply (getMimeType_by_extension "take.Aiff" None "aiff" "audio/aiff").
    + intros t E. discriminate E.
    + simpl. tauto.
    + reflexivity.
Defined.

(** X2.  Whatever the name and the declared type, the MIME type handed to
    the blob starts with [audio/]. *)
Theorem getMimeType_audio (fileName : string) (fileType : option string) :
  JS.startsWith (JS.of_string (getMimeType fileName fileType)) (JS.of_string "audio/")
  = true.
Proof.
  unfold getMimeType.
  set (ext := string_of_list_ascii _).
  assert (Hby : JS.startsWith
                  (JS.of_string
                     (if String.eqb ext "wav" then "audio/wav"
                      else if String.eqb ext "mp3" then "audio/mpeg"
                      else if String.eqb ext "aif" then "audio/aiff"
                      else if String.eqb ext "aiff" then "audio/aiff"
                      else if String.eqb ext "flac" then "audio/flac"
                      else if String.eqb ext "ogg" then "audio/ogg"
                      else if String.eqb ext "m4a" then "audio/mp4"
                      else if String.eqb ext "aac" then "audio/aac"
                      else "audio/wav")%string) (JS.of_string "audio/") = true).
  { repeat (match goal with |- context [String.eqb ext ?s] =>
                              destruct (String.eqb ext s); [reflexivity|] end).
    reflexivity. }
  destruct fileType as [t|]; [|exact Hby].
  destruct (negb (String.eqb t "") && Nat.ltb 5 (String.length t)
            && JS.startsWith (JS.of_string t) (JS.of_string "audio/")) eqn:E; [|exact Hby].
  now apply andb_true_iff in E as [_ E].
Qed.

(** X3.  [navigateUp] undoes the step into an entry: from the id the
    scanner gives the entry [name] of the folder [path] it leads back to
    [path], and to ['root'] from an entry of the top folder. *)
Theorem navigateUp_fullPath (path name : string) :
  hasUnit "/" name = false ->
  navigateUp (Scanner.fullPath path name)
  = if String.eqb path "" then "root"%string else path.
Proof.
  intros Hn. unfold Scanner.fullPath, navigateUp.
  destruct (String.eqb_spec path "") as [->|Hp].
  - destruct (String.eqb_spec name "root") as [->|_]; [reflexivity|].
    now rewrite (splitOn_plain _ _ Hn).
  - change (path ++ "/" ++ name)%string with (path ++ String "/" name)%string.
    destruct (String.eqb_spec (path ++ String "/" name) "root") as [E|_].
    + apply (f_equal (hasUnit "/")) in E. rewrite hasUnit_app in E.
      simpl in E. rewrite orb_true_r in E. discriminate E.
    + rewrite splitOn_app, (splitOn_plain _ _ Hn), length_app.
      simpl length. rewrite Nat.add_1_r. simpl Nat.eqb.
      rewrite removelast_last.
      pose proof (splitOn_nonempty "/" path) as Hne. pose proof (join_splitOn "/" path) as Ej.
      now destruct (splitOn "/" path).
Qed.

Lemma navigateUp_fullPath_witness :
  navigateUp (Scanner.fullPath "drums/808" "kick.wav") = "drums/808"%string
  /\ navigateUp (Scanner.fullPath "" "drums") = "root"%string.
Proof.
  split.
  - apply (navigateUp_fullPath "drums/808" "kick.wav"). reflexivity.
  - apply (navigateUp_fullPath "" "drums"). reflexivity.
Defined.

End PathFacts.

(** ** The scanner and the folder shown *)

Section ScannerFacts.
Import Scanner.

Lemma Entry_tree_ind (P : Entry -> Prop) :
  (forall n info, P (EFile n info)) ->
  (forall n es y, Forall P es -> P (EDir n es y)) ->
  forall e, P e.
Proof.
  intros Hf Hd. fix IH 1. intros [n info|n es y]; [apply Hf|apply Hd].
  induction es as [|e es IHes]; constructor; [apply IH|exact IHes].
Qed.

Lemma scanEntry_dir (path ename : string) (entries : list Entry) (yields : option nat) :
  scanEntry path (EDir ename entries yields)
  = Push (mkItem (fullPath path ename) ename directory false true
            (scanLoop (fullPath path ename) yields entries) None None None).
Proof.
  simpl. f_equal. f_equal. revert yields.
  induction entries as [|e es IH]; intros yields; simpl.
  - reflexivity.
  - destruct (exhausted yields); [reflexivity|].
    destruct (scanEntry _ e); now rewrite ?IH.
Qed.

Lemma wellNamed_dir (ename : string) (entries : list Entry) (yields : option nat) :
  wellNamed (EDir ename entries yields)
  <-> ename <> ""%string /\ Path.hasUnit "/" ename = false /\ Forall wellNamed entries.
Proof.
  simpl.
  assert (E : forall es,
             (fix each (es : list Entry) : Prop :=
                match es with
                | [] => True
                | e :: es' => wellNamed e /\ each es'
                end) es <-> Forall wellNamed es).
  { induction es as [|e es IH]; [now split; [constructor|]|].
    split.
    - intros [He Hes]. constructor; [exact He|now apply IH].
    - intros H. inversion H; subst. split; [assumption|now apply IH]. }
  now rewrite E.
Qed.

Lemma distinctNames_dir (ename : string) (entries : list Entry) (yields : option nat) :
  distinctNames (EDir ename entries yields)
  <-> NoDup (map entryName entries) /\ Forall distinctNames entries.
Proof.
  simpl.
  assert (E : forall es,
             (fix each (es : list Entry) : Prop :=
                match es with
                | [] => True
                | e :: es' => distinctNames e /\ each es'
                end) es <-> Forall distinctNames es).
  { induction es as [|e es IH]; [now split; [constructor|]|].
    split.
    - intros [He Hes]. constructor; [exact He|now apply IH].
    - intros H. inversion H; subst. split; [assumption|now apply IH]. }
  now rewrite E.
Qed.

Lemma nodesOf_eq (item : FileSystemItem) :
  nodesOf item = item :: flat_map nodesOf (children item).
Proof.
  destruct item as [i n k v h cs s l t]. reflexivity.
Qed.

Lemma collectItem_eq (item : FileSystemItem) :
  collectItem item
  = match kind item with
    | file => [item]
    | directory => collect (children item)
    end.
Proof.
  destruct item as [i n k v h cs s l t]. destruct k; reflexivity.
Qed.

(** Each item of the loop comes from an entry of the directory. *)
Lemma scanLoop_in (path : string) (es : list Entry) :
  forall budget item,
    In item (scanLoop path budget es) ->
    exists e, In e es /\ scanEntry path e = Push item.
Proof.
  induction es as [|e es IH]; intros budget item Hin; simpl in Hin.
  - now destruct (exhausted budget).
  - destruct (exhausted budget); [destruct Hin|].
    destruct (scanEntry path e) as [|item'|] eqn:E.
    + destruct (IH _ _ Hin) as (e' & He' & E'). exists e'. split; [now right|exact E'].
    + destruct Hin as [<-|Hin]; [exists e; split; [now left|exact E]|].
      destruct (IH _ _ Hin) as (e' & He' & E'). exists e'. split; [now right|exact E'].
    + destruct Hin.
Qed.

Lemma hostFiles_dir (path ename : string) (entries : list Entry) (yields : option nat) :
  hostFiles path (EDir ename entries yields)
  = flat_map (hostFiles (fullPath path ename)) entries.
Proof.
  simpl. induction entries as [|e es IH]; [reflexivity|]. simpl. now rewrite IH.
Qed.

Lemma healthy_dir (ename : string) (entries : list Entry) (yields : option nat) :
  healthy (EDir ename entries yields) <-> yields = None /\ Forall healthy entries.
Proof.
  simpl.
  assert (E : forall es,
             (fix each (es : list Entry) : Prop :=
                match es with
                | [] => True
                | e :: es' => healthy e /\ each es'
                end) es <-> Forall healthy es).
  { induction es as [|e es IH]; [now split; [constructor|]|].
    split.
    - intros [He Hes]. constructor; [exact He|now apply IH].
    - intros H. inversion H; subst. split; [assumption|now apply IH]. }
  now rewrite E.
Qed.

(** An enumeration that does not throw pushes what each of its entries
    gives, as long as no entry throws. *)
Lemma scanLoop_complete (path : string) (es : list Entry) (e : Entry)
    (item : FileSystemItem) :
  (forall e', In e' es -> scanEntry path e' <> Throw) ->
  In e es -> scanEntry path e = Push item ->
  In item (scanLoop path None es).
Proof.
  induction es as [|e' es IH]; intros Hok Hin E; [destruct Hin|].
  simpl. destruct Hin as [->|Hin].
  - rewrite E. now left.
  - assert (IH' : In item (scanLoop path None es))
      by (apply IH; [intros e'' H; apply Hok; now right|exact Hin|exact E]).
    destruct (scanEntry path e') eqn:E'; [exact IH'|now right|].
    exfalso. apply (Hok e'); [now left|exact E'].
Qed.

Lemma healthy_no_throw (path : string) (e : Entry) :
  healthy e -> scanEntry path e <> Throw.
Proof.
  destruct e as [n info|n es y]; [|now rewrite scanEntry_dir].
  simpl. intros H. destruct (Path.isAudioName n); [|discriminate].
  destruct info; [discriminate|]. now destruct (H eq_refl).
Qed.

(** X4.  The files that [refreshFiles] collects from a scan are files of
    the host with an audio extension, each one with the id made of its
    directory and its name, read through its handle, without children,
    and with the size, the date and the type that [getFile()] gave for
    it; the files of other kinds are not in the tree.  When nothing
    throws, every audio file of the host is collected. *)
Theorem scanned_files_are_audio (entries : list Entry) (yields : option nat)
    (path : string) :
  (forall f : FileSystemItem,
      In f (collect (scanDirectory entries yields path)) ->
      exists dir ename info,
        In (dir, ename, info) (flat_map (hostFiles path) entries)
        /\ Path.isAudioName ename = true
        /\ f = mkItem (fullPath dir ename) ename file true true []
                 (Some (f_size info)) (Some (f_lastModified info))
                 (Some (f_type info)))
  /\ (yields = None -> Forall healthy entries ->
      forall dir ename info,
        In (dir, ename, info) (flat_map (hostFiles path) entries) ->
        Path.isAudioName ename = true ->
        In (mkItem (fullPath dir ename) ename file true true []
              (Some (f_size info)) (Some (f_lastModified info)) (Some (f_type info)))
           (collect (scanDirectory entries yields path))).
Proof.
  unfold scanDirectory, collect. split.
  - assert (H : forall e path item f,
               scanEntry path e = Push item -> In f (collectItem item) ->
               exists dir ename info,
                 In (dir, ename, info) (hostFiles path e)
                 /\ Path.isAudioName ename = true
                 /\ f = mkItem (fullPath dir ename) ename file true true []
                          (Some (f_size info)) (Some (f_lastModified info))
                          (Some (f_type info))).
    { induction e as [n info|n es y IH] using Entry_tree_ind; intros p item f E Hin.
      - simpl in E. destruct (Path.isAudioName n) eqn:Ha; [|discriminate E].
        destruct info as [i|]; [|discriminate E]. injection E as <-.
        destruct Hin as [<-|[]]. exists p, n, i.
        split; [now left|split; [exact Ha|reflexivity]].
      - rewrite scanEntry_dir in E. injection E as <-.
        rewrite collectItem_eq in Hin. simpl in Hin. unfold collect in Hin.
        apply in_flat_map in Hin as (c & Hc & Hf).
        apply scanLoop_in in Hc as (e & He & Ee).
        rewrite List.Forall_forall in IH.
        destruct (IH e He _ _ _ Ee Hf) as (dir & ename & info & Hh & Ha & ->).
        exists dir, ename, info. split; [|split; [exact Ha|reflexivity]].
        rewrite hostFiles_dir. apply in_flat_map. now exists e. }
    intros f Hin. apply in_flat_map in Hin as (c & Hc & Hf).
    apply scanLoop_in in Hc as (e & He & Ee).
    destruct (H e path c f Ee Hf) as (dir & ename & info & Hh & Ha & ->).
    exists dir, ename, info. split; [|split; [exact Ha|reflexivity]].
    apply in_flat_map. now exists e.
  - intros -> Hhealthy dir ename info Hin Ha.
    assert (H : forall e path,
               healthy e -> In (dir, ename, info) (hostFiles path e) ->
               exists item,
                 scanEntry path e = Push item
                 /\ In (mkItem (fullPath dir ename) ename file true true []
                          (Some (f_size info)) (Some (f_lastModified info))
                          (Some (f_type info)))
                       (collectItem item)).
    { induction e as [n i|n es y IH] using Entry_tree_ind; intros p Hh Hi.
      - simpl in Hi. destruct i as [i|]; [|destruct Hi].
        destruct Hi as [[= <- <- <-]|[]]. simpl. rewrite Ha.
        eexists. split; [reflexivity|now left].
      - rewrite hostFiles_dir in Hi. apply in_flat_map in Hi as (e & He & Hi).
        apply healthy_dir in Hh as [-> Hh].
        rewrite List.Forall_forall in IH, Hh.
        destruct (IH e He (fullPath p n) (Hh e He) Hi) as (item & Ee & Hitem).
        rewrite scanEntry_dir. eexists. split; [reflexivity|].
        rewrite collectItem_eq. simpl. unfold collect. apply in_flat_map.
        exists item. split; [|exact Hitem].
        apply (scanLoop_complete _ es e item); [|exact He|exact Ee].
        intros e' He'. apply healthy_no_throw. now apply Hh. }
    apply in_flat_map in Hin as (e & He & Hi).
    rewrite List.Forall_forall in Hhealthy.
    destruct (H e path (Hhealthy e He) Hi) as (item & Ee & Hitem).
    apply in_flat_map. exists item. split; [|exact Hitem].
    apply (scanLoop_complete _ entries e item); [|exact He|exact Ee].
    intros e' He'. apply healthy_no_throw. now apply Hhealthy.
Qed.

Lemma scanned_files_are_audio_witness :
  Forall healthy SampleHost.library
  /\ In ("drums/808"%string, "snare.MP3"%string, mkInfo 2000 "" 50)
       (flat_map (hostFiles "") SampleHost.library)
  /\ In (mkItem "drums/808/snare.MP3" "snare.MP3" file true true []
           (Some 2000%Q) (Some 50%Q) (Some ""%string))
        (collect (scanDirectory SampleHost.library None "")).
Proof.
  assert (Hh : Forall healthy SampleHost.library)
    by (repeat constructor; discriminate).
  assert (Hi : In ("drums/808"%string, "snare.MP3"%string, mkInfo 2000 "" 50)
                 (flat_map (hostFiles "") SampleHost.library))
    by (vm_compute; tauto).
  split; [exact Hh|split; [exact Hi|]].
  exact (proj2 (scanned_files_are_audio SampleHost.library None "") eq_refl Hh
           "drums/808"%string "snare.MP3"%string (mkInfo 2000 "" 50) Hi eq_refl).
Defined.

Lemma append_inj_l (p a b : string) : (p ++ a)%string = (p ++ b)%string -> a = b.
Proof.
  induction p as [|c p IH]; [trivial|]. rewrite !append_cons. intros E.
  injection E as E. exact (IH E).
Qed.

Lemma unit_free_prefix (c : ascii) (a b r1 r2 : string) :
  Path.hasUnit c a = false -> Path.hasUnit c b = false ->
  (r1 = ""%string \/ exists x, r1 = String c x) ->
  (r2 = ""%string \/ exists x, r2 = String c x) ->
  (a ++ r1)%string = (b ++ r2)%string -> a = b.
Proof.
  revert b. induction a as [|d a IH]; intros b Ha Hb H1 H2 E.
  - destruct b as [|d b]; [reflexivity|]. rewrite append_cons in E.
    change (r1 = String d (b ++ r2)) in E. simpl in Hb.
    apply orb_false_iff in Hb as [Hd _].
    destruct H1 as [->|[x ->]]; [discriminate E|].
    injection E as -> _. now rewrite Ascii.eqb_refl in Hd.
  - simpl in Ha. apply orb_false_iff in Ha as [Hd Ha].
    destruct b as [|d' b].
    + rewrite append_cons in E. change (String d (a ++ r1) = r2) in E.
      destruct H2 as [->|[x ->]]; [discriminate E|].
      injection E as -> _. now rewrite Ascii.eqb_refl in Hd.
    + rewrite !append_cons in E. injection E as -> E.
      simpl in Hb. apply orb_false_iff in Hb as [_ Hb].
      f_equal. exact (IH b Ha Hb H1 H2 E).
Qed.

Lemma fullPath_prefix (path name : string) :
  fullPath path name
  = ((if String.eqb path "" then "" else path ++ "/") ++ name)%string.
Proof.
  unfold fullPath. destruct (String.eqb path ""); [reflexivity|].
  now rewrite append_assoc.
Qed.

Lemma fullPath_nonempty (path name : string) :
  name <> ""%string -> fullPath path name <> ""%string.
Proof.
  intros Hn. unfold fullPath. destruct (String.eqb path ""); [exact Hn|].
  destruct path; [|discriminate]. discriminate.
Qed.

Lemma under_tail (full i : string) :
  under full i ->
  exists s, i = (full ++ s)%string /\ (s = ""%string \/ exists x, s = String "/" x).
Proof.
  intros [->|[r ->]].
  - exists ""%string. split; [now rewrite append_nil_r|now left].
  - exists (String "/" r). split; [reflexivity|right; now exists r].
Qed.

(** Entries of different names have nothing in common below them. *)
Lemma under_fullPath_disjoint (path n1 n2 i : string) :
  n1 <> n2 -> Path.hasUnit "/" n1 = false -> Path.hasUnit "/" n2 = false ->
  under (fullPath path n1) i -> under (fullPath path n2) i -> False.
Proof.
  intros Hne H1 H2 U1 U2.
  apply under_tail in U1 as (s1 & E1 & T1). apply under_tail in U2 as (s2 & E2 & T2).
  rewrite fullPath_prefix, append_assoc in E1, E2. rewrite E1 in E2.
  apply append_inj_l in E2. apply Hne.
  exact (unit_free_prefix "/" n1 n2 s1 s2 H1 H2 T1 T2 E2).
Qed.

Lemma under_below (full name i : string) :
  full <> ""%string -> under (fullPath full name) i ->
  exists r, i = (full ++ String "/" r)%string.
Proof.
  intros Hf U. unfold fullPath in U.
  destruct (String.eqb_spec full "") as [E|_]; [contradiction|].
  destruct U as [->|[r ->]].
  - now exists name.
  - exists (name ++ String "/" r)%string.
    change (full ++ "/" ++ name)%string with (full ++ String "/" name)%string.
    now rewrite append_assoc.
Qed.

Lemma append_longer (a r : string) : a <> (a ++ String "/" r)%string.
Proof.
  induction a as [|c a IH]; [discriminate|].
  rewrite append_cons. intros E. injection E as E. exact (IH E).
Qed.

(** The ids of what an entry gives lie at or below its full path. *)
Lemma scanEntry_under (e : Entry) :
  wellNamed e ->
  forall path item n,
    scanEntry path e = Push item -> In n (nodesOf item) ->
    under (fullPath path (entryName e)) (id n).
Proof.
  induction e as [ename info|ename es y IH] using Entry_tree_ind;
    intros Hw path item n E Hin.
  - simpl in E. destruct (Path.isAudioName ename); [|discriminate E].
    destruct info; [|discriminate E]. injection E as <-.
    destruct Hin as [<-|[]]. now left.
  - rewrite scanEntry_dir in E. injection E as <-.
    apply wellNamed_dir in Hw as (Hne & _ & Hes).
    rewrite nodesOf_eq in Hin. destruct Hin as [<-|Hin]; [now left|].
    simpl in Hin. apply in_flat_map in Hin as (c & Hc & Hn).
    apply scanLoop_in in Hc as (e & He & Ee).
    rewrite List.Forall_forall in IH, Hes.
    pose proof (IH e He (Hes e He) _ _ _ Ee Hn) as U.
    right. simpl entryName.
    exact (under_below _ _ _ (fullPath_nonempty path ename Hne) U).
Qed.

Lemma scanLoop_nodup (path : string) (es : list Entry) :
  Forall wellNamed es ->
  NoDup (map entryName es) ->
  Forall (fun e => forall item, scanEntry path e = Push item ->
                                NoDup (map id (nodesOf item))) es ->
  forall budget, NoDup (map id (flat_map nodesOf (scanLoop path budget es))).
Proof.
  induction es as [|e es IH]; intros Hw Hnames Hes budget; simpl.
  - destruct (exhausted budget); constructor.
  - destruct (exhausted budget); [constructor|].
    inversion Hw as [|? ? Hwe Hwes]; subst.
    inversion Hnames as [|? ? Hfresh Hnames']; subst.
    inversion Hes as [|? ? He Hes']; subst.
    destruct (scanEntry path e) as [|item|] eqn:E;
      [now apply IH| |constructor].
    simpl. rewrite map_app. apply NoDup_app. split; [now apply He|].
    split; [|now apply IH].
    intros i Hi1 Hi2. apply list_elem_of_In in Hi1, Hi2.
    apply in_map_iff in Hi1 as (n1 & <- & Hn1).
    apply in_map_iff in Hi2 as (n2 & E2 & Hn2).
    apply in_flat_map in Hn2 as (c & Hc & Hn2).
    apply scanLoop_in in Hc as (e' & He' & Ee').
    rewrite List.Forall_forall in Hwes.
    pose proof (scanEntry_under e Hwe _ _ _ E Hn1) as U1.
    pose proof (scanEntry_under e' (Hwes e' He') _ _ _ Ee' Hn2) as U2.
    rewrite E2 in U2.
    assert (Hslash : forall x, wellNamed x -> Path.hasUnit "/" (entryName x) = false).
    { intros [x ?|x ? ?] Hx; [apply Hx|apply wellNamed_dir in Hx; apply Hx]. }
    apply (under_fullPath_disjoint path (entryName e) (entryName e') (id n1));
      [|now apply Hslash|apply Hslash; now apply Hwes|exact U1|exact U2].
    intros En. apply Hfresh. rewrite En. apply list_elem_of_In. now apply in_map.
Qed.

Lemma scanEntry_nodup (e : Entry) :
  wellNamed e -> distinctNames e ->
  forall path item, scanEntry path e = Push item -> NoDup (map id (nodesOf item)).
Proof.
  induction e as [ename info|ename es y IH] using Entry_tree_ind;
    intros Hw Hd path item E.
  - simpl in E. destruct (Path.isAudioName ename); [|discriminate E].
    destruct info; [|discriminate E]. injection E as <-.
    simpl. constructor; [|constructor]. intros Hin. now apply list_elem_of_In in Hin.
  - rewrite scanEntry_dir in E. injection E as <-.
    pose proof Hw as Hw'. apply wellNamed_dir in Hw' as (Hne & Hslash & Hes).
    apply distinctNames_dir in Hd as (Hnames & Hds).
    rewrite nodesOf_eq. simpl. constructor.
    + intros Hin. apply list_elem_of_In in Hin.
      apply in_map_iff in Hin as (n & En & Hin).
      apply in_flat_map in Hin as (c & Hc & Hn).
      apply scanLoop_in in Hc as (e & He & Ee).
      rewrite List.Forall_forall in Hes.
      pose proof (scanEntry_under e (Hes e He) _ _ _ Ee Hn) as U.
      apply under_below in U as [r Er]; [|now apply fullPath_nonempty].
      rewrite En in Er. exact (append_longer _ _ Er).
    + apply scanLoop_nodup; [exact Hes|exact Hnames|].
      rewrite List.Forall_forall in IH, Hes, Hds. apply List.Forall_forall.
      intros e He item Ee. exact (IH e He (Hes e He) (Hds e He) _ _ Ee).
Qed.

(** X5.  When the names of the host tree are non-empty, hold no slash and
    differ inside each directory, no two nodes of the scanned tree have
    the same id, also when the scan is cut short by an exception. *)
Theorem scanned_ids_unique (entries : list Entry) (yields : option nat) (path : string) :
  Forall wellNamed entries ->
  NoDup (map entryName entries) ->
  Forall distinctNames entries ->
  NoDup (map id (flat_map nodesOf (scanDirectory entries yields path))).
Proof.
  intros Hw Hnames Hd. unfold scanDirectory.
  apply scanLoop_nodup; [exact Hw|exact Hnames|].
  rewrite List.Forall_forall in Hw, Hd. apply List.Forall_forall.
  intros e He item Ee. exact (scanEntry_nodup e (Hw e He) (Hd e He) _ _ Ee).
Qed.

End ScannerFacts.

Lemma scanned_ids_unique_witness :
  NoDup (map id (flat_map nodesOf (Scanner.scanDirectory SampleHost.library None ""))).
Proof.
  apply (scanned_ids_unique SampleHost.library None "").
  - repeat constructor; try discriminate.
  - apply (bool_decide_unpack _). vm_compute. exact I.
  - repeat constructor; try (apply (bool_decide_unpack _); vm_compute; exact I).
Defined.
(** ** The folder shown *)

Section FolderFacts.
Import Folder.

Lemma find_app {A : Type} (p : A -> bool) (l l' : list A) :
  find p (l ++ l') = match find p l with Some x => Some x | None => find p l' end.
Proof.
  induction l as [|x l IH]; [reflexivity|]. simpl. destruct (p x); [reflexivity|exact IH].
Qed.

Lemma findInNode_find (node : FileSystemItem) (i : string) :
  findInNode node i = find (fun n => String.eqb (id n) i) (nodesOf node).
Proof.
  induction node as [nid n k v h cs s l t IH] using FileSystemItem_tree_ind.
  rewrite nodesOf_eq. simpl. destruct (String.eqb nid i); [reflexivity|].
  induction IH as [|c cs Hc _ IHcs]; [reflexivity|].
  simpl. rewrite find_app, <- Hc. destruct (findInNode c i); [reflexivity|exact IHcs].
Qed.

Lemma findInTree_find (nodes : list FileSystemItem) (i : string) :
  findInTree nodes i = find (fun n => String.eqb (id n) i) (flat_map nodesOf nodes).
Proof.
  induction nodes as [|n nodes IH]; [reflexivity|].
  simpl. rewrite find_app, <- findInNode_find, IH. reflexivity.
Qed.

(** X6.  [findInTree] gives the first node with the id in the order that
    lists a node before its descendants and these before its later
    siblings, and [null] exactly when no node has the id. *)
Theorem findInTree_preorder (nodes : list FileSystemItem) (i : string) :
  findInTree nodes i = find (fun n => String.eqb (id n) i) (flat_map nodesOf nodes)
  /\ (findInTree nodes i = None
      <-> forall n, In n (flat_map nodesOf nodes) -> id n <> i).
Proof.
  split; [apply findInTree_find|]. rewrite findInTree_find. split.
  - intros Hnone n Hn E.
    pose proof (find_none _ _ Hnone n Hn) as Hf. simpl in Hf.
    rewrite E, String.eqb_refl in Hf. discriminate Hf.
  - intros Hall. destruct (find _ _) as [n|] eqn:E; [|reflexivity].
    apply find_some in E as [Hn E]. apply String.eqb_eq in E.
    now destruct (Hall n Hn).
Qed.

Lemma find_unique (l : list FileSystemItem) (d : FileSystemItem) :
  NoDup (map id l) -> In d l ->
  find (fun n => String.eqb (id n) (id d)) l = Some d.
Proof.
  induction l as [|x l IH]; intros Hnd Hin; [destruct Hin|].
  simpl in Hnd. apply NoDup_cons in Hnd as [Hx Hnd]. simpl.
  destruct Hin as [->|Hin]; [now rewrite String.eqb_refl|].
  destruct (String.eqb_spec (id x) (id d)) as [E|_]; [|now apply IH].
  exfalso. apply Hx. rewrite E. apply list_elem_of_In. now apply in_map.
Qed.

(** X7.  With [currentPath] the id of a node of a scanned tree whose host
    names are non-empty, slash-free and distinct inside each directory,
    [currentFolderItems] is the list of children of that very node,
    unless the id is ['root']. *)
Theorem currentFolderItems_of_scan (entries : list Scanner.Entry) (yields : option nat)
    (rootName : string) (d : FileSystemItem) :
  Forall Scanner.wellNamed entries ->
  NoDup (map Scanner.entryName entries) ->
  Forall Scanner.distinctNames entries ->
  In d (flat_map nodesOf (Scanner.scanDirectory entries yields "")) ->
  id d <> "root"%string ->
  currentFolderItems [rootItem rootName (Scanner.scanDirectory entries yields "")] (id d)
  = children d.
Proof.
  intros Hw Hn Hd Hin Hroot. unfold currentFolderItems.
  destruct (String.eqb_spec (id d) "root") as [E|_]; [contradiction|].
  assert (Hnd : NoDup (map id (flat_map nodesOf (Scanner.scanDirectory entries yields "")))).
  { unfold Scanner.scanDirectory. apply scanLoop_nodup; [exact Hw|exact Hn|].
    rewrite List.Forall_forall in Hw, Hd. apply List.Forall_forall.
    intros e He item Ee. exact (scanEntry_nodup e (Hw e He) (Hd e He) _ _ Ee). }
  rewrite findInTree_find. cbn [flat_map]. rewrite app_nil_r, nodesOf_eq.
  change (children (rootItem rootName (Scanner.scanDirectory entries yields "")))
    with (Scanner.scanDirectory entries yields "").
  cbn [find]. change (id (rootItem rootName (Scanner.scanDirectory entries yields "")))
    with "root"%string.
  destruct (String.eqb_spec "root" (id d)) as [E|_]; [now symmetry in E|].
  now rewrite (find_unique _ d Hnd Hin).
Qed.

End FolderFacts.

Lemma currentFolderItems_of_scan_witness :
  let tree := Scanner.scanDirectory SampleHost.library None "" in
  Folder.currentFolderItems [Folder.rootItem "Samples" tree] "drums/808"
  = [mkItem "drums/808/snare.MP3" "snare.MP3" file true true []
       (Some 2000%Q) (Some 50%Q) (Some ""%string)].
Proof.
  intros tree.
  apply (currentFolderItems_of_scan SampleHost.library None "Samples"
           (mkItem "drums/808" "808" directory false true
              [mkItem "drums/808/snare.MP3" "snare.MP3" file true true []
                 (Some 2000%Q) (Some 50%Q) (Some ""%string)] None None None)).
  - repeat constructor; try discriminate.
  - apply (bool_decide_unpack _). vm_compute. exact I.
  - repeat constructor; try (apply (bool_decide_unpack _); vm_compute; exact I).
  - vm_compute. tauto.
  - discriminate.
Defined.
(** ** The explorer *)

Section ExpansionFacts.
Import Explorer.

Lemma join_app (c : ascii) (l1 l2 : list string) :
  l1 <> [] -> l2 <> [] ->
  Path.join c (l1 ++ l2) = (Path.join c l1 ++ String c (Path.join c l2))%string.
Proof.
  intros H1 H2. induction l1 as [|x l1 IH]; [contradiction|].
  destruct l1 as [|y l1].
  - change ([x] ++ l2) with (x :: l2). now rewrite join_cons.
  - change ((x :: y :: l1) ++ l2) with (x :: ((y :: l1) ++ l2)).
    rewrite join_cons by discriminate. rewrite IH by discriminate.
    rewrite (join_cons c x (y :: l1)) by discriminate.
    rewrite append_assoc. reflexivity.
Qed.

(** The parents of an id are its prefixes that end before a slash. *)
Lemma in_parentsOf (activeId x : string) :
  In x (parentsOf activeId) <-> exists rest, activeId = (x ++ String "/" rest)%string.
Proof.
  unfold parentsOf. rewrite in_map_iff. split.
  - intros (i & <- & Hi). apply in_seq in Hi.
    exists (Path.join "/" (skipn i (Path.splitOn "/" activeId))).
    rewrite <- join_app.
    + rewrite firstn_skipn. symmetry. apply join_splitOn.
    + intros E. apply (f_equal (@length string)) in E.
      rewrite length_firstn in E. simpl in E. lia.
    + intros E. apply (f_equal (@length string)) in E.
      rewrite length_skipn in E. simpl in E. lia.
  - intros [rest ->]. rewrite splitOn_app.
    exists (length (Path.splitOn "/" x)). split.
    + rewrite take_app_length. apply join_splitOn.
    + apply in_seq. rewrite length_app.
      pose proof (splitOn_nonempty "/" x) as H1.
      pose proof (splitOn_nonempty "/" rest) as H2.
      destruct (Path.splitOn "/" x); [contradiction|].
      destruct (Path.splitOn "/" rest); [contradiction|]. simpl. lia.
Qed.

Lemma autoExpand_parents (activeId : string) (prev : gset string) (x : string) :
  (exists rest, activeId = (x ++ String "/" rest)%string) ->
  x ∈ autoExpand (Some activeId) prev.
Proof.
  intros H. pose proof (proj2 (in_parentsOf activeId x) H) as Hin.
  unfold autoExpand. destruct (String.eqb_spec activeId "") as [->|_].
  - destruct H as [rest E]. now destruct x.
  - destruct (parentsOf activeId) as [|p ps] eqn:E; [destruct Hin|].
    change (0 <? length (p :: ps))%nat with true. cbv iota.
    apply elem_of_union. right. apply elem_of_list_to_set. now apply list_elem_of_In.
Qed.

(** X8.  After the effect on [activeId] the expanded set holds what it
    held before and, besides, exactly the proper prefixes of the id that
    end before a slash: the ids of the folders above the active file. *)
Theorem autoExpand_spec (activeId : string) (prev : gset string) (x : string) :
  x ∈ autoExpand (Some activeId) prev
  <-> x ∈ prev \/ exists rest, activeId = (x ++ String "/" rest)%string.
Proof.
  unfold autoExpand. rewrite <- in_parentsOf.
  destruct (String.eqb_spec activeId "") as [->|_].
  - split; [now left|]. intros [H|H]; [exact H|]. destruct H.
  - destruct (parentsOf activeId) as [|p ps] eqn:E.
    + split; [now left|]. intros [H|[]]. exact H.
    + change (0 <? length (p :: ps))%nat with true. cbv iota.
      rewrite elem_of_union, elem_of_list_to_set, list_elem_of_In. reflexivity.
Qed.

End ExpansionFacts.

Section RowFacts.
Import Filter.
Variable engine : JS.str -> JS.str -> JS.str -> option bool.
Variable arraySort : (Row -> Row -> Z) -> list Row -> list Row.
Variable fc : FilterCriteria.
Variables durations ratings : gmap string Q.
Variable sortKey : SortKey.
Variable sortOrder : SortOrder.
Variable expanded : gset string.
Hypothesis arraySort_perm : forall cmp l, Permutation (arraySort cmp l) l.

Local Notation "'pn'" :=
  (processNode engine arraySort fc durations ratings sortKey sortOrder expanded).
Local Notation "'accepts'" := (treeAccepts engine fc durations ratings).

Lemma in_nodesOf_self (node : FileSystemItem) : In node (nodesOf node).
Proof. rewrite nodesOf_eq. now left. Qed.

Lemma nodesOf_trans (node : FileSystemItem) :
  forall d x, In d (nodesOf node) -> In x (nodesOf d) -> In x (nodesOf node).
Proof.
  induction node as [i n k v h cs s l t IH] using FileSystemItem_tree_ind.
  intros d x Hd Hx. rewrite nodesOf_eq in Hd. destruct Hd as [<-|Hd]; [exact Hx|].
  rewrite nodesOf_eq. right. simpl in *.
  apply in_flat_map in Hd as (c & Hc & Hd). apply in_flat_map. exists c.
  split; [exact Hc|]. rewrite List.Forall_forall in IH. exact (IH c Hc d x Hd Hx).
Qed.

Lemma collectItem_nodes (node f : FileSystemItem) :
  In f (collectItem node) -> In f (nodesOf node).
Proof.
  induction node as [i n k v h cs s l t IH] using FileSystemItem_tree_ind.
  rewrite collectItem_eq, nodesOf_eq. simpl. destruct k.
  - intros [<-|[]]. now left.
  - intros Hin. right. unfold collect in Hin.
    apply in_flat_map in Hin as (c & Hc & Hf). apply in_flat_map. exists c.
    split; [exact Hc|]. rewrite List.Forall_forall in IH. now apply IH.
Qed.

(** An accepted file below expanded directories has a row. *)
Lemma rows_reach (node : FileSystemItem) :
  forall depth f,
    In f (collectItem node) -> accepts f = true ->
    (forall d, In d (nodesOf node) -> kind d = directory ->
               In f (collectItem d) -> id d ∈ expanded) ->
    In f (map row_item (pn node depth [])).
Proof.
  induction node as [i n k v h cs s l t IH] using FileSystemItem_tree_ind.
  intros depth f Hin Ha Hexp. destruct k.
  - destruct Hin as [<-|[]]. rewrite processNode_file, Ha. now left.
  - pose proof (Hexp _ (in_nodesOf_self _) eq_refl Hin) as Hi. simpl in Hi.
    rewrite collectItem_eq in Hin. simpl in Hin. unfold collect in Hin.
    apply in_flat_map in Hin as (c & Hc & Hf).
    rewrite List.Forall_forall in IH.
    assert (Hrow : In f (map row_item (pn c (S depth) []))).
    { apply (IH c Hc (S depth) f Hf Ha). intros d Hd Hk Hfd.
      apply Hexp; [|exact Hk|exact Hfd].
      rewrite nodesOf_eq. right. simpl. apply in_flat_map. now exists c. }
    apply in_map_iff in Hrow as (row & Erow & Hrow).
    rewrite processNode_directory_rows. cbv zeta.
    rewrite (bool_decide_eq_true_2 _ Hi). simpl orb.
    assert (Hfound : In row (flat_map (fun c => pn c (S depth) []) cs)).
    { apply in_flat_map. now exists c. }
    destruct (flat_map (fun c => pn c (S depth) []) cs) as [|r0 found] eqn:E;
      [destruct Hfound|].
    change (0 <? length (r0 :: found))%nat with true. simpl orb. cbv iota.
    apply in_map_iff. exists row. split; [exact Erow|]. right.
    eapply Permutation_in; [symmetry; apply arraySort_perm|exact Hfound].
Qed.

Lemma flat_map_nodup_part {A B C : Type} (g : B -> C) (h : A -> list B)
    (l : list A) (a : A) :
  NoDup (map g (flat_map h l)) -> In a l -> NoDup (map g (h a)).
Proof.
  induction l as [|x l IH]; intros Hnd Hin; [destruct Hin|].
  simpl in Hnd. rewrite map_app in Hnd. apply NoDup_app in Hnd as (H1 & _ & H2).
  destruct Hin as [->|Hin]; [exact H1|now apply IH].
Qed.

Lemma flat_map_nodup_owner {A B C : Type} (g : B -> C) (h : A -> list B)
    (l : list A) (a b : A) (x : B) :
  NoDup (map g (flat_map h l)) -> In a l -> In b l ->
  In x (h a) -> In x (h b) -> a = b.
Proof.
  induction l as [|y l IH]; intros Hnd Ha Hb Hxa Hxb; [destruct Ha|].
  simpl in Hnd. rewrite map_app in Hnd. apply NoDup_app in Hnd as (H1 & H12 & H2).
  assert (Hclash : forall c, In c l -> In x (h y) -> In x (h c) -> False).
  { intros c Hc Hy Hxc. apply (H12 (g x)).
    - apply list_elem_of_In. now apply in_map.
    - apply list_elem_of_In. apply in_map. apply in_flat_map. now exists c. }
  destruct Ha as [->|Ha], Hb as [->|Hb].
  - reflexivity.
  - exfalso. exact (Hclash b Hb Hxa Hxb).
  - exfalso. exact (Hclash a Ha Hxb Hxa).
  - now apply IH.
Qed.

(** A listed file has every directory above it expanded. *)
Lemma rows_need (node : FileSystemItem) :
  NoDup (map id (nodesOf node)) ->
  forall depth f,
    kind f = file -> In f (map row_item (pn node depth [])) ->
    forall d, In d (nodesOf node) -> kind d = directory ->
              In f (collectItem d) -> id d ∈ expanded.
Proof.
  induction node as [i n k v h cs s l t IH] using FileSystemItem_tree_ind.
  intros Hnd depth f Hk Hrow d Hd Hkd Hfd. destruct k.
  - rewrite processNode_file in Hrow.
    destruct (accepts _); [|destruct Hrow]. destruct Hrow as [<-|[]].
    rewrite nodesOf_eq in Hnd, Hd. simpl in Hnd, Hd.
    destruct Hd as [<-|Hd]; [discriminate Hkd|].
    apply NoDup_cons in Hnd as [Hfresh _]. exfalso. apply Hfresh.
    apply list_elem_of_In.
    apply (in_map id _ (mkItem i n file v h cs s l t)).
    apply in_flat_map in Hd as (c & Hc & Hd). apply in_flat_map. exists c.
    split; [exact Hc|]. apply (nodesOf_trans c d _ Hd). now apply collectItem_nodes.
  - rewrite nodesOf_eq in Hnd, Hd. simpl in Hnd, Hd.
    apply NoDup_cons in Hnd as [_ Hnd].
    rewrite processNode_directory_rows in Hrow. cbv zeta in Hrow.
    apply in_map_iff in Hrow as (row & Erow & Hrow).
    assert (Hi : bool_decide (i ∈ expanded) = true
                 /\ In row (flat_map (fun c => pn c (S depth) []) cs)).
    { destruct (bool_decide (i ∈ expanded)) eqn:Ei; simpl orb in Hrow.
      - split; [reflexivity|].
        destruct (_ || _) in Hrow; [|exact Hrow].
        destruct Hrow as [<-|Hrow]; [subst f; simpl in Hk; congruence|].
        eapply Permutation_in; [apply arraySort_perm|exact Hrow].
      - exfalso.
        remember (if searchActive fc
                  then flat_map (fun c => pn c (S depth) []) cs else []) as fnd eqn:Ef.
        clear Ef. destruct fnd as [|r0 rest].
        + simpl in Hrow. destruct (_ && _) in Hrow; [|destruct Hrow].
          destruct Hrow as [<-|[]]. subst f. simpl in Hk. congruence.
        + change (0 <? length (r0 :: rest))%nat with true in Hrow.
          simpl orb in Hrow. cbv iota in Hrow.
          destruct Hrow as [<-|[]]. subst f. simpl in Hk. congruence. }
    destruct Hi as [Hi Hfound]. apply bool_decide_eq_true_1 in Hi.
    destruct Hd as [<-|Hd]; [exact Hi|].
    apply in_flat_map in Hfound as (c & Hc & Hrowc).
    apply in_flat_map in Hd as (c' & Hc' & Hd).
    assert (Hfc : In f (collectItem c)).
    { subst f. now apply (rows_sound engine arraySort fc durations ratings sortKey
                            sortOrder expanded arraySort_perm c (S depth) row). }
    assert (E : c = c').
    { apply (flat_map_nodup_owner id nodesOf cs c c' f Hnd Hc Hc').
      - now apply collectItem_nodes.
      - apply (nodesOf_trans c' d f Hd). now apply collectItem_nodes. }
    subst c'. rewrite List.Forall_forall in IH.
    apply (IH c Hc (flat_map_nodup_part id nodesOf cs c Hnd Hc) (S depth) f Hk);
      [|exact Hd|exact Hkd|exact Hfd].
    apply in_map_iff. now exists row.
Qed.

(** X9.  In a tree whose ids are all different, a file is listed by the
    explorer exactly when it passes the filters of the tree and every
    directory that holds it is expanded: an active search does not list
    the files of a collapsed directory. *)
Theorem file_listed_iff (items : list FileSystemItem) (f : FileSystemItem) :
  NoDup (map id (flat_map nodesOf items)) ->
  In f (collect items) ->
  (In f (map row_item
           (flattenedList engine arraySort fc durations ratings sortKey sortOrder
              expanded items))
   <-> accepts f = true
       /\ forall d, In d (flat_map nodesOf items) -> kind d = directory ->
                    In f (collectItem d) -> id d ∈ expanded).
Proof.
  intros Hnd Hf. rewrite flattenedList_flat_map.
  assert (Hk : kind f = file).
  { unfold collect in Hf. apply in_flat_map in Hf as (c & _ & Hf).
    exact (collectItem_kind c f Hf). }
  split.
  - intros Hrow. apply in_map_iff in Hrow as (row & Erow & Hrow).
    apply in_flat_map in Hrow as (c & Hc & Hrow).
    rewrite <- Erow in Hk.
    destruct (rows_sound engine arraySort fc durations ratings sortKey sortOrder
                expanded arraySort_perm c 0 row Hrow Hk) as [Hfc Ha].
    rewrite Erow in Hfc, Ha, Hk. split; [exact Ha|].
    intros d Hd Hkd Hfd. apply in_flat_map in Hd as (c' & Hc' & Hd).
    assert (E : c = c').
    { apply (flat_map_nodup_owner id nodesOf items c c' f Hnd Hc Hc').
      - now apply collectItem_nodes.
      - apply (nodesOf_trans c' d f Hd). now apply collectItem_nodes. }
    subst c'.
    apply (rows_need c (flat_map_nodup_part id nodesOf items c Hnd Hc) 0 f Hk);
      [|exact Hd|exact Hkd|exact Hfd].
    apply in_map_iff. now exists row.
  - intros [Ha Hexp]. unfold collect in Hf. apply in_flat_map in Hf as (c & Hc & Hf).
    assert (Hrow : In f (map row_item (pn c 0 []))).
    { apply rows_reach; [exact Hf|exact Ha|]. intros d Hd. apply Hexp.
      apply in_flat_map. now exists c. }
    apply in_map_iff in Hrow as (row & Erow & Hrow).
    apply in_map_iff. exists row. split; [exact Erow|].
    apply in_flat_map. now exists c.
Qed.

End RowFacts.
Lemma file_listed_iff_witness :
  In (Sample.track "kit/snare.wav")
    (map row_item
       (Filter.flattenedList Search.literalEngine Sample.referenceSort Sample.wideOpen
          ∅ ∅ key_name asc {["kit"%string]} [Sample.kit])).
Proof.
  apply (file_listed_iff Search.literalEngine Sample.referenceSort Sample.wideOpen
           ∅ ∅ key_name asc {["kit"%string]}
           (fun cmp l => stableSort_perm cmp l) [Sample.kit]
           (Sample.track "kit/snare.wav")).
  - apply (bool_decide_unpack _). vm_compute. exact I.
  - simpl. now left.
  - split; [reflexivity|].
    intros d [<-|[<-|[]]] Hk Hf; [|discriminate Hk].
    now apply elem_of_singleton.
Defined.

Section ActiveRowFacts.
Import Scanner Explorer Filter.

(** In a scanned tree the id of a file continues the id of every
    directory that holds it. *)
Lemma scan_ancestors (e : Entry) :
  wellNamed e ->
  forall path item d f,
    scanEntry path e = Push item ->
    In d (nodesOf item) -> kind d = directory -> In f (collectItem d) ->
    exists rest, id f = (id d ++ String "/" rest)%string.
Proof.
  induction e as [ename info|ename es y IH] using Entry_tree_ind;
    intros Hw path item d f E Hd Hk Hf.
  - simpl in E. destruct (Path.isAudioName ename); [|discriminate E].
    destruct info; [|discriminate E]. injection E as <-.
    destruct Hd as [<-|[]]. discriminate Hk.
  - rewrite scanEntry_dir in E. injection E as <-.
    apply wellNamed_dir in Hw as (Hne & _ & Hes).
    rewrite List.Forall_forall in IH, Hes.
    rewrite nodesOf_eq in Hd. simpl in Hd. destruct Hd as [<-|Hd].
    + rewrite collectItem_eq in Hf. simpl in Hf. unfold collect in Hf.
      apply in_flat_map in Hf as (c & Hc & Hf).
      apply scanLoop_in in Hc as (e & He & Ee).
      apply collectItem_nodes in Hf.
      pose proof (scanEntry_under e (Hes e He) _ _ _ Ee Hf) as U.
      simpl id. exact (under_below _ _ _ (fullPath_nonempty path ename Hne) U).
    + apply in_flat_map in Hd as (c & Hc & Hd).
      apply scanLoop_in in Hc as (e & He & Ee).
      exact (IH e He (Hes e He) _ _ d f Ee Hd Hk Hf).
Qed.

(** X10.  Once the effect on [activeId] has run for a file of a scanned
    tree that passes the filters, the file has a row in the explorer,
    whatever was expanded or collapsed before. *)
Theorem active_file_is_listed
    (engine : JS.str -> JS.str -> JS.str -> option bool)
    (arraySort : (Row -> Row -> Z) -> list Row -> list Row)
    (fc : FilterCriteria) (durations ratings : gmap string Q)
    (sortKey : SortKey) (sortOrder : SortOrder) (prev : gset string)
    (entries : list Entry) (yields : option nat) (path : string) (f : FileSystemItem) :
  (forall cmp l, Permutation (arraySort cmp l) l) ->
  Forall wellNamed entries ->
  In f (collect (scanDirectory entries yields path)) ->
  treeAccepts engine fc durations ratings f = true ->
  In f (map row_item
          (flattenedList engine arraySort fc durations ratings sortKey sortOrder
             (autoExpand (Some (id f)) prev) (scanDirectory entries yields path))).
Proof.
  intros Hperm Hw Hf Ha. rewrite flattenedList_flat_map.
  unfold collect in Hf. apply in_flat_map in Hf as (c & Hc & Hf).
  assert (Hrow : In f (map row_item
                         (processNode engine arraySort fc durations ratings sortKey
                            sortOrder (autoExpand (Some (id f)) prev) c 0 []))).
  { apply rows_reach; [exact Hperm|exact Hf|exact Ha|].
    intros d Hd Hk Hfd. apply autoExpand_parents.
    unfold scanDirectory in Hc. apply scanLoop_in in Hc as (e & He & Ee).
    rewrite List.Forall_forall in Hw.
    exact (scan_ancestors e (Hw e He) _ _ d f Ee Hd Hk Hfd). }
  apply in_map_iff in Hrow as (row & Erow & Hrow).
  apply in_map_iff. exists row. split; [exact Erow|].
  apply in_flat_map. now exists c.
Qed.

Lemma active_file_is_listed_witness :
  let snare := mkItem "drums/808/snare.MP3" "snare.MP3" file true true []
                 (Some 2000%Q) (Some 50%Q) (Some ""%string) in
  In snare
    (map row_item
       (flattenedList Search.literalEngine Sample.referenceSort Sample.wideOpen
          ∅ ∅ key_name asc (autoExpand (Some (id snare)) {["root"%string]})
          (scanDirectory SampleHost.library None ""))).
Proof.
  intros snare.
  apply (active_file_is_listed Search.literalEngine Sample.referenceSort Sample.wideOpen
           ∅ ∅ key_name asc {["root"%string]} SampleHost.library None "" snare
           (fun cmp l => stableSort_perm cmp l)).
  - repeat constructor; try discriminate.
  - vm_compute. tauto.
  - reflexivity.
Defined.

End ActiveRowFacts.

Section WindowFacts.
Import Explorer.
Context {A : Type}.

Lemma slice_nth (l : list A) (s e : Z) (i : nat) :
  (0 <= s <= Z.of_nat i)%Z -> (Z.of_nat i < e)%Z -> (i < length l)%nat ->
  nth_error (slice l s e) (i - Z.to_nat s) = nth_error l i.
Proof.
  intros Hs He Hi. unfold slice.
  replace (s <? 0)%Z with false by (symmetry; apply Z.ltb_ge; lia).
  replace (e <? 0)%Z with false by (symmetry; apply Z.ltb_ge; lia).
  rewrite nth_error_firstn, nth_error_skipn.
  replace (Z.to_nat (Z.min s (Z.of_nat (length l))) + (i - Z.to_nat s))%nat with i by lia.
  replace (i - Z.to_nat s <?
           Z.to_nat (Z.min e (Z.of_nat (length l)) - Z.min s (Z.of_nat (length l))))%nat
    with true by (symmetry; apply Nat.ltb_lt; lia).
  reflexivity.
Qed.

Lemma Qfloor_lt_succ (x : Q) (i : Z) : (x < inject_Z (i + 1))%Q -> (Qfloor x <= i)%Z.
Proof.
  intros H. pose proof (Qfloor_le x) as Hf.
  assert (Hlt : (inject_Z (Qfloor x) < inject_Z (i + 1))%Q)
    by (eapply Qle_lt_trans; eassumption).
  rewrite <- Zlt_Qlt in Hlt. lia.
Qed.

Lemma Qfloor_ge_int (x : Q) (i : Z) : (inject_Z i <= x)%Q -> (i <= Qfloor x)%Z.
Proof. intros H. rewrite <- (Qfloor_Z i). now apply Qfloor_resp_le. Qed.

Lemma ROW_HEIGHT_pos : (0 < ROW_HEIGHT)%Q.
Proof. reflexivity. Qed.

(** A row that meets the viewport lies between the two ends of the
    window. *)
Lemma window_bounds (len i : nat) (scrollTop viewportHeight : Q) :
  (i < len)%nat ->
  (inject_Z (Z.of_nat i) * ROW_HEIGHT < scrollTop + viewportHeight)%Q ->
  (scrollTop < inject_Z (Z.of_nat i + 1) * ROW_HEIGHT)%Q ->
  (0 <= startIndex scrollTop <= Z.of_nat i)%Z
  /\ (Z.of_nat i < endIndex len scrollTop viewportHeight)%Z.
Proof.
  intros Hi Hbottom Htop. unfold startIndex, endIndex.
  assert (H1 : (Qfloor (scrollTop / ROW_HEIGHT) <= Z.of_nat i)%Z).
  { apply Qfloor_lt_succ. apply Qlt_shift_div_r; [exact ROW_HEIGHT_pos|exact Htop]. }
  assert (H2 : (Z.of_nat i <= Qfloor ((scrollTop + viewportHeight) / ROW_HEIGHT))%Z).
  { apply Qfloor_ge_int. apply Qle_shift_div_l; [exact ROW_HEIGHT_pos|].
    now apply Qlt_le_weak. }
  lia.
Qed.

(** X11.  Every row that meets the viewport (its top above the lower
    edge, its bottom below the upper edge) is among the rendered rows, and
    the [top] it is rendered at is its index times the row height. *)
Theorem viewport_rows_rendered (flattenedList : list A) (scrollTop viewportHeight : Q)
    (i : nat) (row : A) :
  nth_error flattenedList i = Some row ->
  (inject_Z (Z.of_nat i) * ROW_HEIGHT < scrollTop + viewportHeight)%Q ->
  (scrollTop < inject_Z (Z.of_nat i + 1) * ROW_HEIGHT)%Q ->
  exists idx,
    nth_error (visibleItems flattenedList scrollTop viewportHeight) idx = Some row
    /\ rowTop scrollTop idx = (inject_Z (Z.of_nat i) * ROW_HEIGHT)%Q.
Proof.
  intros Hrow Hbottom Htop.
  assert (Hi : (i < length flattenedList)%nat)
    by (apply nth_error_Some; congruence).
  destruct (window_bounds _ _ _ _ Hi Hbottom Htop) as [Hs He].
  exists (i - Z.to_nat (startIndex scrollTop))%nat. split.
  - unfold visibleItems. rewrite slice_nth by assumption. exact Hrow.
  - unfold rowTop. do 2 f_equal. lia.
Qed.

(** X12.  A rendered row is the row of the list at the index its [top]
    is computed from. *)
Theorem rendered_row_index (flattenedList : list A) (scrollTop viewportHeight : Q)
    (idx : nat) (row : A) :
  nth_error (visibleItems flattenedList scrollTop viewportHeight) idx = Some row ->
  nth_error flattenedList (Z.to_nat (startIndex scrollTop) + idx) = Some row.
Proof.
  unfold visibleItems, slice.
  assert (Hs : (0 <= startIndex scrollTop)%Z) by (unfold startIndex; lia).
  replace (startIndex scrollTop <? 0)%Z with false by (symmetry; apply Z.ltb_ge; lia).
  rewrite nth_error_firstn, nth_error_skipn.
  destruct (_ <? _)%nat; [|discriminate].
  intros H.
  destruct (Z.le_gt_cases (startIndex scrollTop) (Z.of_nat (length flattenedList)))
    as [Hle|Hgt].
  - now rewrite Z.min_l in H by exact Hle.
  - rewrite Z.min_r in H by lia. rewrite Nat2Z.id in H.
    assert (Hnone : nth_error flattenedList (length flattenedList + idx) = None)
      by (apply nth_error_None; lia).
    congruence.
Qed.

End WindowFacts.
Lemma viewport_rows_rendered_witness :
  exists idx,
    nth_error (Explorer.visibleItems (seq 0 100) 1700 600) idx = Some 60%nat
    /\ Explorer.rowTop 1700 idx = (inject_Z (Z.of_nat 60) * Explorer.ROW_HEIGHT)%Q.
Proof.
  apply (viewport_rows_rendered (seq 0 100) 1700 600 60 60%nat); reflexivity.
Defined.

Lemma rendered_row_index_witness :
  nth_error (seq 0 100) (Z.to_nat (Explorer.startIndex 1700) + 0) = Some 40%nat.
Proof.
  apply (rendered_row_index (seq 0 100) 1700 600 0 40%nat). reflexivity.
Defined.

Section CentreFacts.
Import Explorer.

Lemma findIndexFrom_nth (rows : list Row) (activeId : string) :
  forall i,
    findIndexFrom i rows activeId <> (-1)%Z -> (0 <= i)%Z ->
    (i <= findIndexFrom i rows activeId)%Z
    /\ exists row,
         nth_error rows (Z.to_nat (findIndexFrom i rows activeId - i)) = Some row
         /\ id (row_item row) = activeId.
Proof.
  induction rows as [|r rows IH]; intros i Hne Hi; simpl in *; [contradiction|].
  destruct (String.eqb_spec (id (row_item r)) activeId) as [E|_].
  - split; [lia|]. exists r. rewrite Z.sub_diag. now split.
  - destruct (IH (i + 1)%Z Hne ltac:(lia)) as [Hle (row & Hrow & E)].
    split; [lia|]. exists row. split; [|exact E].
    replace (Z.to_nat (findIndexFrom (i + 1) rows activeId - i))
      with (S (Z.to_nat (findIndexFrom (i + 1) rows activeId - (i + 1)))) by lia.
    exact Hrow.
Qed.

(** X13.  At the position the centring effect asks [scrollTo] for, the
    row of the active entry is among the rendered rows. *)
Theorem centred_row_rendered (activeId : option string) (flattenedList : list Row)
    (viewportHeight top : Q) :
  (0 <= viewportHeight)%Q ->
  centreScroll activeId flattenedList viewportHeight = Some top ->
  exists idx row,
    nth_error (visibleItems flattenedList top viewportHeight) idx = Some row
    /\ Some (id (row_item row)) = activeId.
Proof.
  intros Hvh. unfold centreScroll. destruct activeId as [a|]; [|discriminate].
  destruct (negb (String.eqb a "") && (0 <? length flattenedList)%nat); [|discriminate].
  destruct (Z.eqb_spec (findIndexFrom 0 flattenedList a) (-1)) as [|Hne]; [discriminate|].
  simpl negb. cbv iota. intros E. injection E as <-.
  destruct (findIndexFrom_nth flattenedList a 0 Hne ltac:(lia)) as [H0 (row & Hrow & Eid)].
  rewrite Z.sub_0_r in Hrow.
  set (index := findIndexFrom 0 flattenedList a) in *.
  set (i := Z.to_nat index) in *.
  assert (Ei : inject_Z (Z.of_nat i) = inject_Z index) by (f_equal; lia).
  assert (Hi : (i < length flattenedList)%nat) by (apply nth_error_Some; congruence).
  set (target := (inject_Z index * ROW_HEIGHT - viewportHeight / 2 + ROW_HEIGHT / 2)%Q).
  assert (Hpos : (0 <= inject_Z index)%Q)
    by (change 0%Q with (inject_Z 0); now rewrite <- Zle_Qle).
  assert (Hbottom : (inject_Z (Z.of_nat i) * ROW_HEIGHT
                     < Num.max 0 target + viewportHeight)%Q).
  { rewrite Ei. pose proof (max_r 0 target) as Hm.
    set (m := Num.max 0 target) in *. clearbody m. subst target.
    unfold ROW_HEIGHT, Qdiv in Hm |- *. change (/ 2)%Q with (1 # 2)%Q in Hm. lra. }
  assert (Htop : (Num.max 0 target < inject_Z (Z.of_nat i + 1) * ROW_HEIGHT)%Q).
  { rewrite inject_Z_plus, Ei. unfold Num.max.
    destruct (Qle_bool 0 target); subst target; unfold ROW_HEIGHT, Qdiv;
      change (/ 2)%Q with (1 # 2)%Q; change (inject_Z 1) with 1%Q; lra. }
  destruct (window_bounds _ _ _ _ Hi Hbottom Htop) as [Hs He].
  exists (i - Z.to_nat (startIndex (Num.max 0 target)))%nat, row. split.
  - unfold visibleItems. rewrite slice_nth by assumption. exact Hrow.
  - now rewrite Eid.
Qed.

End CentreFacts.

Lemma centred_row_rendered_witness :
  let rows := Filter.flattenedList Search.literalEngine Sample.referenceSort Sample.wideOpen
                ∅ ∅ key_name asc {["kit"%string]} [Sample.kit] in
  exists idx row,
    nth_error (Explorer.visibleItems rows 0 600) idx = Some row
    /\ Some (id (row_item row)) = Some "kit/snare.wav"%string.
Proof.
  intros rows.
  apply (centred_row_rendered (Some "kit/snare.wav"%string) rows 600 0).
  - discriminate.
  - reflexivity.
Defined.
(** ** Sliders, seeking and the gradient *)

Section ControlFacts.
Import Controls.

Lemma mathMin_spec (x y : Q) :
  (mathMin x y <= x)%Q /\ (mathMin x y <= y)%Q /\ (mathMin x y = x \/ mathMin x y = y).
Proof.
  unfold mathMin. destruct (Qle_bool x y) eqn:E.
  - apply Qle_bool_iff in E. repeat split; [apply Qle_refl|exact E|now left].
  - assert (H : (y < x)%Q).
    { apply Qnot_le_lt. intros H. apply Qle_bool_iff in H. congruence. }
    repeat split; [now apply Qlt_le_weak|apply Qle_refl|now right].
Qed.

Lemma max_choice (x y : Q) : Num.max x y = x \/ Num.max x y = y.
Proof. unfold Num.max. destruct (Qle_bool x y); [now right|now left]. Qed.

(** The share computed from a pointer position lies between 0 and 1. *)
Lemma unitShare_range (num den p : Q) :
  unitShare num den = Some p -> (0 <= p <= 1)%Q.
Proof.
  unfold unitShare. destruct (Qeq_bool den 0).
  - destruct (Qeq_bool num 0); [discriminate|].
    intros E. injection E as <-. destruct (Qle_bool 0 num); split; discriminate.
  - intros E. injection E as <-. split; [apply max_l|].
    destruct (max_choice 0 (mathMin 1 (num / den))) as [->| ->]; [discriminate|].
    apply mathMin_spec.
Qed.

Lemma unitShare_defined (num den : Q) :
  ~ (den == 0)%Q -> exists p, unitShare num den = Some p.
Proof.
  intros H. unfold unitShare. destruct (Qeq_bool den 0) eqn:E.
  - apply Qeq_bool_iff in E. contradiction.
  - eexists. reflexivity.
Qed.

(** The share computed from a pointer position lies between 0 and 1. *)
Lemma pct_range (left width clientX p : Q) :
  pct left width clientX = Some p -> (0 <= p <= 1)%Q.
Proof.
  unfold pct. destruct (Qeq_bool width 0).
  - destruct (Qeq_bool _ 0); [discriminate|].
    intros E. injection E as <-. destruct (Qle_bool 0 _); split; discriminate.
  - intros E. injection E as <-. split; [apply max_l|].
    destruct (max_choice 0 (mathMin 1 (Double.round
                                         (Double.round (clientX - left) / width))))
      as [->| ->]; [discriminate|].
    apply mathMin_spec.
Qed.

Lemma pct_defined (left width clientX : Q) :
  ~ (width == 0)%Q -> exists p, pct left width clientX = Some p.
Proof.
  intros H. unfold pct. destruct (Qeq_bool width 0) eqn:E.
  - apply Qeq_bool_iff in E. contradiction.
  - eexists. reflexivity.
Qed.

(** X14.  The numbers being doubles and each operation rounded, the
    bounds far from the overflow that the rounding leaves out: on a
    track of non-zero width, with the two values ordered and inside the
    bounds, [update] hands on a pair that is again ordered and not below
    [min], and only the handle that is dragged moves.  The pair is not
    above the greater of [max] and [top min max], the value computed at
    the right end of the track: it stays inside the bounds when neither
    [max - min] nor [min + (max - min)] is rounded, as with whole
    numbers, and may pass [max] by the rounding otherwise. *)
Theorem slider_update_in_range (min max valMin valMax left width clientX : Q)
    (isMin : bool) :
  (Double.round min == min)%Q ->
  (Qabs min <= 2 ^ 1022)%Q -> (Qabs max <= 2 ^ 1022)%Q ->
  ~ (width == 0)%Q ->
  (min <= valMin)%Q -> (valMin <= valMax)%Q -> (valMax <= max)%Q ->
  exists n x,
    update min max valMin valMax left width clientX isMin = Some (n, x)
    /\ (min <= n)%Q /\ (n <= x)%Q /\ (x <= Num.max max (top min max))%Q
    /\ (if isMin then x = valMax else n = valMin)
    /\ ((Double.round (max - min) == max - min)%Q -> (Double.round max == max)%Q ->
        (x <= max)%Q).
Proof.
  intros Hmin _ _ Hw H1 H2 H3. unfold update.
  destruct (pct_defined left width clientX Hw) as [p Ep]. rewrite Ep.
  apply pct_range in Ep as [Hp0 Hp1].
  set (r := Double.round (max - min)).
  assert (Hr : (0 <= r)%Q) by (apply round_nonneg; lra).
  assert (Er : (Double.round r == r)%Q) by apply round_idem.
  set (pr := Double.round (p * r)).
  assert (Hpr : (0 <= pr <= r)%Q).
  { split; [apply round_nonneg; nra|].
    rewrite <- Er. apply round_mono. nra. }
  set (val := Double.round (min + pr)).
  assert (Hval : (min <= val <= top min max)%Q).
  { split; [rewrite <- Hmin; apply round_mono; lra|].
    unfold top. fold r. apply round_mono. lra. }
  assert (Hexact : (Double.round (max - min) == max - min)%Q ->
                   (Double.round max == max)%Q -> (val <= max)%Q).
  { intros E1 E2. apply Qle_trans with (top min max); [apply Hval|].
    unfold top. rewrite <- E2 at 2. apply round_mono. lra. }
  pose proof (max_l max (top min max)) as Ml.
  pose proof (max_r max (top min max)) as Mr.
  destruct isMin.
  - exists (mathMin val valMax), valMax. split; [reflexivity|].
    destruct (mathMin_spec val valMax) as (Ha & Hb & [E|E]);
      rewrite E; repeat split; try assumption; try apply Qle_refl; try lra.
    rewrite <- E. exact Hb.
  - exists valMin, (Num.max val valMin). split; [reflexivity|].
    split; [assumption|]. split; [apply max_r|].
    split; [destruct (max_choice val valMin) as [-> | ->]; lra|].
    split; [reflexivity|]. intros E1 E2. specialize (Hexact E1 E2).
    destruct (max_choice val valMin) as [-> | ->]; lra.
Qed.

Lemma slider_update_in_range_witness :
  let min := Double.round (3 # 10) in
  let max := Double.round (9 # 10) in
  (exists n x,
      update min max min max 100 200 300 false = Some (n, x)
      /\ (min <= n)%Q /\ (n <= x)%Q /\ (x <= Num.max max (top min max))%Q
      /\ n = min
      /\ ((Double.round (max - min) == max - min)%Q -> (Double.round max == max)%Q ->
          (x <= max)%Q))
  /\ update min max min max 100 200 300 false = Some (min, top min max)
  /\ (max < top min max)%Q.
Proof.
  intros min max. split; [|split; vm_compute; reflexivity].
  apply (slider_update_in_range min max min max 100 200 300 false).
  - apply round_idem.
  - vm_compute. discriminate.
  - vm_compute. discriminate.
  - discriminate.
  - apply Qle_refl.
  - vm_compute. discriminate.
  - apply Qle_refl.
Defined.

End ControlFacts.
Section SeekFacts.
Import Controls Waveform.

(** X15.  A click on the waveform of a buffer of positive duration,
    drawn on a canvas of non-zero width, seeks to a time between zero and
    the duration. *)
Theorem canvas_click_seeks_inside (duration left width clientX : Q) :
  (0 < duration)%Q -> ~ (width == 0)%Q ->
  exists t,
    handleCanvasClick duration left width clientX = Some t
    /\ (0 <= t <= duration)%Q.
Proof.
  intros Hd Hw. unfold handleCanvasClick.
  destruct (Qle_bool duration 0) eqn:E.
  - apply Qle_bool_iff in E. exfalso. exact (Qlt_not_le _ _ Hd E).
  - destruct (unitShare_defined (clientX - left) width Hw) as [p Ep]. rewrite Ep.
    apply unitShare_range in Ep as [Hp0 Hp1].
    exists (p * duration)%Q. split; [reflexivity|]. split; nra.
Qed.

Lemma canvas_click_seeks_inside_witness :
  exists t, handleCanvasClick 12 0 800 200 = Some t /\ (0 <= t <= 12)%Q.
Proof.
  apply (canvas_click_seeks_inside 12 0 800 200); [reflexivity|discriminate].
Defined.

End SeekFacts.

Section GradientFacts.
Import Controls.

Lemma hue_range (r : Q) : (0 <= r)%Q -> (r < 1)%Q -> (0 <= hue r < 360)%Z.
Proof.
  intros H0 H1. unfold hue. split.
  - apply Qfloor_ge_int. change (inject_Z 0) with 0%Q. nra.
  - assert (H : (Qfloor (r * 360) <= 359)%Z); [|lia].
    apply Qfloor_lt_succ. change (inject_Z (359 + 1)) with 360%Q. nra.
Qed.

Lemma secondHue_spec (h1 : Z) (draws : list Q) :
  Forall (fun r => (0 <= r)%Q /\ (r < 1)%Q) draws ->
  match secondHue h1 draws with
  | Some h2 =>
      (0 <= h2 < 360)%Z
      /\ (60 <= Z.abs (h1 - h2))%Z
      /\ ((0 <= h1 < 360)%Z -> (Z.abs (h1 - h2) <= 300)%Z)
  | None =>
      forall r, In r draws ->
                (Z.abs (h1 - hue r) < 60)%Z \/ (300 < Z.abs (h1 - hue r))%Z
  end.
Proof.
  induction 1 as [|r draws [H0 H1] _ IH]; simpl; [now intros r []|].
  pose proof (hue_range r H0 H1) as Hr.
  destruct (Z.ltb_spec 180 (Z.abs (h1 - hue r))) as [Hbig|Hsmall].
  - destruct (Z.leb_spec 60 (360 - Z.abs (h1 - hue r))) as [Hok|Hno].
    + split; [exact Hr|]. split; lia.
    + destruct (secondHue h1 draws); [exact IH|].
      intros r' [<-|Hin]; [right; lia|now apply IH].
  - destruct (Z.leb_spec 60 (Z.abs (h1 - hue r))) as [Hok|Hno].
    + split; [exact Hr|]. split; lia.
    + destruct (secondHue h1 draws); [exact IH|].
      intros r' [<-|Hin]; [left; lia|now apply IH].
Qed.

(** X16.  With draws in the half-open unit interval, the two hues that
    [randomizeGradient] sets are whole degrees between 0 and 359 that lie
    at least 60 degrees apart on the colour circle; the loop goes on only
    while the draws give a second hue closer than that. *)
Theorem gradient_hues_apart (draws : list Q) :
  Forall (fun r => (0 <= r)%Q /\ (r < 1)%Q) draws ->
  match randomizeGradient draws with
  | Some (h1, h2) =>
      (0 <= h1 < 360)%Z /\ (0 <= h2 < 360)%Z
      /\ (60 <= Z.abs (h1 - h2) <= 300)%Z
  | None =>
      match draws with
      | [] => True
      | r1 :: draws' =>
          forall r, In r draws' ->
                    (Z.abs (hue r1 - hue r) < 60)%Z
                    \/ (300 < Z.abs (hue r1 - hue r))%Z
      end
  end.
Proof.
  intros H. unfold randomizeGradient. destruct H as [|r1 draws' [H0 H1] Hrest]; [exact I|].
  pose proof (hue_range r1 H0 H1) as Hr1.
  pose proof (secondHue_spec (hue r1) draws' Hrest) as Hs.
  destruct (secondHue (hue r1) draws') as [h2|]; [|exact Hs].
  destruct Hs as (Hh2 & Hlow & Hhigh). repeat split; lia.
Qed.

Lemma gradient_hues_apart_witness :
  randomizeGradient [1 # 2; 5 # 9; 3 # 4] = Some (180, 270)%Z
  /\ (60 <= Z.abs (180 - 270) <= 300)%Z.
Proof.
  pose proof (gradient_hues_apart [1 # 2; 5 # 9; 3 # 4]) as H.
  change (randomizeGradient [1 # 2; 5 # 9; 3 # 4]) with (Some (180, 270)%Z) in H.
  split; [reflexivity|]. apply H.
  repeat constructor; discriminate.
Defined.

End GradientFacts.

Section SortClickFacts.
Import Controls.

(** X17.  A click on the header of the column that sorts the list
    reverses the flat list when the key tells its files apart, and a
    second click brings back the former order; a click on another header
    sorts by that column in ascending order. *)
Theorem sort_click_reverses (sortKey : SortKey) (sortOrder : SortOrder)
    (durations ratings : gmap string Q) (allFiles : list FileSystemItem) :
  (forall x y, In x allFiles -> In y allFiles ->
               Sort.compareFlat sortKey asc durations ratings x y = 0%Z -> x = y) ->
  let clicked := handleSortClick sortKey (sortKey, sortOrder) in
  Sort.sortedFiles (fst clicked) (snd clicked) durations ratings allFiles
  = rev (Sort.sortedFiles sortKey sortOrder durations ratings allFiles)
  /\ handleSortClick sortKey clicked = (sortKey, sortOrder)
  /\ forall key, key <> sortKey ->
                 handleSortClick key (sortKey, sortOrder) = (key, asc).
Proof.
  intros Hd clicked. subst clicked. unfold handleSortClick.
  rewrite bool_decide_eq_true_2 by reflexivity. simpl fst. simpl snd.
  rewrite bool_decide_eq_true_2 by reflexivity.
  pose proof (sortedFiles_reverse sortKey durations ratings allFiles Hd) as Hrev.
  repeat split.
  - destruct sortOrder; [exact Hrev|]. rewrite Hrev. now rewrite rev_involutive.
  - now destruct sortOrder.
  - intros key Hk. rewrite bool_decide_eq_false_2 by congruence. reflexivity.
Qed.

Lemma sort_click_reverses_witness :
  Sort.sortedFiles key_name desc ∅ ∅ Sample.threeTracks
  = rev (Sort.sortedFiles key_name asc ∅ ∅ Sample.threeTracks).
Proof.
  apply (sort_click_reverses key_name asc ∅ ∅ Sample.threeTracks).
  intros x y Hx Hy. simpl in Hx, Hy.
  destruct Hx as [<-|[<-|[<-|[]]]], Hy as [<-|[<-|[<-|[]]]];
    first [reflexivity | discriminate].
Defined.

End SortClickFacts.
(** ** Move shortcuts and the text export *)

Section ShortcutFacts.
Import Controls.

Lemma applyOp_keeps (l : list MoveShortcut) (op : ShortcutOp) :
  (length l <= 7)%nat ->
  Forall (fun s => In (key s) SHORTCUT_KEY_SEQUENCE) l ->
  (length (applyOp l op) <= 7)%nat
  /\ Forall (fun s => In (key s) SHORTCUT_KEY_SEQUENCE) (applyOp l op).
Proof.
  intros Hlen Hkeys. destruct op as [folders|k t|k]; simpl.
  - unfold addMoveShortcut.
    destruct (nth_error SHORTCUT_KEY_SEQUENCE (length l)) as [nextKey|] eqn:E;
      [|now split].
    assert (Hlt : (length l < length SHORTCUT_KEY_SEQUENCE)%nat)
      by (apply nth_error_Some; congruence).
    apply nth_error_In in E. split.
    + rewrite length_app. simpl in *. lia.
    + apply Forall_app. split; [exact Hkeys|]. constructor; [exact E|constructor].
  - unfold updateShortcutTarget. split; [now rewrite length_map|].
    apply List.Forall_forall. intros s Hs. apply in_map_iff in Hs as (s0 & <- & Hs0).
    rewrite List.Forall_forall in Hkeys. specialize (Hkeys s0 Hs0).
    now destruct (String.eqb (key s0) k).
  - unfold removeShortcut. split.
    + pose proof (filter_length_le (fun s => negb (String.eqb (key s) k)) l). lia.
    + apply List.Forall_forall. intros s Hs. apply filter_In in Hs as [Hs _].
      rewrite List.Forall_forall in Hkeys. now apply Hkeys.
Qed.

(** X18.  Whatever the user adds, retargets and removes, there are never
    more than seven move shortcuts and each one has a key of the
    sequence [z x c v b n m]. *)
Theorem shortcuts_stay_in_sequence (ops : list ShortcutOp) (start : list MoveShortcut) :
  (length start <= 7)%nat ->
  Forall (fun s => In (key s) SHORTCUT_KEY_SEQUENCE) start ->
  (length (fold_left applyOp ops start) <= 7)%nat
  /\ Forall (fun s => In (key s) SHORTCUT_KEY_SEQUENCE) (fold_left applyOp ops start).
Proof.
  revert start. induction ops as [|op ops IH]; intros start Hlen Hkeys; simpl.
  - now split.
  - destruct (applyOp_keeps start op Hlen Hkeys) as [H1 H2]. now apply IH.
Qed.

Lemma shortcuts_stay_in_sequence_witness :
  (length (fold_left applyOp [Add []; Add []; Remove "z"; Add []; Retarget "x" "drums"] [])
   <= 7)%nat.
Proof.
  apply (shortcuts_stay_in_sequence
           [Add []; Add []; Remove "z"%string; Add []; Retarget "x"%string "drums"%string] []).
  - simpl. lia.
  - constructor.
Defined.

(** X19.  The key of a new shortcut is chosen by the number of shortcuts,
    not by the keys in use: after [n] shortcuts have been added and any
    but the last is removed, the next one added gets the key of the last
    one, so that two shortcuts have the same key. *)
Theorem shortcut_key_given_twice (n i : nat) (folders : list FileSystemItem) :
  (2 <= n <= 7)%nat -> (i < n - 1)%nat ->
  let added := Nat.iter n (addMoveShortcut folders) [] in
  let removed := removeShortcut (nth i SHORTCUT_KEY_SEQUENCE ""%string) added in
  let keys := map key (addMoveShortcut folders removed) in
  length keys = n
  /\ nth_error keys (n - 2) = nth_error SHORTCUT_KEY_SEQUENCE (n - 1)
  /\ nth_error keys (n - 1) = nth_error SHORTCUT_KEY_SEQUENCE (n - 1).
Proof.
  intros Hn Hi.
  destruct n as [|[|[|[|[|[|[|[|n]]]]]]]]; try lia;
    destruct i as [|[|[|[|[|[|i]]]]]]; try lia; repeat split; reflexivity.
Qed.

Lemma shortcut_key_given_twice_witness :
  let keys :=
    map key (addMoveShortcut [] (removeShortcut "z" (Nat.iter 2 (addMoveShortcut []) []))) in
  length keys = 2%nat
  /\ nth_error keys 0 = Some "x"%string
  /\ nth_error keys 1 = Some "x"%string.
Proof.
  apply (shortcut_key_given_twice 2 0 []); lia.
Defined.

End ShortcutFacts.

Section ExportFacts.
Import Controls Path.

Lemma splitOn_join (c : ascii) (l : list string) :
  l <> [] -> Forall (fun s => hasUnit c s = false) l -> splitOn c (join c l) = l.
Proof.
  intros Hne H. induction H as [|x l Hx Hl IH]; [contradiction|].
  destruct l as [|y l]; [now apply splitOn_plain|].
  rewrite join_cons by discriminate. rewrite splitOn_app.
  rewrite (splitOn_plain _ _ Hx), IH by discriminate. reflexivity.
Qed.

(** X20.  The text export of an empty list is the notice and no file; of
    a list of files whose names hold no line feed it is a text whose
    lines are the names of the files, in the order of the list. *)
Theorem export_txt_lines (filteredFiles : list FileSystemItem) :
  Forall (fun f => hasUnit "010" (name f) = false) filteredFiles ->
  match exportFilesTxt filteredFiles with
  | inl notice => filteredFiles = [] /\ notice = "NO FILES TO EXPORT"%string
  | inr content => splitOn "010" content = map name filteredFiles
  end.
Proof.
  intros H. unfold exportFilesTxt. destruct filteredFiles as [|f fs]; [now split|].
  simpl Nat.eqb. cbv iota. apply splitOn_join; [discriminate|].
  apply List.Forall_forall. intros s Hs. apply in_map_iff in Hs as (f0 & <- & Hf0).
  rewrite List.Forall_forall in H. now apply H.
Qed.

Lemma export_txt_lines_witness :
  splitOn "010" (join "010" (map name Sample.threeTracks)) = map name Sample.threeTracks.
Proof.
  apply (export_txt_lines Sample.threeTracks). repeat constructor.
Defined.

End ExportFacts.
(** ** The rescan and the filters *)

Section RescanFacts.
Import Library.

Lemma fold_min_spec (l : list Q) (x : Q) :
  let m := fold_left (fun m v => if Qle_bool m v then m else v) l x in
  (m <= x)%Q /\ forall v, In v l -> (m <= v)%Q.
Proof.
  revert x. induction l as [|y l IH]; intros x; simpl.
  - split; [apply Qle_refl|now intros v []].
  - destruct (IH (if Qle_bool x y then x else y)) as [H1 H2].
    assert (Hxy : ((if Qle_bool x y then x else y) <= x
                   /\ (if Qle_bool x y then x else y) <= y)%Q).
    { destruct (Qle_bool x y) eqn:E.
      - apply Qle_bool_iff in E. split; [apply Qle_refl|exact E].
      - split; [|apply Qle_refl]. apply Qlt_le_weak, Qnot_le_lt.
        intros H. apply Qle_bool_iff in H. congruence. }
    destruct Hxy as [Hx Hy]. split.
    + eapply Qle_trans; eassumption.
    + intros v [<-|Hv]; [eapply Qle_trans; eassumption|now apply H2].
Qed.

Lemma fold_max_spec (l : list Q) (x : Q) :
  let m := fold_left Num.max l x in
  (x <= m)%Q /\ forall v, In v l -> (v <= m)%Q.
Proof.
  revert x. induction l as [|y l IH]; intros x; simpl.
  - split; [apply Qle_refl|now intros v []].
  - destruct (IH (Num.max x y)) as [H1 H2]. split.
    + eapply Qle_trans; [apply max_l|exact H1].
    + intros v [<-|Hv]; [eapply Qle_trans; [apply max_r|exact H1]|now apply H2].
Qed.

Lemma minimum_le (l : list Q) (v : Q) : In v l -> (minimum l <= v)%Q.
Proof.
  destruct l as [|x l]; [now intros []|]. simpl.
  destruct (fold_min_spec l x) as [H1 H2]. intros [<-|Hv]; [exact H1|now apply H2].
Qed.

Lemma le_maximum (l : list Q) (v : Q) : In v l -> (v <= maximum l)%Q.
Proof.
  destruct l as [|x l]; [now intros []|]. simpl.
  destruct (fold_max_spec l x) as [H1 H2]. intros [<-|Hv]; [exact H1|now apply H2].
Qed.

(** X21.  After a rescan that reads the store the size and date ranges
    exclude no file: a file is in the flat filtered list exactly when it
    was collected by the scan, matches the search text, has a known
    duration between 0 and 60 seconds or none, and has the minimal rating. *)
Theorem rescan_resets_size_and_date
    (engine : JS.str -> JS.str -> JS.str -> option bool)
    (ratings : gmap string Q) (sortKey : SortKey) (sortOrder : SortOrder)
    (items : list FileSystemItem) (st : State) (f : FileSystemItem) :
  let st' := refreshFiles items true st in
  let duration := Num.orZero (durations st !! id f) in
  In f (Filter.filteredFiles engine (criteria st') (durations st') ratings sortKey sortOrder
          (allFiles st'))
  <-> In f (collect items)
      /\ Search.matchSmartSearch engine (name f) (searchText (criteria st)) = true
      /\ (0 <= duration <= 60)%Q
      /\ (minRating (criteria st) <= Num.orZero (ratings !! id f))%Q.
Proof.
  intros st' duration. subst st' duration. rewrite in_filteredFiles.
  unfold refreshFiles. destruct (collect items) as [|f0 files] eqn:Ec.
  - simpl. split; [now intros [[] _]|now intros [[] _]].
  - change (0 <? length (f0 :: files))%nat with true. cbv iota zeta. simpl allFiles.
    simpl criteria. simpl durations.
    split.
    + intros [Hin Ha]. split; [exact Hin|].
      unfold Filter.flatAccepts in Ha. simpl in Ha.
      apply andb_true_iff in Ha as [Ha Hr]. apply andb_true_iff in Ha as [Ha _].
      apply andb_true_iff in Ha as [Ha Hd]. apply andb_true_iff in Ha as [Hs _].
      apply andb_true_iff in Hd as [Hd0 Hd1].
      unfold Num.geb in *. apply Qle_bool_iff in Hr, Hd0, Hd1. auto.
    + intros (Hin & Hs & [Hd0 Hd1] & Hr). split; [exact Hin|].
      unfold Filter.flatAccepts. simpl.
      set (sizes := map (fun f => Num.orZero (size f)) (f0 :: files)).
      set (dates := map (fun f => Num.orZero (lastModified f)) (f0 :: files)).
      assert (Hsz : In (Num.orZero (size f)) sizes)
        by (apply (in_map (fun f => Num.orZero (size f))); exact Hin).
      assert (Hdt : In (Num.orZero (lastModified f)) dates)
        by (apply (in_map (fun f => Num.orZero (lastModified f))); exact Hin).
      rewrite Hs. unfold Num.geb.
      repeat (apply andb_true_iff; split); try reflexivity; apply Qle_bool_iff;
        first [exact (minimum_le _ _ Hsz) | exact (le_maximum _ _ Hsz)
              | exact (minimum_le _ _ Hdt) | exact (le_maximum _ _ Hdt)
              | assumption].
Qed.

End RescanFacts.

(** ** The peaks of the waveform and its colours *)

Section PeakFacts.
Import Playback.

Local Notation "'pick'" :=
  (fun (max v : Q) => let val := Qabs v in if Num.ltb max val then val else max).

Lemma fold_peak_spec (block : list Q) (acc : Q) :
  let m := fold_left pick block acc in
  (acc <= m)%Q
  /\ (forall v, In v block -> (Qabs v <= m)%Q)
  /\ (m = acc \/ exists v, In v block /\ m = Qabs v).
Proof.
  revert acc. induction block as [|x block IH]; intros acc; simpl.
  - repeat split; [apply Qle_refl|now intros v []|now left].
  - cbv beta zeta.
    destruct (IH (if Num.ltb acc (Qabs x) then Qabs x else acc)) as (H1 & H2 & H3).
    cbv beta zeta in H1, H2, H3.
    assert (Hstep : (acc <= (if Num.ltb acc (Qabs x) then Qabs x else acc)
                     /\ Qabs x <= (if Num.ltb acc (Qabs x) then Qabs x else acc))%Q).
    { destruct (Num.ltb acc (Qabs x)) eqn:E.
      - apply ltb_lt in E. split; [now apply Qlt_le_weak|apply Qle_refl].
      - apply ltb_ge in E. split; [apply Qle_refl|exact E]. }
    destruct Hstep as [Ha Hx]. repeat split.
    + eapply Qle_trans; eassumption.
    + intros v [<-|Hv]; [eapply Qle_trans; eassumption|now apply H2].
    + destruct H3 as [E|(v & Hv & E)].
      * rewrite E. destruct (Num.ltb acc (Qabs x)); [|now left].
        right. exists x. split; [now left|reflexivity].
      * right. exists v. split; [now right|exact E].
Qed.

Lemma in_part {A : Type} (a n : nat) (l : list A) (x : A) :
  In x (firstn n (skipn a l)) -> In x l.
Proof.
  intros H. rewrite <- (firstn_skipn a l). apply in_or_app. right.
  rewrite <- (firstn_skipn n (skipn a l)). apply in_or_app. now left.
Qed.

Lemma blockSize_eq (n : nat) :
  match (n / 800)%nat with O => 1%nat | m => m end = Nat.max 1 (n / 800).
Proof. destruct (n / 800)%nat as [|m]; [reflexivity|]. simpl. lia. Qed.

Lemma peaks_eq (rawData : list Q) :
  peaks rawData
  = map (fun i => blockMax (firstn (Nat.max 1 (length rawData / 800))
                              (skipn (i * Nat.max 1 (length rawData / 800)) rawData)))
      (seq 0 800).
Proof. unfold peaks. now rewrite blockSize_eq. Qed.

(** X22.  The waveform never understates a sample it covers: each of
    the first 800 blocks of samples has a point, and the point is at
    least the magnitude of every sample of the block. *)
Theorem peaks_cover (rawData : list Q) (j : nat) (v : Q) :
  let blockSize := Nat.max 1 (length rawData / 800) in
  nth_error rawData j = Some v ->
  (j < 800 * blockSize)%nat ->
  exists p, nth_error (peaks rawData) (j / blockSize) = Some p /\ (Qabs v <= p)%Q.
Proof.
  intros blockSize Hv Hj.
  assert (Hbs : (0 < blockSize)%nat) by (subst blockSize; lia).
  assert (Hi : (j / blockSize < 800)%nat)
    by (apply Nat.Div0.div_lt_upper_bound; lia).
  rewrite peaks_eq. fold blockSize.
  rewrite nth_error_map, nth_error_seq.
  replace (j / blockSize <? 800)%nat with true by (symmetry; now apply Nat.ltb_lt).
  simpl. eexists. split; [reflexivity|].
  apply fold_peak_spec.
  apply (nth_error_In _ (j mod blockSize)).
  rewrite nth_error_firstn, nth_error_skipn.
  replace (j mod blockSize <? blockSize)%nat with true
    by (symmetry; apply Nat.ltb_lt, Nat.mod_upper_bound; lia).
  replace (j / blockSize * blockSize + j mod blockSize)%nat with j
    by (rewrite (Nat.div_mod_eq j blockSize) at 1; lia).
  exact Hv.
Qed.

Lemma peaks_cover_witness :
  exists p, nth_error (peaks [1 # 2; -(3 # 4)]) 1 = Some p /\ (Qabs (-(3 # 4)) <= p)%Q.
Proof.
  apply (peaks_cover [1 # 2; -(3 # 4)] 1 (-(3 # 4))); [reflexivity|simpl; lia].
Defined.

(** X23.  There are always 800 points; each one is zero or the magnitude
    of a sample; and the samples after the first 800 blocks, up to 799 of
    them, have no influence on the points. *)
Theorem peaks_shape (rawData : list Q) :
  let blockSize := Nat.max 1 (length rawData / 800) in
  length (peaks rawData) = 800%nat
  /\ (forall p, In p (peaks rawData) ->
                p = 0%Q \/ exists v, In v rawData /\ p = Qabs v)
  /\ peaks rawData = peaks (firstn (800 * blockSize) rawData)
  /\ (length rawData - 800 * blockSize < 800)%nat.
Proof.
  intros blockSize.
  assert (Hbs : (0 < blockSize)%nat) by (subst blockSize; lia).
  split; [|split; [|split]].
  - now rewrite peaks_eq, length_map, length_seq.
  - intros p Hp. rewrite peaks_eq in Hp. fold blockSize in Hp.
    apply in_map_iff in Hp as (i & <- & _).
    destruct (fold_peak_spec (firstn blockSize (skipn (i * blockSize) rawData)) 0)
      as (_ & _ & [E|(v & Hv & E)]); [now left|].
    right. exists v. split; [|exact E].
    exact (in_part _ _ _ _ Hv).
  - rewrite (peaks_eq (firstn _ _)), peaks_eq. fold blockSize.
    assert (Elen : Nat.max 1 (length (firstn (800 * blockSize) rawData) / 800) = blockSize).
    { rewrite length_firstn. subst blockSize.
      destruct (Nat.le_gt_cases 800 (length rawData)) as [Hge|Hlt].
      - assert (H1 : (1 <= length rawData / 800)%nat)
          by (apply Nat.div_le_lower_bound; lia).
        pose proof (Nat.Div0.mul_div_le (length rawData) 800) as H2.
        replace (Nat.max 1 (length rawData / 800)) with (length rawData / 800)%nat by lia.
        rewrite Nat.min_l by lia.
        rewrite Nat.mul_comm, Nat.div_mul by lia. lia.
      - assert (E0 : (length rawData / 800 = 0)%nat) by (apply Nat.div_small; lia).
        rewrite E0. change (Nat.max 1 0) with 1%nat.
        rewrite Nat.mul_1_r, Nat.min_r by lia. now rewrite E0. }
    rewrite Elen. apply map_ext_in. intros i Hi. apply in_seq in Hi. f_equal.
    rewrite skipn_firstn_comm, firstn_firstn.
    f_equal. nia.
  - subst blockSize.
    destruct (Nat.le_gt_cases 800 (length rawData)) as [Hge|Hlt].
    + assert (H1 : (1 <= length rawData / 800)%nat)
        by (apply Nat.div_le_lower_bound; lia).
      rewrite Nat.max_r by exact H1.
      pose proof (Nat.div_mod_eq (length rawData) 800) as H2.
      pose proof (Nat.mod_upper_bound (length rawData) 800 ltac:(lia)) as H3. lia.
    + lia.
Qed.

End PeakFacts.
Section ColourFacts.
Import Waveform.

Lemma colours_short (data points : list Q) :
  (length data < length points)%nat ->
  Forall (fun h => h = None) (calculateColors data points).
Proof.
  intros Hlt. unfold calculateColors.
  rewrite (Nat.div_small _ _ Hlt).
  apply List.Forall_forall. intros h Hh. apply in_map_iff in Hh as (i & <- & _).
  rewrite Nat.mul_0_r. reflexivity.
Qed.

Lemma colours_long (data points : list Q) :
  (0 < length points <= length data)%nat ->
  Forall (fun h => exists q, h = Some q /\ (0 <= q <= 280)%Q) (calculateColors data points).
Proof.
  intros [Hpos Hle]. unfold calculateColors.
  set (n := length points) in *. set (spp := (length data / n)%nat).
  assert (Hspp : (1 <= spp)%nat) by (apply Nat.div_le_lower_bound; lia).
  assert (Hfit : (n * spp <= length data)%nat) by (apply Nat.Div0.mul_div_le).
  apply List.Forall_forall. intros h Hh. apply in_map_iff in Hh as (i & <- & Hi).
  apply in_seq in Hi.
  assert (Eend : Nat.min (i * spp + spp) (length data) = (i * spp + spp)%nat)
    by (apply Nat.min_l; nia).
  rewrite Eend.
  replace (i * spp + spp - i * spp)%nat with spp by lia.
  destruct (Nat.eqb_spec spp 0) as [E|_]; [lia|].
  eexists. split; [reflexivity|].
  set (c := crossings _).
  assert (Hz : (0 <= inject_Z (Z.of_nat c) / inject_Z (Z.of_nat spp) * 800)%Q).
  { apply Qmult_le_0_compat; [|discriminate].
    apply Qle_shift_div_l.
    - change 0%Q with (inject_Z 0). rewrite <- Zlt_Qlt. lia.
    - rewrite Qmult_0_l. change 0%Q with (inject_Z 0). rewrite <- Zle_Qle. lia. }
  destruct (mathMin_spec 280 (inject_Z (Z.of_nat c) / inject_Z (Z.of_nat spp) * 800))
    as (H280 & _ & [E|E]); split; try exact H280; rewrite E;
    [discriminate|exact Hz].
Qed.

(** X24.  The colours of the waveform that [playFile] builds: there are
    800 of them; when the buffer has at least 800 samples, each hue is a
    number between 0 and 280; when it has fewer, no hue is a number (each
    one is [0 / 0]). *)
Theorem waveform_hues (rawData : list Q) :
  let colours := calculateColors rawData (Playback.peaks rawData) in
  length colours = 800%nat
  /\ ((800 <= length rawData)%nat ->
      Forall (fun h => exists q, h = Some q /\ (0 <= q <= 280)%Q) colours)
  /\ ((length rawData < 800)%nat -> Forall (fun h => h = None) colours).
Proof.
  intros colours. subst colours.
  assert (Hlen : length (Playback.peaks rawData) = 800%nat)
    by (now rewrite peaks_eq, length_map, length_seq).
  split; [|split].
  - unfold calculateColors. now rewrite length_map, length_seq.
  - intros H. apply colours_long. lia.
  - intros H. apply colours_short. lia.
Qed.

End ColourFacts.
Section DepthFacts.
Import Scanner Filter.
Variable engine : JS.str -> JS.str -> JS.str -> option bool.
Variable arraySort : (Row -> Row -> Z) -> list Row -> list Row.
Variable fc : FilterCriteria.
Variables durations ratings : gmap string Q.
Variable sortKey : SortKey.
Variable sortOrder : SortOrder.
Variable expanded : gset string.
Hypothesis arraySort_perm : forall cmp l, Permutation (arraySort cmp l) l.

Local Notation "'pn'" :=
  (processNode engine arraySort fc durations ratings sortKey sortOrder expanded).

Lemma countUnit_app (c : ascii) (a b : string) :
  Path.countUnit c (a ++ b) = (Path.countUnit c a + Path.countUnit c b)%nat.
Proof.
  induction a as [|d a IH]; [reflexivity|].
  rewrite append_cons. simpl. rewrite IH. lia.
Qed.

Lemma countUnit_free (c : ascii) (s : string) :
  Path.hasUnit c s = false -> Path.countUnit c s = 0%nat.
Proof.
  induction s as [|d s IH]; [reflexivity|]. simpl. intros H.
  apply orb_false_iff in H as [-> H]. now rewrite IH.
Qed.

Lemma countUnit_fullPath (path ename : string) :
  path <> ""%string -> Path.hasUnit "/" ename = false ->
  Path.countUnit "/" (fullPath path ename) = S (Path.countUnit "/" path).
Proof.
  intros Hp Hn. unfold fullPath.
  destruct (String.eqb_spec path "") as [E|_]; [contradiction|].
  change (path ++ "/" ++ ename)%string with (path ++ String "/" ename)%string.
  rewrite countUnit_app. simpl. rewrite (countUnit_free _ _ Hn). lia.
Qed.

Lemma wellNamed_name (e : Entry) :
  wellNamed e -> entryName e <> ""%string /\ Path.hasUnit "/" (entryName e) = false.
Proof.
  destruct e as [n info|n es y]; intros H; [exact H|].
  apply wellNamed_dir in H as (H1 & H2 & _). now split.
Qed.

(** The depth of a row against the depth of the path of its entry. *)
Lemma scan_depth (e : Entry) :
  wellNamed e ->
  forall path item d row,
    scanEntry path e = Push item -> In row (pn item d []) ->
    (depth row + Path.countUnit "/" (fullPath path (entryName e))
     = d + Path.countUnit "/" (id (row_item row)))%nat.
Proof.
  induction e as [ename info|ename es y IH] using Entry_tree_ind;
    intros Hw path item d row E Hrow.
  - simpl in E. destruct (Path.isAudioName ename); [|discriminate E].
    destruct info; [|discriminate E]. injection E as <-.
    rewrite processNode_file in Hrow.
    destruct (treeAccepts _ _ _ _ _); [|destruct Hrow].
    destruct Hrow as [<-|[]]. simpl. lia.
  - rewrite scanEntry_dir in E. injection E as <-.
    apply wellNamed_dir in Hw as (Hne & Hslash & Hes).
    rewrite processNode_directory_rows in Hrow. cbv zeta in Hrow.
    set (full := fullPath path ename) in *.
    assert (Hfound : forall r,
               In r (if bool_decide (full ∈ expanded) || searchActive fc
                     then flat_map (fun c => pn c (S d) []) (scanLoop full y es)
                     else []) ->
               (depth r + Path.countUnit "/" full
                = d + Path.countUnit "/" (id (row_item r)))%nat).
    { intros r Hr. destruct (_ || _) in Hr; [|destruct Hr].
      apply in_flat_map in Hr as (c & Hc & Hr).
      apply scanLoop_in in Hc as (e & He & Ee).
      rewrite List.Forall_forall in IH, Hes.
      pose proof (IH e He (Hes e He) _ _ _ _ Ee Hr) as Hd.
      destruct (wellNamed_name e (Hes e He)) as [_ Hs].
      rewrite countUnit_fullPath in Hd;
        [lia|now apply fullPath_nonempty|exact Hs]. }
    destruct (_ || _) in Hrow; [|now apply Hfound].
    destruct Hrow as [<-|Hrow]; [reflexivity|].
    destruct (bool_decide (full ∈ expanded)) eqn:Ei; [|destruct Hrow].
    apply Hfound. rewrite ?Ei. simpl orb. cbv iota.
    eapply Permutation_in; [apply arraySort_perm|exact Hrow].
Qed.

(** X25.  In the explorer of a scanned folder the depth of every row,
    from which its indentation is computed, is the number of slashes in
    the id of its entry. *)
Theorem row_depth_is_nesting (entries : list Entry) (yields : option nat) (row : Row) :
  Forall wellNamed entries ->
  In row (flattenedList engine arraySort fc durations ratings sortKey sortOrder
            expanded (scanDirectory entries yields "")) ->
  depth row = Path.countUnit "/" (id (row_item row)).
Proof.
  intros Hw Hrow. rewrite flattenedList_flat_map in Hrow.
  apply in_flat_map in Hrow as (c & Hc & Hrow).
  unfold scanDirectory in Hc. apply scanLoop_in in Hc as (e & He & Ee).
  rewrite List.Forall_forall in Hw.
  pose proof (scan_depth e (Hw e He) _ _ _ _ Ee Hrow) as Hd.
  destruct (wellNamed_name e (Hw e He)) as [_ Hs].
  change (fullPath "" (entryName e)) with (entryName e) in Hd.
  rewrite (countUnit_free _ _ Hs) in Hd. lia.
Qed.

End DepthFacts.

Lemma row_depth_is_nesting_witness :
  let snare := mkItem "drums/808/snare.MP3" "snare.MP3" file true true []
                 (Some 2000%Q) (Some 50%Q) (Some ""%string) in
  depth (mkRow snare 2 None) = Path.countUnit "/" (id snare).
Proof.
  intros snare.
  apply (row_depth_is_nesting Search.literalEngine Sample.referenceSort Sample.wideOpen
           ∅ ∅ key_name asc {["drums"; "drums/808"]}%string
           (fun cmp l => stableSort_perm cmp l) SampleHost.library None
           (mkRow snare 2 None)).
  - repeat constructor; try discriminate.
  - vm_compute. tauto.
Defined.
(** ** The folder picked through the file input *)

Section LegacyFacts.
Import Legacy.

Lemma collect_app (l l' : list FileSystemItem) :
  collect (l ++ l') = collect l ++ collect l'.
Proof. unfold collect. apply flat_map_app. Qed.

Lemma isFolderNamed_directory (folderName : string) (x : FileSystemItem) :
  isFolderNamed folderName x = true -> kind x = directory.
Proof.
  unfold isFolderNamed. intros H. apply andb_true_iff in H as [_ H].
  now destruct (kind x).
Qed.

Lemma collectItem_withChildren (x : FileSystemItem) (cs : list FileSystemItem) :
  kind x = directory -> collectItem (withChildren x cs) = collect cs.
Proof. intros H. rewrite collectItem_eq. simpl. now rewrite H. Qed.

Lemma updateFirst_collect (p : FileSystemItem -> bool)
    (f : FileSystemItem -> FileSystemItem) (extra : list FileSystemItem)
    (l : list FileSystemItem) :
  existsb p l = true ->
  (forall x, In x l -> p x = true ->
             Permutation (collectItem (f x)) (collectItem x ++ extra)) ->
  Permutation (collect (updateFirst p f l)) (collect l ++ extra).
Proof.
  induction l as [|x l IH]; intros He Hf; [discriminate|].
  simpl in *. destruct (p x) eqn:Ep.
  - change (collect (f x :: l)) with (collectItem (f x) ++ collect l).
    change (collect (x :: l)) with (collectItem x ++ collect l).
    rewrite (Hf x (or_introl eq_refl) Ep).
    rewrite <- !app_assoc. apply Permutation_app_head, Permutation_app_comm.
  - change (collect (x :: updateFirst p f l))
      with (collectItem x ++ collect (updateFirst p f l)).
    change (collect (x :: l)) with (collectItem x ++ collect l).
    rewrite <- app_assoc. apply Permutation_app_head.
    apply IH; [exact He|]. intros y Hy. apply Hf. now right.
Qed.

(** Placing a file adds it, and nothing else, to the files of the level. *)
Lemma place_collect (folders : list string) (item : FileSystemItem) :
  kind item = file ->
  forall seen currentLevel,
    Permutation (collect (place seen folders item currentLevel))
      (collect currentLevel ++ [item]).
Proof.
  intros Hk. induction folders as [|folderName rest IH]; intros seen currentLevel.
  - simpl place. rewrite collect_app. apply Permutation_app_head.
    change (collect [item]) with (collectItem item ++ []).
    now rewrite app_nil_r, collectItem_eq, Hk.
  - simpl. destruct (existsb (isFolderNamed folderName) currentLevel) eqn:E.
    + apply updateFirst_collect; [exact E|].
      intros x _ Hx. apply isFolderNamed_directory in Hx.
      rewrite (collectItem_withChildren _ _ Hx), (collectItem_eq x), Hx. apply IH.
    + rewrite collect_app. apply Permutation_app_head.
      match goal with
      | |- Permutation (collect [?d]) _ => change (collect [d]) with (collectItem d ++ [])
      end.
      rewrite app_nil_r, collectItem_eq. cbn [kind children].
      apply (IH (seen ++ [folderName]) []).
Qed.

Lemma addFile_spec (files : list LegacyFile) :
  forall acc,
    let out := fold_left addFile files acc in
    Permutation (collect (fst out))
      (collect (fst acc)
       ++ map fileItem (List.filter (fun f => Path.isAudioName (l_name f)) files))
    /\ snd out
       = snd acc ++ map fileItem (List.filter (fun f => Path.isAudioName (l_name f)) files).
Proof.
  induction files as [|f files IH]; intros acc; simpl.
  - now rewrite !app_nil_r.
  - destruct (IH (addFile acc f)) as [H1 H2]. cbv zeta in H1, H2.
    rewrite H1, H2. unfold addFile.
    destruct (Path.isAudioName (l_name f)); [|now split].
    simpl fst. simpl snd. split.
    + rewrite (place_collect _ (fileItem f) eq_refl). now rewrite <- app_assoc.
    + now rewrite <- app_assoc.
Qed.

(** X26.  The folder picked through the file input: the list of all
    files holds the files of the input with an audio extension, in the
    order of the input, and the tree shown by the explorer holds the same
    files, each one once. *)
Theorem legacy_tree_holds_the_files (files : list LegacyFile)
    (root : FileSystemItem) (fileList : list FileSystemItem) :
  handleLegacyInput files = Some (root, fileList) ->
  fileList = map fileItem (List.filter (fun f => Path.isAudioName (l_name f)) files)
  /\ Permutation (collectItem root) fileList.
Proof.
  unfold handleLegacyInput. destruct (length files =? 0)%nat; [discriminate|].
  destruct (addFile_spec files ([], [])) as [H1 H2]. cbv zeta in H1, H2.
  destruct (fold_left addFile files ([], [])) as [rootChildren fl].
  simpl in H1, H2. intros E. injection E as <- <-.
  split; [exact H2|]. rewrite collectItem_eq. simpl. now rewrite H2.
Qed.

Lemma legacy_tree_holds_the_files_witness :
  exists root fileList,
    handleLegacyInput SampleHost.upload = Some (root, fileList)
    /\ map name fileList = ["kick.wav"; "snare.wav"; "pad.flac"]%string
    /\ Permutation (collectItem root) fileList.
Proof.
  destruct (handleLegacyInput SampleHost.upload) as [[root fileList]|] eqn:E;
    [|discriminate E].
  exists root, fileList.
  destruct (legacy_tree_holds_the_files SampleHost.upload root fileList E) as [H1 H2].
  split; [reflexivity|]. split; [now rewrite H1|exact H2].
Defined.

End LegacyFacts.
Section LegacyRowFacts.
Import Legacy.

Lemma rooted_directory (seen : list string) (node : FileSystemItem) :
  kind node = directory ->
  (rooted seen node
   <-> id node = Path.join "/" (seen ++ [name node])
       /\ Forall (rooted (seen ++ [name node])) (children node)).
Proof.
  destruct node as [i n k v h cs s l t]. simpl. intros ->.
  assert (E : forall items,
             (fix each (items : list FileSystemItem) : Prop :=
                match items with
                | [] => True
                | c :: items' => rooted (seen ++ [n]) c /\ each items'
                end) items <-> Forall (rooted (seen ++ [n])) items).
  { induction items as [|c items IH]; [now split; [constructor|]|].
    split.
    - intros [Hc Hi]. constructor; [exact Hc|now apply IH].
    - intros H. inversion H; subst. split; [assumption|now apply IH]. }
  now rewrite E.
Qed.

Lemma rooted_file (seen : list string) (node : FileSystemItem) :
  kind node = file ->
  (rooted seen node
   <-> children node = []
       /\ exists last, Path.splitOn "/" (id node) = seen ++ [last]).
Proof. destruct node as [i n k v h cs s l t]. simpl. now intros ->. Qed.

Lemma updateFirst_Forall (Q : FileSystemItem -> Prop) (p : FileSystemItem -> bool)
    (f : FileSystemItem -> FileSystemItem) (l : list FileSystemItem) :
  (forall x, Q x -> p x = true -> Q (f x)) ->
  Forall Q l -> Forall Q (updateFirst p f l).
Proof.
  intros Hf. induction 1 as [|x l Hx Hl IH]; simpl; [constructor|].
  destruct (p x) eqn:Ep; constructor; auto.
Qed.

(** Placing a file keeps the level in its folder. *)
Lemma place_rooted (folders : list string) (item : FileSystemItem) (last : string) :
  kind item = file -> children item = [] ->
  forall seen currentLevel,
    Path.splitOn "/" (id item) = seen ++ folders ++ [last] ->
    Forall (rooted seen) currentLevel ->
    Forall (rooted seen) (place seen folders item currentLevel).
Proof.
  intros Hk Hc. induction folders as [|folderName rest IH];
    intros seen currentLevel Hid Hlevel; simpl.
  - apply Forall_app. split; [exact Hlevel|]. constructor; [|constructor].
    apply rooted_file; [exact Hk|]. split; [exact Hc|]. now exists last.
  - assert (Hid' : Path.splitOn "/" (id item) = (seen ++ [folderName]) ++ rest ++ [last])
      by (rewrite Hid, <- app_assoc; reflexivity).
    destruct (existsb (isFolderNamed folderName) currentLevel).
    + apply updateFirst_Forall; [|exact Hlevel].
      intros x Hx Hp. pose proof (isFolderNamed_directory _ _ Hp) as Hdir.
      unfold isFolderNamed in Hp. apply andb_true_iff in Hp as [Hn _].
      apply String.eqb_eq in Hn.
      apply (rooted_directory seen x Hdir) in Hx as [Ex Hcs].
      apply rooted_directory; [exact Hdir|]. simpl. split; [exact Ex|].
      rewrite Hn in *. now apply IH.
    + apply Forall_app. split; [exact Hlevel|]. constructor; [|constructor].
      apply rooted_directory; [reflexivity|]. simpl. split; [reflexivity|].
      apply IH; [exact Hid'|constructor].
Qed.

(** The parts of the id of a file start with the path of every folder
    that holds it. *)
Lemma rooted_files (node : FileSystemItem) :
  forall seen f,
    rooted seen node -> In f (collectItem node) ->
    exists q last, Path.splitOn "/" (id f) = seen ++ q ++ [last].
Proof.
  induction node as [i n k v h cs s l t IH] using FileSystemItem_tree_ind.
  intros seen f Hr Hf. destruct k.
  - destruct Hf as [<-|[]]. destruct Hr as [_ [last E]]. now exists [], last.
  - destruct (proj1 (rooted_directory seen (mkItem i n directory v h cs s l t) eq_refl) Hr)
      as [_ Hcs]. simpl in Hcs.
    rewrite collectItem_eq in Hf. simpl in Hf. unfold collect in Hf.
    apply in_flat_map in Hf as (c & Hc & Hf).
    rewrite List.Forall_forall in IH, Hcs.
    destruct (IH c Hc _ f (Hcs c Hc) Hf) as (q & last & E).
    exists (n :: q), last. rewrite E, <- app_assoc. reflexivity.
Qed.

Lemma rooted_ancestors (node : FileSystemItem) :
  forall seen d f,
    rooted seen node ->
    In d (nodesOf node) -> kind d = directory -> In f (collectItem d) ->
    exists rest, id f = (id d ++ String "/" rest)%string.
Proof.
  induction node as [i n k v h cs s l t IH] using FileSystemItem_tree_ind.
  intros seen d f Hr Hd Hk Hf. destruct k.
  - destruct Hr as [-> _]. destruct Hd as [<-|[]]. discriminate Hk.
  - rewrite nodesOf_eq in Hd. simpl in Hd.
    destruct (proj1 (rooted_directory seen (mkItem i n directory v h cs s l t) eq_refl) Hr)
      as [Ei Hcs]. simpl in Ei, Hcs.
    rewrite List.Forall_forall in IH, Hcs.
    destruct Hd as [<-|Hd].
    + rewrite collectItem_eq in Hf. simpl in Hf. unfold collect in Hf.
      apply in_flat_map in Hf as (c & Hc & Hf).
      destruct (rooted_files c _ f (Hcs c Hc) Hf) as (q & last & E).
      exists (Path.join "/" (q ++ [last])). simpl id.
      rewrite <- (join_splitOn "/" (id f)), E, Ei.
      apply join_app; [now destruct seen|now destruct q].
    + apply in_flat_map in Hd as (c & Hc & Hd).
      exact (IH c Hc _ d f (Hcs c Hc) Hd Hk Hf).
Qed.

Lemma addFile_rooted (top : string) (files : list LegacyFile) :
  (forall g, In g files ->
             exists rest, rest <> []
                          /\ Path.splitOn "/" (webkitRelativePath g) = top :: rest) ->
  forall acc,
    Forall (rooted [top]) (fst acc) ->
    Forall (rooted [top]) (fst (fold_left addFile files acc)).
Proof.
  induction files as [|g files IH]; intros Hfiles acc Hacc; [exact Hacc|].
  simpl. apply IH; [intros g' Hg'; apply Hfiles; now right|].
  unfold addFile. destruct (Path.isAudioName (l_name g)); [|exact Hacc].
  destruct (Hfiles g (or_introl eq_refl)) as (rest & Hne & E).
  simpl fst. rewrite E. simpl firstn. simpl tl.
  assert (Hrel : webkitRelativePath g <> ""%string).
  { intros E0. rewrite E0 in E. simpl in E. injection E as _ E. now symmetry in E. }
  apply (place_rooted (removelast rest) (fileItem g) (List.last rest ""%string));
    [reflexivity|reflexivity| |exact Hacc].
  unfold fileItem. simpl id.
  destruct (String.eqb_spec (webkitRelativePath g) "") as [E0|_]; [contradiction|].
  rewrite E. simpl. f_equal. now apply app_removelast_last.
Qed.

(** X27.  The folder picked through the file input, all its relative
    paths starting with the name of the folder and holding a slash: once
    the effect on [activeId] has run for one of its files that passes the
    filters, the file has a row in the explorer. *)
Theorem legacy_active_file_is_listed
    (engine : JS.str -> JS.str -> JS.str -> option bool)
    (arraySort : (Row -> Row -> Z) -> list Row -> list Row)
    (fc : FilterCriteria) (durations ratings : gmap string Q)
    (sortKey : SortKey) (sortOrder : SortOrder) (prev : gset string)
    (top : string) (files : list LegacyFile)
    (root f : FileSystemItem) (fileList : list FileSystemItem) :
  (forall cmp l, Permutation (arraySort cmp l) l) ->
  (forall g, In g files ->
             exists rest, rest <> []
                          /\ Path.splitOn "/" (webkitRelativePath g) = top :: rest) ->
  handleLegacyInput files = Some (root, fileList) ->
  In f fileList ->
  Filter.treeAccepts engine fc durations ratings f = true ->
  In f (map row_item
          (Filter.flattenedList engine arraySort fc durations ratings sortKey sortOrder
             (Explorer.autoExpand (Some (id f)) prev) (children root))).
Proof.
  intros Hperm Hfiles E Hf Ha.
  unfold handleLegacyInput in E. destruct (length files =? 0)%nat; [discriminate E|].
  pose proof (addFile_rooted top files Hfiles ([], []) (List.Forall_nil _)) as Hroot.
  destruct (addFile_spec files ([], [])) as [Hp Hl]. cbv zeta in Hp, Hl.
  destruct (fold_left addFile files ([], [])) as [rootChildren fl].
  injection E as <- <-. simpl in Hroot, Hp, Hl. simpl children.
  rewrite <- Hl in Hp.
  apply (Permutation_in _ (Permutation_sym Hp)) in Hf.
  unfold collect in Hf. apply in_flat_map in Hf as (c & Hc & Hf).
  rewrite flattenedList_flat_map.
  assert (Hrow : In f (map row_item
                         (Filter.processNode engine arraySort fc durations ratings sortKey
                            sortOrder (Explorer.autoExpand (Some (id f)) prev) c 0 []))).
  { apply rows_reach; [exact Hperm|exact Hf|exact Ha|].
    intros d Hd Hk Hfd. apply autoExpand_parents.
    rewrite List.Forall_forall in Hroot.
    exact (rooted_ancestors c [top] d f (Hroot c Hc) Hd Hk Hfd). }
  apply in_map_iff in Hrow as (row & Erow & Hrow).
  apply in_map_iff. exists row. split; [exact Erow|].
  apply in_flat_map. now exists c.
Qed.

End LegacyRowFacts.

Lemma legacy_active_file_is_listed_witness :
  let snare := Legacy.fileItem
                 (Legacy.mkLegacy "snare.wav" "Kit/drums/snare.wav" 2000 "audio/wav") in
  exists root fileList,
    Legacy.handleLegacyInput SampleHost.upload = Some (root, fileList)
    /\ In snare
         (map row_item
            (Filter.flattenedList Search.literalEngine Sample.referenceSort Sample.wideOpen
               ∅ ∅ key_name asc (Explorer.autoExpand (Some (id snare)) ∅) (children root))).
Proof.
  intros snare.
  destruct (Legacy.handleLegacyInput SampleHost.upload) as [[root fileList]|] eqn:E;
    [|discriminate E].
  exists root, fileList. split; [reflexivity|].
  apply (legacy_active_file_is_listed Search.literalEngine Sample.referenceSort
           Sample.wideOpen ∅ ∅ key_name asc ∅ "Kit" SampleHost.upload root snare fileList
           (fun cmp l => stableSort_perm cmp l)).
  - intros g [<-|[<-|[<-|[<-|[]]]]]; eexists; (split; [|reflexivity]); discriminate.
  - exact E.
  - vm_compute in E. injection E as _ <-. simpl. tauto.
  - reflexivity.
Defined.
Section HueFacts.
Import Waveform.

Lemma wrapDown_done (fuel : nat) (diff : Q) : (diff <= 180)%Q -> wrapDown fuel diff = diff.
Proof.
  intros H. destruct fuel as [|fuel]; [reflexivity|]. simpl.
  now rewrite (proj2 (ltb_ge 180 diff) H).
Qed.

Lemma wrapUp_done (fuel : nat) (diff : Q) : (-180 <= diff)%Q -> wrapUp fuel diff = diff.
Proof.
  intros H. destruct fuel as [|fuel]; [reflexivity|]. simpl.
  now rewrite (proj2 (ltb_ge diff (-180)) H).
Qed.

(** From a difference of at most one turn, one turn of each loop is
    enough, and the difference ends between -180 and 180. *)
Lemma wrap_spec (fuel : nat) (x : Q) :
  (-360 <= x)%Q -> (x <= 360)%Q ->
  let diff := wrapUp (S fuel) (wrapDown (S fuel) x) in
  (-180 <= diff <= 180)%Q
  /\ diff = wrapUp 1 (wrapDown 1 x).
Proof.
  intros Hlo Hhi. simpl.
  destruct (Num.ltb 180 x) eqn:E1.
  - apply ltb_lt in E1.
    assert (Hr : (-180 <= Double.round (x - 360) <= 0)%Q).
    { split; [apply (round_ge_Z _ (-180)); [reflexivity|]
             |apply (round_le_Z _ 0); [reflexivity|]];
        unfold inject_Z; lra. }
    rewrite (wrapDown_done fuel) by lra.
    rewrite (proj2 (ltb_ge (Double.round (x - 360)) (-180))) by lra.
    split; [lra|reflexivity].
  - apply ltb_ge in E1. destruct (Num.ltb x (-180)) eqn:E2.
    + apply ltb_lt in E2.
      assert (Hr : (0 <= Double.round (x + 360) <= 180)%Q).
      { split; [apply (round_ge_Z _ 0); [reflexivity|]
               |apply (round_le_Z _ 180); [reflexivity|]];
          unfold inject_Z; lra. }
      rewrite (wrapUp_done fuel) by lra. split; [lra|reflexivity].
    + apply ltb_ge in E2. split; [lra|reflexivity].
Qed.

Lemma jsRem_range (x : Q) : (0 <= x)%Q -> (0 <= jsRem x 360 < 360)%Q.
Proof.
  intros Hx. unfold jsRem, truncate.
  assert (Hq : (0 <= x / 360)%Q) by (apply Qle_shift_div_l; [reflexivity|lra]).
  rewrite (proj2 (Qle_bool_iff 0 (x / 360)) Hq).
  pose proof (Qfloor_le (x / 360)) as H1. pose proof (Qlt_floor (x / 360)) as H2.
  rewrite inject_Z_plus in H2. change (inject_Z 1) with 1%Q in H2.
  set (k := inject_Z (Qfloor (x / 360))) in *. clearbody k.
  assert (E : (x / 360 == x * (1 # 360))%Q) by reflexivity.
  rewrite E in H1, H2. split; lra.
Qed.

(** X28.  One step of the colour animation, the numbers being doubles
    and each operation rounded: for two hues of the circle and a speed
    between 0 and 1, each loop of [lerpHue] ends after one turn at most,
    and the new hue is again on the circle, at least 0 and below 360. *)
Theorem lerpHue_step (fuel : nat) (current target speed : Q) :
  (0 <= current)%Q -> (current < 360)%Q ->
  (0 <= target)%Q -> (target < 360)%Q ->
  (0 <= speed <= 1)%Q ->
  let next := lerpHue (S fuel) current target speed in
  (0 <= next < 360)%Q
  /\ next = lerpHue 1 current target speed.
Proof.
  intros Hc0 Hc1 Ht0 Ht1 [Hs0 Hs1] next. subst next. unfold lerpHue.
  assert (Hd : (-360 <= Double.round (target - current) <= 360)%Q).
  { split; [apply (round_ge_Z _ (-360)); [reflexivity|]
           |apply (round_le_Z _ 360); [reflexivity|]];
      unfold inject_Z; lra. }
  destruct (wrap_spec fuel (Double.round (target - current)) ltac:(lra) ltac:(lra))
    as ([Hd0 Hd1] & Efuel).
  cbv zeta in Hd0, Hd1, Efuel. rewrite <- Efuel.
  set (diff := wrapUp (S fuel) (wrapDown (S fuel) (Double.round (target - current))))
    in *.
  clearbody diff. split; [|reflexivity].
  assert (Hp : (-180 <= Double.round (diff * speed) <= 180)%Q).
  { split; [apply (round_ge_Z _ (-180)); [reflexivity|]
           |apply (round_le_Z _ 180); [reflexivity|]];
      unfold inject_Z; nra. }
  set (p := Double.round (diff * speed)) in *. clearbody p.
  assert (Hs : (-180 <= Double.round (current + p))%Q).
  { apply (round_ge_Z _ (-180)); [reflexivity|]. unfold inject_Z. lra. }
  set (s := Double.round (current + p)) in *. clearbody s.
  apply jsRem_range.
  apply Qle_trans with 180%Q; [discriminate|].
  apply (round_ge_Z _ 180); [reflexivity|]. unfold inject_Z. lra.
Qed.

Lemma lerpHue_step_witness :
  let speed := Double.round (1 # 20) in
  let next := lerpHue 1 0 1 speed in
  (0 <= next < 360)%Q
  /\ next = lerpHue 1 0 1 speed
  /\ (speed < next)%Q /\ (next < speed + (1 # 10 ^ 13))%Q.
Proof.
  intros speed next.
  destruct (lerpHue_step 0 0 1 speed) as [Hr Hn].
  - discriminate.
  - reflexivity.
  - discriminate.
  - reflexivity.
  - split; vm_compute; discriminate.
  - split; [exact Hr|]. split; [exact Hn|].
    split; vm_compute; reflexivity.
Defined.

End HueFacts.
Section KeyFacts.
Import Controls.

Lemma find_key_none (pressed : string) (moveShortcuts : list MoveShortcut) :
  Forall (fun s => In (key s) SHORTCUT_KEY_SEQUENCE) moveShortcuts ->
  ~ In pressed SHORTCUT_KEY_SEQUENCE ->
  List.find (fun s => String.eqb (key s) pressed) moveShortcuts = None.
Proof.
  intros Hkeys Hout. induction Hkeys as [|s l Hs _ IH]; [reflexivity|]. simpl.
  destruct (String.eqb_spec (key s) pressed) as [E|_]; [|exact IH].
  rewrite E in Hs. contradiction.
Qed.

Lemma shortcutFolder_key (pressed : string) (moveShortcuts : list MoveShortcut)
    (availableFolders : list FileSystemItem) (folder : FileSystemItem) :
  Forall (fun s => In (key s) SHORTCUT_KEY_SEQUENCE) moveShortcuts ->
  shortcutFolder pressed moveShortcuts availableFolders = Some folder ->
  In pressed SHORTCUT_KEY_SEQUENCE
  /\ In folder availableFolders
  /\ exists s, In s moveShortcuts /\ key s = pressed /\ targetPath s = id folder.
Proof.
  intros Hkeys. unfold shortcutFolder.
  destruct (List.find _ moveShortcuts) as [s|] eqn:E; [|discriminate].
  apply find_some in E as [Hs Ek]. apply String.eqb_eq in Ek.
  intros Ef. apply find_some in Ef as [Hf Et]. apply String.eqb_eq in Et.
  rewrite List.Forall_forall in Hkeys. split; [rewrite <- Ek; now apply Hkeys|].
  split; [exact Hf|]. exists s. now repeat split.
Qed.

(** X29.  With shortcut keys of the sequence [z x c v b n m], a key
    press sets off at most one action; it sets off none while the focus
    is in a field, before the start and while loading; a rating it sets
    is a whole number from 0 to 5 for the active file; and a move goes to
    an available folder that is the target of a shortcut with the key
    pressed, letter case ignored. *)
Theorem key_press_does_one_thing (inField isStarted isLoading audioPresent : bool)
    (activeFileId : option string) (moveShortcuts : list MoveShortcut)
    (availableFolders : list FileSystemItem) (k : string) :
  Forall (fun s => In (key s) SHORTCUT_KEY_SEQUENCE) moveShortcuts ->
  let actions := handleKeyDown inField isStarted isLoading audioPresent activeFileId
                   moveShortcuts availableFolders k in
  (length actions <= 1)%nat
  /\ (inField || negb isStarted || isLoading = true -> actions = [])
  /\ (forall i rating, In (Rate i rating) actions ->
        activeFileId = Some i
        /\ In rating [0; 1; 2; 3; 4; 5]%Q)
  /\ (forall folder, In (BatchMove folder) actions ->
        In folder availableFolders
        /\ exists s, In s moveShortcuts
                     /\ key s = string_of_list_ascii (JS.toLowerCase (JS.of_string k))
                     /\ targetPath s = id folder).
Proof.
  intros Hkeys actions. subst actions. unfold handleKeyDown.
  destruct inField; [simpl; repeat split; try lia; now intros|].
  destruct (negb isStarted || isLoading) eqn:Eg;
    [simpl; repeat split; try lia; now intros|].
  assert (Hrated : forall i rating,
             match ratingKey k, activeFileId with
             | Some r, Some a => if String.eqb a "" then None else Some (Rate a r)
             | _, _ => None
             end = Some (Rate i rating) ->
             activeFileId = Some i /\ In rating [0; 1; 2; 3; 4; 5]%Q).
  { intros i rating. destruct (ratingKey k) as [r|] eqn:Er; [|discriminate].
    destruct activeFileId as [a|]; [|discriminate].
    destruct (String.eqb a ""); [discriminate|]. intros E. injection E as <- <-.
    split; [reflexivity|]. unfold ratingKey in Er.
    repeat (destruct (String.eqb k _) in Er;
            [injection Er as <-; simpl; tauto|]).
    discriminate Er. }
  destruct (match ratingKey k, activeFileId with
            | Some r, Some a => if String.eqb a "" then None else Some (Rate a r)
            | _, _ => None
            end) as [action|] eqn:Erated.
  - split; [simpl; lia|].
    split; [intros H; simpl in H; rewrite Eg in H; discriminate H|]. split.
    + intros i rating [E|[]]. subst action. now apply Hrated.
    + intros folder [E|[]]. subst action.
      destruct (ratingKey k); [|discriminate Erated].
      destruct activeFileId; [|discriminate Erated].
      destruct (String.eqb _ ""); discriminate Erated.
  - clear Hrated Erated.
    set (pressed := string_of_list_ascii (JS.toLowerCase (JS.of_string k))).
    pose proof (shortcutFolder_key pressed moveShortcuts availableFolders) as Hmove.
    assert (Hother : forall k0,
               In k0 ["s"; "Enter"; " "; "ArrowRight"; "ArrowLeft"]%string -> k = k0 ->
               shortcutFolder pressed moveShortcuts availableFolders = None).
    { intros k0 Hk0 ->. unfold shortcutFolder.
      rewrite find_key_none; [reflexivity|exact Hkeys|].
      subst pressed. simpl in Hk0.
      repeat (destruct Hk0 as [<-|Hk0];
              [vm_compute; intros H;
               repeat (destruct H as [H|H]; [discriminate H|]); exact H|]).
      destruct Hk0. }
    split; [|split; [intros H; simpl in H; rewrite Eg in H; discriminate H|split]].
    + destruct (String.eqb_spec k "s") as [E|_];
        [rewrite (Hother "s"%string) by (simpl; tauto || exact E); subst k; simpl;
         destruct audioPresent; simpl; lia|].
      destruct (String.eqb_spec k "Enter") as [E|_];
        [rewrite (Hother "Enter"%string) by (simpl; tauto || exact E); subst k; simpl; lia|].
      destruct (String.eqb_spec k " ") as [E|_];
        [rewrite (Hother " "%string) by (simpl; tauto || exact E); subst k; simpl;
         destruct audioPresent; simpl; lia|].
      destruct (String.eqb_spec k "ArrowRight") as [E|_];
        [rewrite (Hother "ArrowRight"%string) by (simpl; tauto || exact E); subst k;
         simpl; lia|].
      destruct (String.eqb_spec k "ArrowLeft") as [E|_];
        [rewrite (Hother "ArrowLeft"%string) by (simpl; tauto || exact E); subst k;
         simpl; lia|].
      simpl. destruct (shortcutFolder _ _ _); simpl; lia.
    + intros i rating Hin. exfalso.
      repeat (apply in_app_or in Hin as [Hin|Hin];
              [destruct (_ : bool) in Hin; [destruct Hin as [Hin|[]]; discriminate Hin
                                           |destruct Hin]|]).
      destruct (shortcutFolder _ _ _) in Hin; [destruct Hin as [Hin|[]]; discriminate Hin
                                              |destruct Hin].
    + intros folder Hin.
      repeat (apply in_app_or in Hin as [Hin|Hin];
              [exfalso; destruct (_ : bool) in Hin;
               [destruct Hin as [Hin|[]]; discriminate Hin|destruct Hin]|]).
      destruct (shortcutFolder pressed moveShortcuts availableFolders) as [folder'|] eqn:E;
        [|destruct Hin].
      destruct Hin as [Hin|[]]. injection Hin as ->.
      destruct (Hmove folder Hkeys eq_refl) as (_ & Hf & Hs). now split.
Qed.

End KeyFacts.

Lemma key_press_does_one_thing_witness :
  let actions := Controls.handleKeyDown false true false true (Some "a.wav"%string)
                   [Controls.mkShortcut "z" "kit"] [Sample.kit] "Z" in
  actions = [Controls.BatchMove Sample.kit] /\ (length actions <= 1)%nat.
Proof.
  intros actions. split; [reflexivity|].
  apply (key_press_does_one_thing false true false true (Some "a.wav"%string)
           [Controls.mkShortcut "z" "kit"] [Sample.kit] "Z").
  repeat constructor.
Defined.
Section RatingFacts.
Import Controls.

Lemma starRatings_range (currentRating rating : Q) :
  In rating (Explorer.starRatings currentRating) -> In rating [0; 1; 2; 3; 4; 5]%Q.
Proof.
  unfold Explorer.starRatings. intros H. apply in_map_iff in H as (star & <- & Hs).
  simpl in Hs.
  repeat (destruct Hs as [<-|Hs];
          [destruct (Qeq_bool currentRating _); simpl; tauto|]).
  destruct Hs.
Qed.

Lemma ratingKey_range (k : string) (rating : Q) :
  ratingKey k = Some rating -> In rating [0; 1; 2; 3; 4; 5]%Q.
Proof.
  unfold ratingKey.
  repeat (destruct (String.eqb k _); [intros E; injection E as <-; simpl; tauto|]).
  discriminate.
Qed.

Lemma rate_keeps (ratings : gmap string Q) (ev : RatingEvent) :
  map_Forall (fun _ r => In r [0; 1; 2; 3; 4; 5]%Q) ratings ->
  map_Forall (fun _ r => In r [0; 1; 2; 3; 4; 5]%Q) (rate ratings ev).
Proof.
  intros H. destruct ev as [i n|i k]; simpl.
  - destruct (nth_error _ n) as [rating|] eqn:E; [|exact H].
    apply map_Forall_insert_2; [|exact H].
    apply nth_error_In in E. exact (starRatings_range _ _ E).
  - destruct (ratingKey k) as [rating|] eqn:E; [|exact H].
    apply map_Forall_insert_2; [|exact H]. exact (ratingKey_range _ _ E).
Qed.

(** X30.  Star clicks and rating keys keep every stored rating a whole
    number from 0 to 5, and a click on the star that equals the rating of
    the file takes that star off again, while any other star sets the
    rating to its own number. *)
Theorem ratings_stay_in_range (events : list RatingEvent) (ratings : gmap string Q) :
  map_Forall (fun _ r => In r [0; 1; 2; 3; 4; 5]%Q) ratings ->
  map_Forall (fun _ r => In r [0; 1; 2; 3; 4; 5]%Q) (fold_left rate events ratings)
  /\ forall i n star,
       nth_error [1; 2; 3; 4; 5]%Q n = Some star ->
       rate ratings (StarClick i n) !! i
       = Some (if Qeq_bool (Num.orZero (ratings !! i)) star then (star - 1)%Q else star).
Proof.
  intros H. split.
  - revert ratings H. induction events as [|ev events IH]; intros ratings H; [exact H|].
    simpl. apply IH. now apply rate_keeps.
  - intros i n star Hn. unfold rate, handleRate, Explorer.starRatings.
    do 5 (destruct n as [|n];
          [injection Hn as <-; simpl nth_error; cbv iota;
           rewrite lookup_insert_eq; f_equal;
           now destruct (Qeq_bool (Num.orZero (ratings !! i)) _)|]).
    destruct n; discriminate Hn.
Qed.

Lemma ratings_stay_in_range_witness :
  map_Forall (fun _ r => In r [0; 1; 2; 3; 4; 5]%Q)
    (fold_left rate [StarClick "a.wav" 2; KeyPress "b.wav" "5"; StarClick "a.wav" 2] ∅).
Proof.
  apply (ratings_stay_in_range
           [StarClick "a.wav" 2; KeyPress "b.wav" "5"; StarClick "a.wav" 2] ∅).
  apply map_Forall_empty.
Defined.

End RatingFacts.
